(** * stata-ai-fusion: session core, shallow embedding and verified properties

    The development embeds the session-management and output-parsing core of
    [stata_ai_fusion] (modules [stata_session.py] and [graph_cache.py]):

    - [Text]         Python [str] operations used by the code;
    - [Re]           the fragment of Python's [re] (a backtracking matcher)
                     that the module-level patterns are written in;
    - [Smcl]         [strip_smcl];
    - [Classify]     [_detect_error];
    - [Pathlib]      the [pathlib] operations used, on POSIX paths;
    - [Graph]        [GraphArtifact], [_png_dimensions], [GraphCache],
                     [maybe_inject_graph_export];
    - [Interactive]  [StataSession];
    - [Batch]        [BatchSession];
    - [Manager]      [SessionManager], over a store of session objects;
    - [Closing]      [SessionManager.close_session] and [close_all];
    - [Tools]        the content blocks the [run_command] and [run_do_file]
                     handlers build from a result;
    - [SearchLog]    the display of the [search_log] handler.

    Text is a list of characters; a character is a code point below 256
    (the Latin-1 block of Unicode), and every character class below is the
    restriction of Python's Unicode class to that block.  Integers are
    unbounded, and [int] and [str] convert any number of digits.  Time
    stamps and clock readings are integers.  What the process, the clock
    and the file system answer during a call is an argument of the call.
    File names are matched as on a POSIX system, where [glob] tells upper
    from lower case. *)

From Stdlib Require Import Ascii String ZArith Lia Bool.
From Stdlib Require Import DecimalString DecimalZ DecimalPos.
From stdpp Require Import base list gmap strings.

Local Open Scope Z_scope.

Abbreviation text := (list ascii).

(** A literal of the source, as text. *)
Definition txt (s : string) : text := list_ascii_of_string s.

(* ===================================================================== *)
(** ** Python [str] *)
(* ===================================================================== *)

Module Text.

Definition code (c : ascii) : N := N_of_ascii c.

Definition in_range (lo hi : N) (c : ascii) : bool :=
  ((lo <=? code c) && (code c <=? hi))%N.

(** [str.isspace] on one character; also [\s] of [re] and the set removed
    by [str.strip()]. *)
Definition is_space (c : ascii) : bool :=
  in_range 9 13 c || in_range 28 32 c
  || (code c =? 133)%N || (code c =? 160)%N.

(** [\d] of [re]: the decimal digits. *)
Definition is_digit (c : ascii) : bool := in_range 48 57 c.

(** [\w] of [re]: [str.isalnum] or the underscore. *)
Definition is_word (c : ascii) : bool :=
  in_range 48 57 c || in_range 65 90 c || in_range 97 122 c
  || (code c =? 95)%N
  || (code c =? 170)%N || (code c =? 178)%N || (code c =? 179)%N
  || (code c =? 181)%N || (code c =? 185)%N || (code c =? 186)%N
  || in_range 188 190 c || in_range 192 214 c
  || in_range 216 246 c || in_range 248 255 c.

(** The line boundaries of [str.splitlines]. *)
Definition is_linebreak (c : ascii) : bool :=
  in_range 10 13 c || in_range 28 30 c || (code c =? 133)%N.

(** [str.lower] on one character. *)
Definition lower_char (c : ascii) : ascii :=
  if in_range 65 90 c || ((in_range 192 222 c) && negb (code c =? 215)%N)
  then ascii_of_N (code c + 32) else c.

Definition lower (s : text) : text := map lower_char s.

Fixpoint lstrip (s : text) : text :=
  match s with
  | c :: s' => if is_space c then lstrip s' else s
  | [] => []
  end.

Fixpoint rstrip (s : text) : text :=
  match s with
  | [] => []
  | c :: s' =>
      match rstrip s' with
      | [] => if is_space c then [] else [c]
      | t => c :: t
      end
  end.

Definition strip (s : text) : text := lstrip (rstrip s).

(** [str.lstrip(chars)] for a one-character set. *)
Fixpoint lstrip_char (x : ascii) (s : text) : text :=
  match s with
  | c :: s' => if Ascii.eqb c x then lstrip_char x s' else s
  | [] => []
  end.

(** [str.splitlines()]: [cur] is the current line, reversed. *)
Fixpoint splitlines_go (cur : text) (s : text) : list text :=
  match s with
  | [] => match cur with [] => [] | _ => [rev cur] end
  | c :: s' =>
      if is_linebreak c then
        match s' with
        | c' :: s'' =>
            if Ascii.eqb c "013" && Ascii.eqb c' "010"
            then rev cur :: splitlines_go [] s''
            else rev cur :: splitlines_go [] s'
        | [] => [rev cur]
        end
      else splitlines_go (c :: cur) s'
  end.

Definition splitlines (s : text) : list text := splitlines_go [] s.

(** [sep.join(parts)] *)
Fixpoint join (sep : text) (parts : list text) : text :=
  match parts with
  | [] => []
  | [p] => p
  | p :: ps => p ++ sep ++ join sep ps
  end.

Fixpoint startswith (s pre : text) : bool :=
  match pre, s with
  | [], _ => true
  | p :: pre', c :: s' => Ascii.eqb c p && startswith s' pre'
  | _ :: _, [] => false
  end.

Definition endswith (s suf : text) : bool := startswith (rev s) (rev suf).

(** [needle in s] *)
Fixpoint contains (s needle : text) : bool :=
  startswith s needle
  || match s with
     | [] => false
     | _ :: s' => contains s' needle
     end.

Definition text_eqb (a b : text) : bool :=
  bool_decide (a = b).

(** [int(digits)] for a run of decimal digits. *)
Definition int_of_digits (ds : text) : Z :=
  fold_left (fun acc c => 10 * acc + (Z.of_N (code c) - 48)) ds 0.

(** [str(n)] for an [int]. *)
Definition str_of_int (n : Z) : text :=
  txt (NilZero.string_of_int (Z.to_int n)).

(** [s.rfind(c)] as an option. *)
Fixpoint rfind (x : ascii) (s : text) : option nat :=
  match s with
  | [] => None
  | c :: s' =>
      match rfind x s' with
      | Some i => Some (S i)
      | None => if Ascii.eqb c x then Some O else None
      end
  end.

End Text.

(* ===================================================================== *)
(** ** Python [re]: the fragment used by the module-level patterns *)
(* ===================================================================== *)

Module Re.

(** Repetition occurs in the source patterns only over a character class
    ([\s+], [\d+], [[^}]*], [.+], [[ \t]*]), so [Star] and [Plus] take a
    class.  [Alt] and [Opt] are ordered and greedy, as in a backtracking
    matcher.  At most one capturing group occurs in any pattern. *)
Inductive regex : Type :=
| Eps
| Cls (p : ascii -> bool)
| Seq (a b : regex)
| Alt (a b : regex)
| Opt (a : regex)
| Star (p : ascii -> bool)
| Plus (p : ascii -> bool)
| Grp (a : regex)
| Bos
| Wordb.

(** Matcher state: the text before the cursor (reversed) and after it. *)
Definition state : Type := text * text.

Definition cont (A : Type) : Type := state -> option text -> option A.

Definition orelse {A} (x y : option A) : option A :=
  match x with Some _ => x | None => y end.

Fixpoint star_go {A} (p : ascii -> bool) (l r : text) (g : option text)
    (k : cont A) : option A :=
  match r with
  | c :: r' =>
      if p c then orelse (star_go p (c :: l) r' g k) (k (l, r) g)
      else k (l, r) g
  | [] => k (l, []) g
  end.

Definition edge_is_word (l : text) : bool :=
  match l with c :: _ => Text.is_word c | [] => false end.

Fixpoint run {A} (e : regex) (st : state) (g : option text) (k : cont A)
    : option A :=
  match e with
  | Eps => k st g
  | Cls p =>
      match st.2 with
      | c :: r' => if p c then k (c :: st.1, r') g else None
      | [] => None
      end
  | Seq a b => run a st g (fun st' g' => run b st' g' k)
  | Alt a b => orelse (run a st g k) (run b st g k)
  | Opt a => orelse (run a st g k) (k st g)
  | Star p => star_go p st.1 st.2 g k
  | Plus p =>
      match st.2 with
      | c :: r' => if p c then star_go p (c :: st.1) r' g k else None
      | [] => None
      end
  | Grp a =>
      run a st g
        (fun st' _ =>
           k st' (Some (rev (firstn (length st'.1 - length st.1) st'.1))))
  | Bos => match st.1 with [] => k st g | _ => None end
  | Wordb =>
      if xorb (edge_is_word st.1) (edge_is_word st.2) then k st g else None
  end.

(** A match: its length and the text of group 1, if the group took part. *)
Record rmatch : Type := { m_len : nat; m_group : option text }.

(** The pattern matched with the cursor at [(l, r)]. *)
Definition match_at (e : regex) (l r : text) : option rmatch :=
  run e (l, r) None
    (fun st g => Some {| m_len := length st.1 - length l; m_group := g |}).

(** [pattern.search(s)]: the leftmost match; the result carries the text
    before the match, the match and the matched text. *)
Fixpoint search_from (e : regex) (l r : text)
    : option (text * rmatch * text) :=
  match match_at e l r with
  | Some m => Some (rev l, m, firstn (m_len m) r)
  | None =>
      match r with
      | c :: r' => search_from e (c :: l) r'
      | [] => None
      end
  end.

Definition search (e : regex) (s : text) : option (text * rmatch * text) :=
  search_from e [] s.

Definition found (e : regex) (s : text) : bool :=
  match search e s with Some _ => true | None => false end.

(** [pattern.sub(repl, s)] with a function [repl].  [skip] counts the
    characters of the last match that are still to be passed over.  An
    empty match is replaced and the scan moves on by one character. *)
Fixpoint sub_go (e : regex) (repl : rmatch -> text) (l r : text)
    (skip : nat) : text :=
  match r with
  | [] =>
      match skip, match_at e l [] with
      | O, Some m => repl m
      | _, _ => []
      end
  | c :: r' =>
      match skip with
      | S n => sub_go e repl (c :: l) r' n
      | O =>
          match match_at e l r with
          | Some m =>
              match m_len m with
              | O => repl m ++ c :: sub_go e repl (c :: l) r' O
              | S n => repl m ++ sub_go e repl (c :: l) r' n
              end
          | None => c :: sub_go e repl (c :: l) r' O
          end
      end
  end.

Definition sub (e : regex) (repl : rmatch -> text) (s : text) : text :=
  sub_go e repl [] s O.

(** Pattern syntax. *)
Definition chr (c : ascii) : regex := Cls (Ascii.eqb c).

Fixpoint lit_go (s : text) : regex :=
  match s with
  | [] => Eps
  | [c] => chr c
  | c :: s' => Seq (chr c) (lit_go s')
  end.

Definition lit (s : string) : regex := lit_go (txt s).

(** A literal under [re.IGNORECASE]. *)
Definition chr_i (c : ascii) : regex :=
  Cls (fun x => Ascii.eqb (Text.lower_char x) (Text.lower_char c)).

Fixpoint lit_i_go (s : text) : regex :=
  match s with
  | [] => Eps
  | [c] => chr_i c
  | c :: s' => Seq (chr_i c) (lit_i_go s')
  end.

Definition lit_i (s : string) : regex := lit_i_go (txt s).

Fixpoint seqs (es : list regex) : regex :=
  match es with
  | [] => Eps
  | [e] => e
  | e :: es' => Seq e (seqs es')
  end.

Fixpoint alts (es : list regex) : regex :=
  match es with
  | [] => Eps
  | [e] => e
  | e :: es' => Alt e (alts es')
  end.

Definition not_chr (c : ascii) : ascii -> bool :=
  fun x => negb (Ascii.eqb x c).

End Re.

(* ===================================================================== *)
(** ** SMCL tag stripping ([stata_session.py]) *)
(* ===================================================================== *)

Module Smcl.
Import Re.

Definition s_plus : regex := Plus Text.is_space.
Definition d_plus : regex := Plus Text.is_digit.
Definition rest : regex := Star (not_chr "}").

(** [_SMCL_TAG_RE] *)
Definition _SMCL_TAG_RE : regex :=
  seqs
    [ chr "{";
      alts
        [ Seq (lit "res") (Opt (lit "ult"));
          lit "txt";
          lit "text";
          Seq (lit "err") (Opt (lit "or"));
          lit "cmd";
          Seq (lit "inp") (Opt (lit "ut"));
          lit "bf";
          lit "it";
          lit "sf";
          lit "com";
          Seq (lit "hline") (Opt (Seq s_plus d_plus));
          seqs [lit "dup"; s_plus; d_plus; chr ":"; rest];
          seqs [lit "space"; s_plus; d_plus];
          seqs [lit "col"; s_plus; d_plus];
          seqs [lit "ralign"; s_plus; d_plus; chr ":"; rest];
          seqs [lit "lalign"; s_plus; d_plus; chr ":"; rest];
          seqs [lit "center"; s_plus; d_plus; chr ":"; rest];
          lit "right";
          lit "reset";
          lit "smcl";
          lit "p_end";
          lit "p ";
          lit "pstd";
          lit "phang";
          lit "pmore";
          Seq (lit "p2colset") rest;
          Seq (lit "p2col") rest;
          Seq (lit "p2line") rest;
          Seq (lit "marker") rest;
          Seq (lit "dlgtab") rest;
          Seq (lit "title") rest;
          Seq (lit "hi") (Opt (lit "lite"));
          seqs [lit "ul"; s_plus; Alt (lit "on") (lit "off")];
          seqs [lit "bind"; s_plus; rest];
          seqs [lit "char"; s_plus; rest];
          lit "break" ];
      chr "}" ].

(** [_SMCL_CHAR_RE] *)
Definition _SMCL_CHAR_RE : regex :=
  seqs [ chr "{"; chr "c"; s_plus; Grp (Plus (not_chr "}")); chr "}" ].

(** [_SMCL_CHAR_MAP.get(key, "")] *)
Definition _SMCL_CHAR_MAP_get (key : text) : text :=
  if Text.text_eqb key (txt "|") then txt "|"
  else if Text.text_eqb key (txt "-") then txt "-"
  else if Text.text_eqb key (txt "+") then txt "+"
  else if Text.text_eqb key (txt "TT") then txt "+"
  else if Text.text_eqb key (txt "BT") then txt "+"
  else if Text.text_eqb key (txt "TLC") then txt "+"
  else if Text.text_eqb key (txt "TRC") then txt "+"
  else if Text.text_eqb key (txt "BLC") then txt "+"
  else if Text.text_eqb key (txt "BRC") then txt "+"
  else if Text.text_eqb key (txt "LT") then txt "+"
  else if Text.text_eqb key (txt "RT") then txt "+"
  else [].

(** [m.group(1)]; the group of [_SMCL_CHAR_RE] takes part in every match. *)
Definition group1 (m : rmatch) : text :=
  match m_group m with Some g => g | None => [] end.

Definition _replace_char (m : rmatch) : text :=
  _SMCL_CHAR_MAP_get (Text.strip (group1 m)).

Definition strip_smcl (t : text) : text :=
  let t := sub _SMCL_CHAR_RE _replace_char t in
  let t := sub _SMCL_TAG_RE (fun _ => []) t in
  t.

End Smcl.

(** Supported markup input of [strip_smcl]: text in which no tag opens
    inside another one, that is, after a [{] the next brace, if there is
    one, is a [}]. *)
Module Markup.

Definition lb : ascii := "{".
Definition rb : ascii := "}".

Fixpoint flat_scan (inside : bool) (s : text) : bool :=
  match s with
  | [] => true
  | c :: s' =>
      if Ascii.eqb c lb then (if inside then false else flat_scan true s')
      else if Ascii.eqb c rb then flat_scan false s'
      else flat_scan inside s'
  end.

Definition supported (s : text) : bool := flat_scan false s.

Definition nobrace (b : text) : Prop := (lb ∉ b) /\ (rb ∉ b).

(** The same as [flat_scan], as a derivation; [P] holds of the body of
    every closed tag. *)
Inductive flat (P : text -> Prop) : text -> Prop :=
| flat_nil : flat P []
| flat_chr c s : c <> lb -> flat P s -> flat P (c :: s)
| flat_grp b s :
    nobrace b -> P b -> flat P s -> flat P (lb :: b ++ rb :: s)
| flat_open b : nobrace b -> flat P (lb :: b).

(** The pattern [e] does not match the tag with body [b], wherever the
    tag stands. *)
Definition unmatched (e : Re.regex) (b : text) : Prop :=
  forall l r, Re.match_at e l (lb :: b ++ rb :: r) = None.

Definition no_char_tag : text -> Prop := unmatched Smcl._SMCL_CHAR_RE.
Definition no_known_tag : text -> Prop := unmatched Smcl._SMCL_TAG_RE.

End Markup.

(* ===================================================================== *)
(** ** Error detection ([stata_session.py]) *)
(* ===================================================================== *)

Module Classify.
Import Re.

Definition newline : ascii := "010".

(** [.] without [re.DOTALL] *)
Definition dot : ascii -> bool := not_chr newline.

(** [_ERROR_CODE_RE], which is also [ERROR_PATTERNS[0]] *)
Definition _ERROR_CODE_RE : regex :=
  seqs [ chr "r"; chr "("; Grp (Plus Text.is_digit); chr ")" ].

Definition ERROR_PATTERNS : list regex :=
  [ _ERROR_CODE_RE;
    lit_i "no observations";
    seqs [ lit_i "variable"; Plus Text.is_space; Plus dot;
           Plus Text.is_space; lit_i "not found" ];
    lit_i "type mismatch";
    lit_i "conformability error";
    lit_i "op.sys refuses to";
    lit_i "could not find file";
    lit_i "no room to add more" ].

(** The loop over [lines] that collects the stripped non-blank lines met
    before the first line holding an error code. *)
Fixpoint error_msg_parts (lines : list text) : list text :=
  match lines with
  | [] => []
  | line :: lines' =>
      let stripped := Text.strip line in
      if found _ERROR_CODE_RE stripped then []
      else match stripped with
           | [] => error_msg_parts lines'
           | _ => stripped :: error_msg_parts lines'
           end
  end.

(** The loop over [ERROR_PATTERNS[1:]]; [pm.group(0)] of the first
    pattern found. *)
Fixpoint first_phrase (ps : list regex) (output : text) : option text :=
  match ps with
  | [] => None
  | p :: ps' =>
      match search p output with
      | Some (_, _, matched) => Some matched
      | None => first_phrase ps' output
      end
  end.

Definition _detect_error (output : text) : option text * option Z :=
  match search _ERROR_CODE_RE output with
  | Some (_, m, _) =>
      let code := Text.int_of_digits (Smcl.group1 m) in
      let parts := error_msg_parts (Text.splitlines output) in
      let error_msg :=
        match last parts with
        | Some p => p
        | None => txt "Stata error r(" ++ Text.str_of_int code ++ txt ")"
        end in
      (Some error_msg, Some code)
  | None =>
      match first_phrase (tail ERROR_PATTERNS) output with
      | Some matched => (Some matched, None)
      | None => (None, None)
      end
  end.

End Classify.

(* ===================================================================== *)
(** ** Exceptions and the file system as the code sees it *)
(* ===================================================================== *)

(** A [pathlib.Path], in its string form. *)
Abbreviation Path := (list ascii) (only parsing).

Module Pathlib.

Definition sep : ascii := "/".

(** [d / name] for a plain file name. *)
Definition joinpath (d : Path) (name : text) : Path :=
  if Text.text_eqb d (txt ".") then name
  else if Text.endswith d [sep] then d ++ name
  else d ++ sep :: name.

(** [path.name]: what follows the last separator. *)
Fixpoint name_go (cur : text) (p : text) : text :=
  match p with
  | [] => rev cur
  | c :: p' => if Ascii.eqb c sep then name_go [] p' else name_go (c :: cur) p'
  end.

Definition name (p : Path) : text := name_go [] p.

(** The index at which [path.suffix] starts: the last dot of the name,
    when it is neither the first nor the last character. *)
Definition suffix_index (n : text) : option nat :=
  match Text.rfind "." n with
  | Some i =>
      if (0 <? i)%nat && (i <? length n - 1)%nat then Some i else None
  | None => None
  end.

Definition suffix (p : Path) : text :=
  match suffix_index (name p) with
  | Some i => skipn i (name p)
  | None => []
  end.

Definition stem (p : Path) : text :=
  match suffix_index (name p) with
  | Some i => firstn i (name p)
  | None => name p
  end.

End Pathlib.

Inductive os_error : Type :=
| FileNotFoundError
| PermissionError
| IsADirectoryError
| OtherOSError.

Inductive exn : Type :=
| ValueError_unsupported_format (suffix : text) (path : Path)
| OSError (e : os_error)
| RuntimeError_pexpect_missing
| Pexpect_TIMEOUT
| Pexpect_EOF
| Pexpect_ExceptionPexpect
| Subprocess_TimeoutExpired
| AssertionError.

(** The outcome of a call that returns [A] or raises. *)
Inductive outcome (A : Type) : Type :=
| Return (a : A)
| Raise (e : exn).
Arguments Return {A} a.
Arguments Raise {A} e.

Abbreviation bytes := (list Byte.byte).

(** The double quote character. *)
Definition dquote : ascii := "034".

(* ===================================================================== *)
(** ** Graph cache ([graph_cache.py]) *)
(* ===================================================================== *)

Module Graph.
Import Re.

(** The keys of [_SUPPORTED_EXTENSIONS], in the order of the dict. *)
Definition _SUPPORTED_EXTENSIONS : list text :=
  [ txt ".png"; txt ".pdf"; txt ".svg"; txt ".gph" ].

Definition is_supported (suffix : text) : bool :=
  bool_decide (suffix ∈ _SUPPORTED_EXTENSIONS).

Record GraphArtifact : Type := {
  path : Path;
  format : text;
  base64 : text;
  width : option Z;
  height : option Z
}.

(** What the two reads of [encode_graph] yield for a path:
    [path.read_bytes()], and the [path.open("rb")] of [_png_dimensions]
    that follows it. *)
Record file_reads : Type := {
  read_bytes : os_error + bytes;
  open_rb : os_error + bytes
}.

(** [base64.b64encode(raw).decode("ascii")] *)
Definition b64_alphabet : text :=
  txt "ABCDEFGHIJKLMNOPQRSTUVWXYZabcdefghijklmnopqrstuvwxyz0123456789+/".

Definition b64_digit (n : N) : ascii :=
  nth (N.to_nat n) b64_alphabet "="%char.

Fixpoint b64encode (raw : bytes) : text :=
  match raw with
  | [] => []
  | [a] =>
      let n := (Byte.to_N a * 16)%N in
      [ b64_digit (n / 64); b64_digit (n mod 64); "="; "=" ]%char
  | [a; b] =>
      let n := ((Byte.to_N a * 256 + Byte.to_N b) * 4)%N in
      [ b64_digit (n / 4096); b64_digit ((n / 64) mod 64);
        b64_digit (n mod 64); "=" ]%char
  | a :: b :: c :: raw' =>
      let n := (Byte.to_N a * 65536 + Byte.to_N b * 256 + Byte.to_N c)%N in
      b64_digit (n / 262144) :: b64_digit ((n / 4096) mod 64)
      :: b64_digit ((n / 64) mod 64) :: b64_digit (n mod 64)
      :: b64encode raw'
  end.

(** The PNG magic [\x89PNG\r\n\x1a\n]. *)
Definition png_magic : bytes :=
  [ Byte.x89; Byte.x50; Byte.x4e; Byte.x47;
    Byte.x0d; Byte.x0a; Byte.x1a; Byte.x0a ].

Definition bytes_eqb (a b : bytes) : bool :=
  bool_decide (map Byte.to_N a = map Byte.to_N b).

(** One [I] field of [struct.unpack(">II", ...)]: 4 bytes, big-endian. *)
Definition be32 (bs : bytes) : Z :=
  fold_left (fun acc b => 256 * acc + Z.of_N (Byte.to_N b)) bs 0.

Definition _png_dimensions (opened : os_error + bytes)
    : option Z * option Z :=
  match opened with
  | inl _ => (None, None)
  | inr content =>
      let header := firstn 24 content in
      if (length header <? 24)%nat then (None, None)
      else if negb (bytes_eqb (firstn 8 header) png_magic)
           then (None, None)
      else (Some (be32 (firstn 4 (skipn 16 header))),
            Some (be32 (firstn 4 (skipn 20 header))))
  end.

(** [GraphCache.encode_graph] *)
Definition encode_graph (fs : Path -> file_reads) (p : Path)
    : outcome GraphArtifact :=
  let suffix := Text.lower (Pathlib.suffix p) in
  if negb (is_supported suffix) then
    Raise (ValueError_unsupported_format suffix p)
  else
    match read_bytes (fs p) with
    | inl e => Raise (OSError e)
    | inr raw =>
        let encoded := b64encode raw in
        let fmt := Text.lstrip_char "." suffix in
        let '(w, h) :=
          if Text.text_eqb suffix (txt ".png")
          then _png_dimensions (open_rb (fs p))
          else (None, None) in
        Return {| path := p; format := fmt; base64 := encoded;
                  width := w; height := h |}
    end.

(** A [dict] in insertion order. *)
Section Dict.
Context {V : Type}.

Fixpoint dict_set (k : Path) (v : V) (d : list (Path * V))
    : list (Path * V) :=
  match d with
  | [] => [(k, v)]
  | (k', v') :: d' =>
      if Text.text_eqb k k' then (k, v) :: d'
      else (k', v') :: dict_set k v d'
  end.

Fixpoint dict_get (k : Path) (d : list (Path * V)) : option V :=
  match d with
  | [] => None
  | (k', v') :: d' => if Text.text_eqb k k' then Some v' else dict_get k d'
  end.
End Dict.

(** An entry of the watched directory. [f_mtime] is [None] when
    [p.stat()] raises [OSError]. *)
Record file : Type := {
  f_is_file : bool;
  f_mtime : option Z;
  f_reads : file_reads
}.

(** The watched directory at one point in time: whether it is a
    directory, and its entries in the order the system lists them. *)
Record directory : Type := {
  d_is_dir : bool;
  d_entries : list (text * file)
}.

Record GraphCache : Type := {
  watch_dir : Path;
  _snapshot : list (Path * Z)
}.

(** [GraphCache(watch_dir)] *)
Definition new_cache (wd : Path) : GraphCache :=
  {| watch_dir := wd; _snapshot := [] |}.

(** [watch_dir.glob("*" + ext)] *)
Definition glob (d : directory) (ext : text) : list (text * file) :=
  filter (fun nf => Is_true (Text.endswith nf.1 ext)) (d_entries d).

(** The body of the inner loop of [_scan]. *)
Definition scan_entry (wd : Path) (results : list (Path * Z))
    (nf : text * file) : list (Path * Z) :=
  if f_is_file nf.2 then
    match f_mtime nf.2 with
    | Some mtime => dict_set (Pathlib.joinpath wd nf.1) mtime results
    | None => results
    end
  else results.

Definition _scan (c : GraphCache) (d : directory) : list (Path * Z) :=
  if negb (d_is_dir d) then []
  else
    fold_left
      (fun results ext => fold_left (scan_entry (watch_dir c)) (glob d ext) results)
      _SUPPORTED_EXTENSIONS [].

Definition take_snapshot (c : GraphCache) (d : directory) : GraphCache :=
  {| watch_dir := watch_dir c; _snapshot := _scan c d |}.

(** The reads of a path, as the watched directory serves them. *)
Definition dir_reads (wd : Path) (d : directory) (p : Path) : file_reads :=
  match
    find (fun nf => Text.text_eqb (Pathlib.joinpath wd nf.1) p) (d_entries d)
  with
  | Some nf => f_reads nf.2
  | None => {| read_bytes := inl FileNotFoundError;
               open_rb := inl FileNotFoundError |}
  end.

(** The body of the loop of [detect_changes]. *)
Definition detect_entry (c : GraphCache) (d : directory)
    (changed : list GraphArtifact) (pm : Path * Z) : list GraphArtifact :=
  let prev_mtime := dict_get pm.1 (_snapshot c) in
  let is_changed :=
    match prev_mtime with
    | None => true
    | Some prev => (pm.2 >? prev)
    end in
  if is_changed then
    match encode_graph (dir_reads (watch_dir c) d) pm.1 with
    | Return artifact => changed ++ [artifact]
    | Raise _ => changed
    end
  else changed.

Definition detect_changes (c : GraphCache) (d : directory)
    : list GraphArtifact * GraphCache :=
  let current := _scan c d in
  let changed := fold_left (detect_entry c d) current [] in
  (changed, {| watch_dir := watch_dir c; _snapshot := current |}).

(** [[ \t]] *)
Definition blank (c : ascii) : bool :=
  Ascii.eqb c " " || Ascii.eqb c "009".

Definition line_start : regex := Alt Bos (chr "010").

Definition quietly_prefix : regex :=
  Opt (seqs [ lit "qui"; Opt (lit "etly"); Plus blank ]).

(** [_GRAPH_CMD_RE] *)
Definition _GRAPH_CMD_RE : regex :=
  seqs
    [ line_start;
      Star blank;
      quietly_prefix;
      alts
        [ Seq (lit "graph") Wordb;
          seqs [ lit "tw"; Opt (lit "oway"); Wordb ];
          Seq (lit "scatter") Wordb;
          Seq (lit "line") Wordb;
          Seq (lit "histogram") Wordb;
          Seq (lit "hist") Wordb;
          Seq (lit "kdensity") Wordb;
          Seq (lit "qnorm") Wordb;
          Seq (lit "pnorm") Wordb;
          Seq (lit "rvfplot") Wordb;
          Seq (lit "avplot") Wordb;
          Seq (lit "lvr2plot") Wordb;
          Seq (lit "marginsplot") Wordb;
          Seq (lit "coefplot") Wordb ] ].

(** [_HAS_EXPORT_RE] *)
Definition _HAS_EXPORT_RE : regex :=
  seqs
    [ line_start;
      Star blank;
      quietly_prefix;
      lit "graph";
      Plus blank;
      lit "export";
      Wordb ].

(** The name of the exported file, from [int(time.time() * 1000)]. *)
Definition export_name (timestamp : Z) : text :=
  txt "stata_graph_" ++ Text.str_of_int timestamp ++ txt ".png".

Definition export_line (export_path : Path) : text :=
  "010"%char :: txt "quietly graph export " ++ dquote :: export_path
  ++ dquote :: txt ", width(2000) replace".

(** [maybe_inject_graph_export]; [timestamp] is the clock reading
    [int(time.time() * 1000)] of the call. *)
Definition maybe_inject_graph_export (code : text) (tmpdir : Path)
    (timestamp : Z) : text :=
  if found _HAS_EXPORT_RE code then code
  else if negb (found _GRAPH_CMD_RE code) then code
  else
    let export_path := Pathlib.joinpath tmpdir (export_name timestamp) in
    Text.rstrip code ++ export_line export_path.

End Graph.

(* ===================================================================== *)
(** ** Sessions ([stata_session.py]) *)
(* ===================================================================== *)

(** A handle on a spawned process. *)
Abbreviation proc := nat (only parsing).

(** What a session does to its process, in order. *)
Inductive proc_op : Type :=
| Op_spawn
| Op_sendline (p : proc) (line : text)
| Op_expect (p : proc)
| Op_terminate (p : proc).

(** One answer of the process to [expect([_PROMPT_PATTERN,
    _CONTINUATION_PATTERN], timeout)]: the index matched together with
    [process.before], or the exception raised. *)
Inductive expect_answer : Type :=
| Matched_prompt (before : option text)
| Matched_continuation (before : option text)
| Timed_out
| End_of_file.

(** [ExecutionResult]; [execution_time] is in clock ticks. *)
Record ExecutionResult : Type := {
  output : text;
  return_code : Z;
  error_message : option text;
  error_code : option Z;
  graphs : list Graph.GraphArtifact;
  execution_time : Z;
  log_path : option Path
}.

(** The property [ExecutionResult.success] *)
Definition success (r : ExecutionResult) : bool := return_code r =? 0.

(** [0 if error_code is None and error_message is None else 1] *)
Definition return_code_of (error_message : option text)
    (error_code : option Z) : Z :=
  match error_code, error_message with
  | None, None => 0
  | _, _ => 1
  end.

Definition _DEFAULT_TIMEOUT : Z := 120.
Definition _START_TIMEOUT : Z := 30.

Module Interactive.
Import Graph.

(** What the world answers during one call on an interactive session. *)
Record call_env : Type := {
  (** the module constant [HAS_PEXPECT] *)
  HAS_PEXPECT : bool;
  (** [process.isalive()]; [None] when it raises *)
  isalive : option bool;
  (** [self._tmpdir.exists()] *)
  tmpdir_exists : bool;
  (** the directory [_make_temp_dir()] creates *)
  mkdtemp : Path;
  (** [_spawn_process()] *)
  spawned : outcome proc;
  (** [int(time.time() * 1000)] *)
  clock_ms : Z;
  (** the scratch directory when the snapshot is taken *)
  dir_before : directory;
  (** [uuid.uuid4().hex[:12]] *)
  uuid_hex12 : text;
  (** [do_file.write_text(code)]; [Some e] when it raises *)
  write_text : option os_error;
  (** the answers of the process to the successive [expect] calls; once
      they run out the process stays silent *)
  answers : list expect_answer;
  (** the scratch directory when the changes are detected *)
  dir_after : directory;
  (** [time.monotonic() - start_time] *)
  elapsed : Z
}.

Record StataSession : Type := {
  installation : Path;
  session_id : text;
  _process : option proc;
  _log_buffer : list text;
  _tmpdir : Path;
  _graph_cache : GraphCache;
  _started : bool
}.

(** [StataSession(installation, session_id)]; [tmpdir] is the directory
    [_make_temp_dir()] returns. *)
Definition new_session (inst : Path) (sid : text) (tmpdir : Path)
    : StataSession :=
  {| installation := inst; session_id := sid; _process := None;
     _log_buffer := []; _tmpdir := tmpdir;
     _graph_cache := new_cache tmpdir; _started := false |}.

Definition set_process (s : StataSession) (p : option proc) (st : bool)
    : StataSession :=
  {| installation := installation s; session_id := session_id s;
     _process := p; _log_buffer := _log_buffer s; _tmpdir := _tmpdir s;
     _graph_cache := _graph_cache s; _started := st |}.

Definition set_tmpdir (s : StataSession) (d : Path) : StataSession :=
  {| installation := installation s; session_id := session_id s;
     _process := _process s; _log_buffer := _log_buffer s; _tmpdir := d;
     _graph_cache := new_cache d; _started := _started s |}.

Definition set_graph_cache (s : StataSession) (c : GraphCache)
    : StataSession :=
  {| installation := installation s; session_id := session_id s;
     _process := _process s; _log_buffer := _log_buffer s;
     _tmpdir := _tmpdir s; _graph_cache := c; _started := _started s |}.

Definition append_log (s : StataSession) (t : text) : StataSession :=
  {| installation := installation s; session_id := session_id s;
     _process := _process s; _log_buffer := _log_buffer s ++ [t];
     _tmpdir := _tmpdir s; _graph_cache := _graph_cache s;
     _started := _started s |}.

(** A step of a method: what it returns or raises, the session after
    it, and what it did to the process. *)
Definition step (A : Type) : Type :=
  (outcome A * StataSession * list proc_op)%type.

(** The property [is_alive] *)
Definition is_alive (e : call_env) (s : StataSession) : bool :=
  match _process s with
  | None => false
  | Some _ =>
      match isalive e with
      | Some b => b
      | None => false
      end
  end.

Definition spawn (e : call_env) (s : StataSession) : step unit :=
  match spawned e with
  | Return p => (Return (), set_process s (Some p) true, [Op_spawn])
  | Raise x => (Raise x, s, [Op_spawn])
  end.

Definition start (e : call_env) (s : StataSession) : step unit :=
  if negb (HAS_PEXPECT e) then (Raise RuntimeError_pexpect_missing, s, [])
  else
    match _process s, isalive e with
    | Some _, Some true => (Return (), s, [])
    | Some _, None => (Raise Pexpect_ExceptionPexpect, s, [])
    | _, _ => spawn e s
    end.

Definition _ensure_alive (e : call_env) (s : StataSession) : step unit :=
  if negb (is_alive e s) then
    let s :=
      if negb (tmpdir_exists e) then set_tmpdir s (mkdtemp e) else s in
    start e s
  else (Return (), s, []).

Definition or_empty (before : option text) : text :=
  match before with Some t => t | None => [] end.

(** The [while True] loop of [_run_do_file]. *)
Fixpoint expect_loop (p : proc) (ans : list expect_answer)
    (output_parts : list text) : outcome text * list proc_op :=
  match ans with
  | [] => (Raise Pexpect_TIMEOUT, [Op_expect p])
  | Timed_out :: _ => (Raise Pexpect_TIMEOUT, [Op_expect p])
  | End_of_file :: _ => (Raise Pexpect_EOF, [Op_expect p])
  | Matched_prompt before :: _ =>
      (Return (concat (output_parts ++ [or_empty before])), [Op_expect p])
  | Matched_continuation before :: ans' =>
      let '(r, ops) :=
        expect_loop p ans' (output_parts ++ [or_empty before]) in
      (r, Op_expect p :: ops)
  end.

Definition _run_do_file (e : call_env) (p : proc) (do_file : Path)
    : outcome text * list proc_op :=
  let cmd := txt "do " ++ dquote :: do_file ++ [dquote] in
  let '(r, ops) := expect_loop p (answers e) [] in
  (r, Op_sendline p cmd :: ops).

(** The [for] loop of [_clean_do_output]. *)
Fixpoint clean_lines (do_file : Path) (skip_do_echo : bool)
    (lines : list text) : list text :=
  match lines with
  | [] => []
  | line :: lines' =>
      let stripped := Text.strip line in
      if skip_do_echo
         && (Text.startswith stripped (txt "do " ++ dquote :: do_file)
             || Text.startswith stripped (txt "do ")
             || Text.text_eqb stripped [])
      then
        clean_lines do_file
          (if Text.startswith stripped (txt "do ") then false
           else skip_do_echo)
          lines'
      else if Text.text_eqb stripped (txt "end of do-file") then
        clean_lines do_file skip_do_echo lines'
      else if Text.startswith stripped (txt "> ")
              && Text.contains stripped (Pathlib.stem do_file) then
        clean_lines do_file skip_do_echo lines'
      else if Text.startswith stripped (txt ". ") then
        clean_lines do_file skip_do_echo lines'
      else line :: clean_lines do_file skip_do_echo lines'
  end.

(** The [while] loop of [_clean_do_output] that pops trailing [.]
    lines. *)
Fixpoint pop_dots (cleaned : list text) : list text :=
  match cleaned with
  | [] => []
  | line :: cleaned' =>
      match pop_dots cleaned' with
      | [] => if Text.text_eqb (Text.strip line) (txt ".") then []
              else [line]
      | t => line :: t
      end
  end.

Definition _clean_do_output (out : text) (do_file : Path) : text :=
  let cleaned := clean_lines do_file true (Text.splitlines out) in
  Text.strip (Text.join ["010"%char] (pop_dots cleaned)).

Definition timeout_result (e : call_env) (timeout : Z)
    : ExecutionResult :=
  {| output := [];
     return_code := 1;
     error_message :=
       Some (txt "Command timed out after " ++ Text.str_of_int timeout
             ++ txt "s");
     error_code := None;
     graphs := [];
     execution_time := elapsed e;
     log_path := None |}.

Definition eof_result (e : call_env) : ExecutionResult :=
  {| output := [];
     return_code := 1;
     error_message := Some (txt "Stata process terminated unexpectedly");
     error_code := None;
     graphs := [];
     execution_time := elapsed e;
     log_path := None |}.

(** [StataSession.execute].  The scratch command file is not part of
    the model beyond its name, so its [unlink] in the [finally] clause
    leaves no trace here. *)
Definition execute (e : call_env) (s : StataSession) (code : text)
    (timeout : Z) : step ExecutionResult :=
  match _ensure_alive e s with
  | (Raise x, s, ops0) => (Raise x, s, ops0)
  | (Return _, s, ops0) =>
      match _process s with
      | None => (Raise AssertionError, s, ops0)
      | Some p =>
          let code :=
            maybe_inject_graph_export code (_tmpdir s) (clock_ms e) in
          let s :=
            set_graph_cache s
              (take_snapshot (_graph_cache s) (dir_before e)) in
          let do_file :=
            Pathlib.joinpath (_tmpdir s)
              (txt "_cmd_" ++ uuid_hex12 e ++ txt ".do") in
          match write_text e with
          | Some err => (Raise (OSError err), s, ops0)
          | None =>
              match _run_do_file e p do_file with
              | (Raise Pexpect_TIMEOUT, ops) =>
                  (Return (timeout_result e timeout), s, ops0 ++ ops)
              | (Raise Pexpect_EOF, ops) =>
                  (Return (eof_result e), set_process s None false,
                   ops0 ++ ops)
              | (Raise x, ops) => (Raise x, s, ops0 ++ ops)
              | (Return raw_output, ops) =>
                  let cleaned := Smcl.strip_smcl raw_output in
                  let cleaned := _clean_do_output cleaned do_file in
                  let '(error_message, error_code) :=
                    Classify._detect_error cleaned in
                  let return_code :=
                    return_code_of error_message error_code in
                  let '(graphs, cache) :=
                    detect_changes (_graph_cache s) (dir_after e) in
                  let s := append_log (set_graph_cache s cache) cleaned in
                  (Return {| output := cleaned;
                             return_code := return_code;
                             error_message := error_message;
                             error_code := error_code;
                             graphs := graphs;
                             execution_time := elapsed e;
                             log_path := None |},
                   s, ops0 ++ ops)
              end
          end
      end
  end.

(** [StataSession.close]; [alive_after_exit] is the second
    [isalive()], after the exit command.  The removal of the scratch
    directory is outside the model. *)
Definition close (e : call_env) (alive_after_exit : option bool)
    (s : StataSession) : StataSession * list proc_op :=
  match _process s with
  | None => (s, [])
  | Some p =>
      let ops :=
        match isalive e with
        | Some true =>
            [Op_sendline p (txt "exit, clear"); Op_expect p]
            ++ match alive_after_exit with
               | Some true => [Op_terminate p]
               | _ => []
               end
        | _ => []
        end in
      (set_process s None false, ops)
  end.

Definition get_log (s : StataSession) : text :=
  Text.join ["010"%char] (_log_buffer s).

End Interactive.

Module Batch.
Import Graph.

(** [subprocess.run(..., capture_output=True, check=False)] *)
Inductive run_result : Type :=
| CompletedProcess (returncode : Z) (stdout stderr : bytes)
| TimeoutExpired
| Run_OSError (e : os_error).

(** The log file after the run: absent, or what [read_text] yields. *)
Inductive log_state : Type :=
| Log_missing
| Log_text (t : text)
| Log_unreadable (e : os_error).

(** What the world answers during one call on a batch session. *)
Record call_env : Type := {
  clock_ms : Z;
  dir_before : directory;
  uuid_hex12 : text;
  write_text : option os_error;
  run : run_result;
  log_file_state : log_state;
  dir_after : directory;
  elapsed : Z
}.

Record BatchSession : Type := {
  installation : Path;
  session_id : text;
  _tmpdir : Path;
  _graph_cache : GraphCache;
  _log_buffer : list text;
  _started : bool
}.

(** [BatchSession(installation, session_id)] *)
Definition new_session (inst : Path) (sid : text) (tmpdir : Path)
    : BatchSession :=
  {| installation := inst; session_id := sid; _tmpdir := tmpdir;
     _graph_cache := new_cache tmpdir; _log_buffer := [];
     _started := false |}.

Definition set_started (s : BatchSession) (b : bool) : BatchSession :=
  {| installation := installation s; session_id := session_id s;
     _tmpdir := _tmpdir s; _graph_cache := _graph_cache s;
     _log_buffer := _log_buffer s; _started := b |}.

Definition set_graph_cache (s : BatchSession) (c : GraphCache)
    : BatchSession :=
  {| installation := installation s; session_id := session_id s;
     _tmpdir := _tmpdir s; _graph_cache := c;
     _log_buffer := _log_buffer s; _started := _started s |}.

Definition append_log (s : BatchSession) (t : text) : BatchSession :=
  {| installation := installation s; session_id := session_id s;
     _tmpdir := _tmpdir s; _graph_cache := _graph_cache s;
     _log_buffer := _log_buffer s ++ [t]; _started := _started s |}.

Definition start (s : BatchSession) : BatchSession := set_started s true.

Definition close (s : BatchSession) : BatchSession := set_started s false.

Definition is_alive (s : BatchSession) : bool := _started s.

Definition log_exists (e : call_env) : bool :=
  match log_file_state e with
  | Log_missing => false
  | _ => true
  end.

(** [_run_batch]: the captured streams of the completed process are
    not read. *)
Definition _run_batch (e : call_env) : outcome text :=
  match run e with
  | TimeoutExpired => Raise Subprocess_TimeoutExpired
  | Run_OSError err => Raise (OSError err)
  | CompletedProcess _ _ _ =>
      match log_file_state e with
      | Log_text t => Return t
      | Log_unreadable err => Raise (OSError err)
      | Log_missing => Return []
      end
  end.

Definition timeout_result (e : call_env) (timeout : Z) (log_file : Path)
    : ExecutionResult :=
  {| output := [];
     return_code := 1;
     error_message :=
       Some (txt "Batch command timed out after "
             ++ Text.str_of_int timeout ++ txt "s");
     error_code := None;
     graphs := [];
     execution_time := elapsed e;
     log_path := if log_exists e then Some log_file else None |}.

(** [BatchSession.execute] *)
Definition execute (e : call_env) (s : BatchSession) (code : text)
    (timeout : Z) : outcome ExecutionResult * BatchSession :=
  let s := if negb (_started s) then start s else s in
  let code := maybe_inject_graph_export code (_tmpdir s) (clock_ms e) in
  let s :=
    set_graph_cache s (take_snapshot (_graph_cache s) (dir_before e)) in
  let do_name := txt "_batch_" ++ uuid_hex12 e in
  let log_file := Pathlib.joinpath (_tmpdir s) (do_name ++ txt ".log") in
  match write_text e with
  | Some err => (Raise (OSError err), s)
  | None =>
      match _run_batch e with
      | Raise Subprocess_TimeoutExpired =>
          (Return (timeout_result e timeout log_file), s)
      | Raise x => (Raise x, s)
      | Return raw_output =>
          let cleaned := Smcl.strip_smcl raw_output in
          let '(error_message, error_code) :=
            Classify._detect_error cleaned in
          let return_code := return_code_of error_message error_code in
          let '(graphs, cache) :=
            detect_changes (_graph_cache s) (dir_after e) in
          let s := append_log (set_graph_cache s cache) cleaned in
          (Return {| output := cleaned;
                     return_code := return_code;
                     error_message := error_message;
                     error_code := error_code;
                     graphs := graphs;
                     execution_time := elapsed e;
                     log_path :=
                       if log_exists e then Some log_file else None |},
           s)
      end
  end.

Definition get_log (s : BatchSession) : text :=
  Text.join ["010"%char] (_log_buffer s).

End Batch.

Module Manager.

(** A session object: the registry holds either kind. *)
Inductive session : Type :=
| Interactive_session (s : Interactive.StataSession)
| Batch_session (b : Batch.BatchSession).

(** Session objects live in a store and are referred to by address, so
    that the object the registry holds and the object a caller holds
    are told apart. *)
Abbreviation address := nat (only parsing).

Abbreviation store := (gmap nat session) (only parsing).

Record SessionManager : Type := {
  _sessions : gmap text nat;
  installation : Path;
  _use_batch : bool
}.

Definition set_sessions (m : SessionManager) (d : gmap text nat)
    : SessionManager :=
  {| _sessions := d; installation := installation m;
     _use_batch := _use_batch m |}.

(** [session.is_alive] *)
Definition is_alive (e : Interactive.call_env) (o : session) : bool :=
  match o with
  | Interactive_session s => Interactive.is_alive e s
  | Batch_session b => Batch.is_alive b
  end.

Definition get_log (o : session) : text :=
  match o with
  | Interactive_session s => Interactive.get_log s
  | Batch_session b => Batch.get_log b
  end.

(** The part of [get_or_create] that builds, starts and registers a
    new session object. *)
Definition create (e : Interactive.call_env) (m : SessionManager)
    (h : store) (session_id : text)
    : outcome address * SessionManager * store :=
  let a := fresh (dom h) in
  if _use_batch m then
    let b :=
      Batch.new_session (installation m) session_id (Interactive.mkdtemp e) in
    let h := <[a := Batch_session (Batch.start b)]> h in
    (Return a, set_sessions m (<[session_id := a]> (_sessions m)), h)
  else
    let s :=
      Interactive.new_session (installation m) session_id
        (Interactive.mkdtemp e) in
    match Interactive.start e s with
    | (Return _, s, _) =>
        let h := <[a := Interactive_session s]> h in
        (Return a, set_sessions m (<[session_id := a]> (_sessions m)), h)
    | (Raise x, s, _) =>
        (Raise x, m, <[a := Interactive_session s]> h)
    end.

(** [SessionManager.get_or_create].  An address the store does not
    hold is treated like a dead session; the registry never holds
    one. *)
Definition get_or_create (e : Interactive.call_env) (m : SessionManager)
    (h : store) (session_id : text)
    : outcome address * SessionManager * store :=
  match _sessions m !! session_id with
  | Some a =>
      let alive :=
        match h !! a with
        | Some o => is_alive e o
        | None => false
        end in
      if negb alive then
        create e (set_sessions m (delete session_id (_sessions m))) h
          session_id
      else (Return a, m, h)
  | None => create e m h session_id
  end.

End Manager.

(* ===================================================================== *)
(** ** Vocabulary of the statements and of the proofs, and worked inputs *)
(* ===================================================================== *)

(** The language of a pattern, for the proofs about the matcher. *)
Module ReLang.
Import Re.

(** The words of a pattern, assertions read as the empty word. *)
Fixpoint lang (e : regex) (w : text) : Prop :=
  match e with
  | Eps => w = []
  | Cls p => exists c, w = [c] /\ p c = true
  | Seq a b => exists u v, w = u ++ v /\ lang a u /\ lang b v
  | Alt a b => lang a w \/ lang b w
  | Opt a => lang a w \/ w = []
  | Star p => forallb p w = true
  | Plus p => w <> [] /\ forallb p w = true
  | Grp a => lang a w
  | Bos => w = []
  | Wordb => w = []
  end.

(** Patterns without assertions. *)
Fixpoint pure (e : regex) : bool :=
  match e with
  | Eps | Cls _ | Star _ | Plus _ => true
  | Seq a b | Alt a b => pure a && pure b
  | Opt a | Grp a => pure a
  | Bos | Wordb => false
  end.

(** No word of the pattern contains [x]. *)
Fixpoint avoids (x : ascii) (e : regex) : bool :=
  match e with
  | Eps | Bos | Wordb => true
  | Cls p | Star p | Plus p => negb (p x)
  | Seq a b | Alt a b => avoids x a && avoids x b
  | Opt a | Grp a => avoids x a
  end.

End ReLang.

(** Spec-side vocabulary for the classifier. *)
Module ClassifySpec.








End ClassifySpec.

(** The scan of the watched directory as the list of its updates, for
    the proofs about the cache. *)
Module ScanSpec.
Import Graph.

Section Updates.
Context {V : Type}.

(** The value the updates [l] leave for [k], starting from [r]. *)
Definition upd_get (k : Path) (l : list (Path * V)) (r : option V)
    : option V :=
  fold_left
    (fun r kv => if Text.text_eqb k kv.1 then Some kv.2 else r) l r.

(** The dict after the updates [l]. *)
Definition dict_of (l : list (Path * V)) (d : list (Path * V))
    : list (Path * V) :=
  fold_left (fun d kv => dict_set kv.1 kv.2 d) l d.
End Updates.

(** The update one directory entry contributes to the scan. *)
Definition entry_update (wd : Path) (nf : text * file) : list (Path * Z) :=
  if f_is_file nf.2 then
    match f_mtime nf.2 with
    | Some m => [(Pathlib.joinpath wd nf.1, m)]
    | None => []
    end
  else [].

Definition ext_updates (wd : Path) (d : directory) (ext : text)
    : list (Path * Z) :=
  flat_map (entry_update wd) (glob d ext).

(** All the updates of a scan, in the order they are made. *)
Definition updates (wd : Path) (d : directory) : list (Path * Z) :=
  flat_map (ext_updates wd d) _SUPPORTED_EXTENSIONS.

(** The artifact [encode_graph] builds for the file [f] named [n] in the
    directory [wd], once [raw] is read from it. *)
Definition new_artifact (wd : Path) (n : text) (f : file) (raw : bytes)
    : GraphArtifact :=
  {| path := Pathlib.joinpath wd n;
     format := Text.lstrip_char "." (Pathlib.suffix n);
     base64 := b64encode raw;
     width := (if Text.text_eqb (Pathlib.suffix n) (txt ".png")
               then _png_dimensions (open_rb (f_reads f))
               else (None, None)).1;
     height := (if Text.text_eqb (Pathlib.suffix n) (txt ".png")
                then _png_dimensions (open_rb (f_reads f))
                else (None, None)).2 |}.

End ScanSpec.

(** The read-until-prompt runs into the timeout: after any number of
    continuation prompts the process stays silent past the timeout. *)
Fixpoint times_out (ans : list expect_answer) : bool :=
  match ans with
  | [] => true
  | Timed_out :: _ => true
  | Matched_continuation _ :: ans' => times_out ans'
  | _ => false
  end.

(** A process operation that neither starts nor kills a process. *)
Definition is_io (o : proc_op) : Prop :=
  match o with
  | Op_sendline _ _ | Op_expect _ => True
  | Op_spawn | Op_terminate _ => False
  end.

(** Sample sessions and answers of the world, for the worked cases. *)
Module Samples.

Definition crlf : text := ["013"; "010"]%char.

Definition scratch : Path := txt "/tmp/stata_session_ab12".

Definition empty_dir : Graph.directory :=
  {| Graph.d_is_dir := true; Graph.d_entries := [] |}.

(** A live interactive session that has run one command. *)
Definition live : Interactive.StataSession :=
  {| Interactive.installation := txt "/usr/local/bin/stata";
     Interactive.session_id := txt "default";
     Interactive._process := Some 7%nat;
     Interactive._log_buffer := [txt "2"];
     Interactive._tmpdir := scratch;
     Interactive._graph_cache := Graph.new_cache scratch;
     Interactive._started := true |}.

(** The process answers [display 1+1] and returns to its prompt. *)
Definition answers_display : list expect_answer :=
  [ Matched_prompt
      (Some (txt "do " ++ dquote :: scratch ++ txt "/_cmd_0123456789ab.do"
             ++ dquote :: crlf ++ crlf ++ txt ". display 1+1" ++ crlf
             ++ txt "2" ++ crlf ++ crlf ++ txt ". " ++ crlf
             ++ txt "end of do-file" ++ crlf)) ].

Definition env (alive : bool) (ans : list expect_answer)
    : Interactive.call_env :=
  {| Interactive.HAS_PEXPECT := true;
     Interactive.isalive := Some alive;
     Interactive.tmpdir_exists := true;
     Interactive.mkdtemp := txt "/tmp/stata_session_cd34";
     Interactive.spawned := Return 8%nat;
     Interactive.clock_ms := 1700000000000;
     Interactive.dir_before := empty_dir;
     Interactive.uuid_hex12 := txt "0123456789ab";
     Interactive.write_text := None;
     Interactive.answers := ans;
     Interactive.dir_after := empty_dir;
     Interactive.elapsed := 3 |}.

(** A batch session, and a run that leaves no log file although the
    process wrote to its standard streams. *)
Definition batch : Batch.BatchSession :=
  Batch.start
    (Batch.new_session (txt "/usr/local/bin/stata") (txt "default") scratch).

Definition env_no_log : Batch.call_env :=
  {| Batch.clock_ms := 1700000000000;
     Batch.dir_before := empty_dir;
     Batch.uuid_hex12 := txt "0123456789ab";
     Batch.write_text := None;
     Batch.run :=
       Batch.CompletedProcess 1
         (String.list_byte_of_string "unrecognized command r(199);") [];
     Batch.log_file_state := Batch.Log_missing;
     Batch.dir_after := empty_dir;
     Batch.elapsed := 3 |}.

(** A registry that holds the session [live] under the id [default]. *)
Definition registry : Manager.SessionManager :=
  {| Manager._sessions := {[ txt "default" := 0%nat ]};
     Manager.installation := txt "/usr/local/bin/stata";
     Manager._use_batch := false |}.

Definition objects : gmap nat Manager.session :=
  {[ 0%nat := Manager.Interactive_session live ]}.

(** The first 24 bytes of a PNG of 2000 by 1455 pixels. *)
Definition png_bytes : bytes :=
  Graph.png_magic
  ++ [ Byte.x00; Byte.x00; Byte.x00; Byte.x0d;
       Byte.x49; Byte.x48; Byte.x44; Byte.x52;
       Byte.x00; Byte.x00; Byte.x07; Byte.xd0;
       Byte.x00; Byte.x00; Byte.x05; Byte.xaf ].

Definition new_png : Graph.file :=
  {| Graph.f_is_file := true;
     Graph.f_mtime := Some 200;
     Graph.f_reads := {| Graph.read_bytes := inr png_bytes;
                         Graph.open_rb := inr png_bytes |} |}.

Definition old_pdf : Graph.file :=
  {| Graph.f_is_file := true;
     Graph.f_mtime := Some 100;
     Graph.f_reads := {| Graph.read_bytes := inr [];
                         Graph.open_rb := inr [] |} |}.

End Samples.

(* ===================================================================== *)
(** ** Further vocabulary, and the rest of the registry and its callers *)
(* ===================================================================== *)

(** The pattern has the empty word, assertions read as the empty word. *)
Fixpoint nullable (e : Re.regex) : bool :=
  match e with
  | Re.Eps | Re.Opt _ | Re.Star _ | Re.Bos | Re.Wordb => true
  | Re.Cls _ | Re.Plus _ => false
  | Re.Seq a b => nullable a && nullable b
  | Re.Alt a b => nullable a || nullable b
  | Re.Grp a => nullable a
  end.

(** The read-until-prompt meets the end of the stream: after any number
    of continuation prompts the process is gone. *)
Fixpoint ends_in_eof (ans : list expect_answer) : bool :=
  match ans with
  | End_of_file :: _ => true
  | Matched_continuation _ :: ans' => ends_in_eof ans'
  | _ => false
  end.

(** The operations of one [execute] on the process [p]: one line sent,
    then one or more reads. *)
Definition is_submission (p : nat) (ops : list proc_op) : Prop :=
  exists line reads,
    ops = Op_sendline p line :: reads /\
    reads <> [] /\ Forall (fun o => o = Op_expect p) reads.

(** The rest of [SessionManager]: closing sessions. *)
Module Closing.
Import Manager.

(** [session.close()] *)
Definition close (e : Interactive.call_env) (alive_after_exit : option bool)
    (o : session) : session * list proc_op :=
  match o with
  | Interactive_session s =>
      let '(s', ops) := Interactive.close e alive_after_exit s in
      (Interactive_session s', ops)
  | Batch_session b => (Batch_session (Batch.close b), [])
  end.

(** [SessionManager.close_session]: the id is popped from the registry
    and the object it named, if any, is closed. *)
Definition close_session (e : Interactive.call_env)
    (alive_after_exit : option bool) (m : SessionManager)
    (h : gmap nat session) (session_id : text)
    : SessionManager * gmap nat session * list proc_op :=
  match _sessions m !! session_id with
  | Some a =>
      let m := set_sessions m (delete session_id (_sessions m)) in
      match h !! a with
      | Some o =>
          let '(o', ops) := close e alive_after_exit o in
          (m, <[a := o']> h, ops)
      | None => (m, h, [])
      end
  | None => (m, h, [])
  end.

(** One turn of the loop of [close_all]. *)
Definition close_step (world : text -> Interactive.call_env * option bool)
    (st : SessionManager * gmap nat session * list proc_op) (sid : text)
    : SessionManager * gmap nat session * list proc_op :=
  let '(m, h, ops) := st in
  let '(m', h', ops') :=
    close_session (world sid).1 (world sid).2 m h sid in
  (m', h', ops ++ ops').

(** [SessionManager.close_all]; [world sid] is what the world answers
    while the session [sid] is closed.  The registry is kept without the
    order of its insertions: the ids are taken in the order of
    [map_to_list]. *)
Definition close_all
    (world : text -> Interactive.call_env * option bool)
    (m : SessionManager) (h : gmap nat session)
    : SessionManager * gmap nat session * list proc_op :=
  let session_ids := map fst (map_to_list (_sessions m)) in
  fold_left (close_step world) session_ids (m, h, []).

End Closing.

(** The registry and the store agree: every registered address holds an
    object, and two ids never share one. *)
Definition registry_ok (m : Manager.SessionManager)
    (h : gmap nat Manager.session) : Prop :=
  (forall sid a, Manager._sessions m !! sid = Some a -> is_Some (h !! a)) /\
  (forall sid sid' a,
     Manager._sessions m !! sid = Some a ->
     Manager._sessions m !! sid' = Some a -> sid = sid').

(** A session object that is not alive, whatever the world answers. *)
Definition closed (o : Manager.session) : Prop :=
  forall e, Manager.is_alive e o = false.

(* ===================================================================== *)
(** ** The tool handlers ([tools/run_command.py], [tools/run_do_file.py]) *)
(* ===================================================================== *)

Module Tools.

(** The content blocks of a tool answer. *)
Inductive content : Type :=
| TextContent (text : text)
| ImageContent (data : text) (mimeType : text).

(** [f"\n\n--- Stata Error ---\n"] *)
Definition error_banner : text :=
  ["010"; "010"]%char ++ txt "--- Stata Error ---" ++ ["010"%char].

(** The text block of [handle]: the output, followed by the failure
    message and its code when the message is truthy. *)
Definition output_text (result : ExecutionResult) : text :=
  let output_text := output result in
  match error_message result with
  | Some (c :: msg) =>
      let output_text := output_text ++ error_banner ++ c :: msg in
      match error_code result with
      | Some code =>
          output_text ++ txt " [r(" ++ Text.str_of_int code ++ txt ")]"
      | None => output_text
      end
  | _ => output_text
  end.

Definition mime (graph : Graph.GraphArtifact) : text :=
  if negb (Text.text_eqb (Graph.format graph) (txt "pdf"))
  then txt "image/" ++ Graph.format graph
  else txt "application/pdf".

(** The content blocks [run_command.handle] and [run_do_file.handle]
    build from the result of [execute]. *)
Definition result_contents (result : ExecutionResult) : list content :=
  let output_text := output_text result in
  let contents :=
    match Text.strip output_text with
    | [] => []
    | t => [TextContent t]
    end in
  let contents :=
    contents
    ++ map (fun graph => ImageContent (Graph.base64 graph) (mime graph))
         (graphs result) in
  match contents with
  | [] => [TextContent (txt "(no output)")]
  | _ => contents
  end.

Definition is_image (c : content) : bool :=
  match c with ImageContent _ _ => true | TextContent _ => false end.

End Tools.

(* ===================================================================== *)
(** ** The display of the log search ([tools/search_log.py]) *)
(* ===================================================================== *)

Module SearchLog.

(** [f"{n:>5}"] *)
Definition rjust5 (s : text) : text :=
  List.repeat " "%char (5 - length s) ++ s.

(** [f"{marker} {i + 1:>5}: {lines[i]}"] *)
Definition display_line (lines : list text) (marked : bool) (i : Z) : text :=
  (if marked then txt ">>>" else txt "   ")
  ++ " "%char :: rjust5 (Text.str_of_int (i + 1))
  ++ txt ": " ++ nth (Z.to_nat i) lines [].

(** The indices of the lines the pattern is found in; [search line] is
    [pattern.search(line)] as a truth value. *)
Fixpoint match_indices_from (search : text -> bool) (i : Z)
    (lines : list text) : list Z :=
  match lines with
  | [] => []
  | line :: lines' =>
      if search line then i :: match_indices_from search (i + 1) lines'
      else match_indices_from search (i + 1) lines'
  end.

Definition match_indices (search : text -> bool) (lines : list text)
    : list Z :=
  match_indices_from search 0 lines.

(** [max(shown)] *)
Definition max_of (shown : list Z) : Z :=
  match shown with
  | [] => 0
  | x :: l => fold_left Z.max l x
  end.

(** The body of the inner loop: the line [i] is displayed unless it was
    shown before. *)
Definition show_line (lines : list text) (idx : Z)
    (st : list text * list Z) (i : Z) : list text * list Z :=
  let '(output_parts, shown) := st in
  if bool_decide (i ∈ shown) then st
  else (output_parts ++ [display_line lines (i =? idx) i], shown ++ [i]).

(** The body of the outer loop, for the match at [idx]. *)
Definition show_match (lines : list text) (context_lines : Z)
    (st : list text * list Z) (idx : Z) : list text * list Z :=
  let '(output_parts, shown) := st in
  let start := Z.max 0 (idx - context_lines) in
  let end_ := Z.min (Z.of_nat (length lines) - 1) (idx + context_lines) in
  let output_parts :=
    if negb (bool_decide (shown = [])) && (start >? max_of shown + 1)
    then output_parts ++ [txt "---"]
    else output_parts in
  fold_left (show_line lines idx) (seqZ start (end_ + 1 - start))
    (output_parts, shown).

Definition output_parts (search : text -> bool) (lines : list text)
    (context_lines : Z) : list text :=
  (fold_left (show_match lines context_lines) (match_indices search lines)
     ([], [])).1.

(** The answer of [handle] once the log is split into lines and the
    pattern is compiled. *)
Definition answer (search : text -> bool) (lines : list text)
    (context_lines : Z) (query : text) : text :=
  let match_indices := match_indices search lines in
  match match_indices with
  | [] => txt "No matches found for: " ++ query
  | _ =>
      let header :=
        txt "Found " ++ Text.str_of_int (Z.of_nat (length match_indices))
        ++ txt " match(es) for: " ++ query ++ ["010"%char] in
      header ++ Text.join ["010"%char] (output_parts search lines context_lines)
  end.

(** The displayed parts, read back: a separator, or a line with its
    marker. *)
Inductive part : Type :=
| Sep
| Entry (marked : bool) (i : Z).

Definition render (lines : list text) (p : part) : text :=
  match p with
  | Sep => txt "---"
  | Entry marked i => display_line lines marked i
  end.

(** The indices of the lines of a display, in its order. *)
Definition entries (ps : list part) : list Z :=
  flat_map (fun p => match p with Sep => [] | Entry _ i => [i] end) ps.

(** Strictly ascending. *)
Fixpoint ascending (l : list Z) : Prop :=
  match l with
  | [] => True
  | x :: l' => (forall y, y ∈ l' -> x < y) /\ ascending l'
  end.

(** The window of the match [k]: the lines displayed around it. *)
Definition in_window (lines : list text) (ctx : Z) (k i : Z) : Prop :=
  Z.max 0 (k - ctx) <= i
  <= Z.min (Z.of_nat (length lines) - 1) (k + ctx).

(** The greatest line shown once the matches [done] are displayed. *)
Definition reach (lines : list text) (ctx : Z) (done : list Z) : Z :=
  match last done with
  | None => -1
  | Some k => Z.min (Z.of_nat (length lines) - 1) (k + ctx)
  end.

(** The state of the display loop once the matches [done] are
    displayed. *)
Definition displayed (lines : list text) (ctx : Z) (done : list Z)
    (st : list text * list Z) : Prop :=
  exists ps,
    st.1 = map (render lines) ps /\
    st.2 = entries ps /\
    ascending st.2 /\
    (forall i, i ∈ st.2 <-> exists k, k ∈ done /\ in_window lines ctx k i) /\
    (forall i, Entry true i ∈ ps <->
       i ∈ done /\ forall k, k ∈ done -> k < i -> k + ctx < i).

End SearchLog.

(* ===================================================================== *)
(** * Theory *)
(* ===================================================================== *)

Module ReFacts.
Import Re ReLang.

Lemma orelse_some {A} (x y : option A) (v : A) :
  orelse x y = Some v -> x = Some v \/ (x = None /\ y = Some v).
Proof. destruct x; simpl; intros H; [left | right]; auto. Qed.

Lemma orelse_not_none_r {A} (x y : option A) :
  y <> None -> orelse x y <> None.
Proof. destruct x; simpl; auto; discriminate. Qed.

Lemma orelse_not_none_l {A} (x y : option A) :
  x <> None -> orelse x y <> None.
Proof. destruct x; simpl; auto; discriminate. Qed.

Lemma star_go_sound {A} p r : forall l g (k : cont A) x,
  star_go p l r g k = Some x ->
  exists u v, r = u ++ v /\ forallb p u = true /\
              k (rev u ++ l, v) g = Some x.
Proof.
  induction r as [|c r IH]; intros l g k x H; simpl in H.
  - exists [], []. auto.
  - destruct (p c) eqn:Hc.
    + apply orelse_some in H as [H | [_ H]].
      * apply IH in H as (u & v & -> & Hu & Hk).
        exists (c :: u), v. simpl. rewrite Hc, Hu.
        rewrite <- app_assoc. auto.
      * exists [], (c :: r). auto.
    + exists [], (c :: r). auto.
Qed.

Lemma star_go_complete {A} p u : forall v l g (k : cont A),
  forallb p u = true ->
  k (rev u ++ l, v) g <> None ->
  star_go p l (u ++ v) g k <> None.
Proof.
  induction u as [|c u IH]; intros v l g k Hu Hk; simpl in *.
  - destruct v as [|c v]; simpl; auto.
    destruct (p c); auto. apply orelse_not_none_r; auto.
  - apply andb_true_iff in Hu as [Hc Hu]. rewrite Hc.
    apply orelse_not_none_l. apply IH; auto.
    rewrite <- app_assoc in Hk. exact Hk.
Qed.

Lemma run_sound {A} e : forall l r g (k : cont A) x,
  run e (l, r) g k = Some x ->
  exists u v g', r = u ++ v /\ lang e u /\
                 k (rev u ++ l, v) g' = Some x.
Proof.
  induction e as [|p|a IHa b IHb|a IHa b IHb|a IHa|p|p|a IHa| |];
    intros l r g k x H; simpl in H.
  - exists [], r, g. repeat split; auto.
  - destruct r as [|c r]; [discriminate|].
    destruct (p c) eqn:Hc; [|discriminate].
    exists [c], r, g. simpl. repeat split; eauto.
  - apply IHa in H as (u & v & g1 & -> & Hu & H).
    apply IHb in H as (u' & v' & g2 & -> & Hu' & H).
    exists (u ++ u'), v', g2. rewrite rev_app_distr, <- !app_assoc.
    simpl. eauto 10.
  - apply orelse_some in H as [H | [_ H]].
    + apply IHa in H as (u & v & g1 & -> & Hu & H).
      exists u, v, g1. simpl. auto.
    + apply IHb in H as (u & v & g1 & -> & Hu & H).
      exists u, v, g1. simpl. auto.
  - apply orelse_some in H as [H | [_ H]].
    + apply IHa in H as (u & v & g1 & -> & Hu & H).
      exists u, v, g1. simpl. auto.
    + exists [], r, g. simpl. auto.
  - apply star_go_sound in H as (u & v & -> & Hu & H).
    exists u, v, g. auto.
  - destruct r as [|c r]; [discriminate|].
    destruct (p c) eqn:Hc; [|discriminate].
    apply star_go_sound in H as (u & v & -> & Hu & H).
    exists (c :: u), v, g. simpl. rewrite Hc, Hu, <- app_assoc.
    split; [reflexivity|]. split; [split; [discriminate|reflexivity]|].
    exact H.
  - apply IHa in H as (u & v & g1 & -> & Hu & H).
    simpl in H. eexists u, v, _. repeat split; eauto.
  - destruct l; [|discriminate]. exists [], r, g. repeat split; auto.
  - simpl in H. destruct (xorb _ _); [|discriminate].
    exists [], r, g. repeat split; auto.
Qed.

Lemma run_complete {A} e : pure e = true ->
  forall u v l g (k : cont A),
    lang e u ->
    (forall g', k (rev u ++ l, v) g' <> None) ->
    run e (l, u ++ v) g k <> None.
Proof.
  induction e as [|p|a IHa b IHb|a IHa b IHb|a IHa|p|p|a IHa| |];
    intros Hp u v l g k Hu Hk; simpl in *; try discriminate.
  - subst u. apply Hk.
  - destruct Hu as (c & -> & Hc). simpl. rewrite Hc. apply Hk.
  - apply andb_true_iff in Hp as [Hpa Hpb].
    destruct Hu as (u1 & u2 & -> & H1 & H2).
    rewrite <- app_assoc. apply IHa; auto.
    intros g'. apply IHb; auto.
    intros g''. specialize (Hk g'').
    rewrite rev_app_distr, <- app_assoc in Hk. exact Hk.
  - apply andb_true_iff in Hp as [Hpa Hpb].
    destruct Hu as [Hu | Hu].
    + apply orelse_not_none_l. apply IHa; auto.
    + destruct (run a (l, u ++ v) g k) eqn:E; simpl; [discriminate|].
      apply IHb; auto.
  - destruct Hu as [Hu | ->].
    + apply orelse_not_none_l. apply IHa; auto.
    + apply orelse_not_none_r. apply Hk.
  - apply star_go_complete; auto.
  - destruct Hu as [Hne Hu]. destruct u as [|c u]; [congruence|].
    simpl in *. apply andb_true_iff in Hu as [Hc Hu]. rewrite Hc.
    apply star_go_complete; auto.
    specialize (Hk g). rewrite <- app_assoc in Hk. exact Hk.
  - apply IHa; auto.
Qed.

Lemma forallb_not_elem p x (w : text) :
  p x = false -> forallb p w = true -> x ∉ w.
Proof.
  intros Hx Hw Hin. rewrite forallb_forall in Hw.
  apply list_elem_of_In in Hin. apply Hw in Hin. congruence.
Qed.

Lemma avoids_lang x e : avoids x e = true ->
  forall w, lang e w -> x ∉ w.
Proof.
  induction e as [|p|a IHa b IHb|a IHa b IHb|a IHa|p|p|a IHa| |];
    simpl; intros Ha w Hw.
  - subst. apply not_elem_of_nil.
  - destruct Hw as (c & -> & Hc). apply negb_true_iff in Ha.
    rewrite list_elem_of_singleton. intros ->. congruence.
  - apply andb_true_iff in Ha as [H1 H2].
    destruct Hw as (u & v & -> & Hu & Hv).
    rewrite elem_of_app. intros [?|?]; [eapply IHa | eapply IHb]; eauto.
  - apply andb_true_iff in Ha as [H1 H2]. destruct Hw; eauto.
  - destruct Hw as [?| ->]; eauto. apply not_elem_of_nil.
  - apply negb_true_iff in Ha. eapply forallb_not_elem; eauto.
  - apply negb_true_iff in Ha. eapply forallb_not_elem; eauto. apply Hw.
  - eauto.
  - subst. apply not_elem_of_nil.
  - subst. apply not_elem_of_nil.
Qed.

(** What [match_at] finds is a word of the pattern, and a prefix of the
    text after the cursor. *)
Lemma match_at_sound e l r m :
  match_at e l r = Some m ->
  exists u v, r = u ++ v /\ lang e u /\ m_len m = length u.
Proof.
  unfold match_at. intros H.
  apply run_sound in H as (u & v & g' & -> & Hu & H).
  exists u, v. split; [reflexivity|]. split; [assumption|].
  injection H as <-. simpl. rewrite length_app, length_rev. lia.
Qed.

Lemma match_at_complete e l u v :
  pure e = true -> lang e u -> match_at e l (u ++ v) <> None.
Proof.
  intros Hp Hu. unfold match_at. apply run_complete; auto; discriminate.
Qed.

End ReFacts.

Module TagFacts.
Import Re ReLang ReFacts.

Import Markup.

Lemma flat_mono (P Q : text -> Prop) s :
  (forall b, P b -> Q b) -> flat P s -> flat Q s.
Proof.
  intros HPQ H. induction H; [constructor 1|constructor 2|constructor 3|constructor 4]; auto.
Qed.

Lemma flat_app_plain P u s :
  lb ∉ u -> flat P s -> flat P (u ++ s).
Proof.
  induction u as [|c u IH]; simpl; intros Hu Hs; [exact Hs|].
  apply not_elem_of_cons in Hu as [Hc Hu].
  apply flat_chr; auto.
Qed.

Lemma flat_scan_flat s :
  (flat_scan false s = true -> flat (fun _ => True) s) /\
  (flat_scan true s = true -> flat (fun _ => True) (lb :: s)).
Proof.
  induction s as [|c s [IH1 IH2]]; simpl.
  - split; intros _; [constructor | apply flat_open; split; apply not_elem_of_nil].
  - destruct (Ascii.eqb c lb) eqn:El.
    + apply Ascii.eqb_eq in El as ->. split; [auto | discriminate].
    + apply Ascii.eqb_neq in El.
      destruct (Ascii.eqb c rb) eqn:Er.
      * apply Ascii.eqb_eq in Er as ->. split; intros H.
        -- apply flat_chr; auto.
        -- apply (flat_grp _ [] s); auto.
           split; apply not_elem_of_nil.
      * apply Ascii.eqb_neq in Er. split; intros H.
        -- apply flat_chr; auto.
        -- specialize (IH2 H).
           inversion IH2 as [|c0 s1 Hne _|b s0 Hb _ Hs0 Eq|b Hb]; subst.
           ++ congruence.
           ++ destruct Hb as [Hb1 Hb2].
              apply (flat_grp _ (c :: b) s0); auto.
              split; apply not_elem_of_cons; auto.
           ++ destruct Hb as [Hb1 Hb2].
              apply (flat_open _ (c :: s)).
              split; apply not_elem_of_cons; auto.
Qed.

Lemma supported_flat s : supported s = true -> flat (fun _ => True) s.
Proof. apply flat_scan_flat. Qed.

Lemma first_occurrence (x : ascii) a : forall a' b b',
  x ∉ a -> x ∉ a' -> a ++ x :: b = a' ++ x :: b' -> a = a' /\ b = b'.
Proof.
  induction a as [|c a IH]; intros [|c' a'] b b' Ha Ha' E; simpl in E.
  - injection E as ->. auto.
  - injection E as <- _. exfalso. apply Ha'. left.
  - injection E as -> _. exfalso. apply Ha. left.
  - injection E as -> E.
    apply not_elem_of_cons in Ha as [_ Ha].
    apply not_elem_of_cons in Ha' as [_ Ha'].
    destruct (IH _ _ _ Ha Ha' E) as [-> ->]. auto.
Qed.

Section Tag.
(** A pattern every word of which is [{body}] with no [}] in [body]. *)
Variable e : regex.
Hypothesis e_pure : pure e = true.
Hypothesis e_shape :
  forall w, lang e w -> exists b, w = lb :: b ++ [rb] /\ rb ∉ b.
Variable repl : rmatch -> text.
Hypothesis repl_plain : forall m, lb ∉ repl m.

Lemma no_match_other l c r : c <> lb -> match_at e l (c :: r) = None.
Proof.
  intros Hc. destruct (match_at e l (c :: r)) as [m|] eqn:E; [|reflexivity].
  apply match_at_sound in E as (u & v & E & Hu & _).
  apply e_shape in Hu as (b & -> & _). simpl in E. congruence.
Qed.

Lemma no_match_nil l : match_at e l [] = None.
Proof.
  destruct (match_at e l []) as [m|] eqn:E; [|reflexivity].
  apply match_at_sound in E as (u & v & E & Hu & _).
  apply e_shape in Hu as (b & -> & _). discriminate.
Qed.

Lemma no_match_open l r : rb ∉ r -> match_at e l r = None.
Proof.
  intros Hr. destruct (match_at e l r) as [m|] eqn:E; [|reflexivity].
  apply match_at_sound in E as (u & v & -> & Hu & _).
  apply e_shape in Hu as (b & -> & _). exfalso. apply Hr.
  simpl. rewrite <- app_assoc. right.
  apply elem_of_app. right. left.
Qed.

Lemma match_len l b r m : rb ∉ b ->
  match_at e l (lb :: b ++ rb :: r) = Some m ->
  m_len m = S (S (length b)) /\ lang e (lb :: b ++ [rb]).
Proof.
  intros Hb E.
  apply match_at_sound in E as (u & v & E & Hu & Hlen).
  destruct (e_shape _ Hu) as (b' & -> & Hb').
  simpl in E. injection E as E. rewrite <- app_assoc in E. simpl in E.
  destruct (first_occurrence _ _ _ _ _ Hb Hb' E) as [<- <-].
  split; [|assumption].
  rewrite Hlen. simpl. rewrite length_app. simpl. lia.
Qed.

Lemma unmatched_local l b r : rb ∉ b ->
  match_at e l (lb :: b ++ rb :: r) = None -> unmatched e b.
Proof.
  intros Hb E l' r'.
  destruct (match_at e l' (lb :: b ++ rb :: r')) as [m|] eqn:E'; [|reflexivity].
  apply match_len in E' as [_ Hw]; [|assumption].
  exfalso. apply (match_at_complete e l _ r e_pure Hw).
  simpl. rewrite <- app_assoc. exact E.
Qed.

Lemma sub_go_plain u : forall v l,
  lb ∉ u ->
  sub_go e repl l (u ++ v) O = u ++ sub_go e repl (rev u ++ l) v O.
Proof.
  induction u as [|c u IH]; intros v l Hu; simpl; [reflexivity|].
  apply not_elem_of_cons in Hu as [Hc Hu].
  rewrite no_match_other by auto.
  rewrite IH by auto. rewrite <- app_assoc. reflexivity.
Qed.

Lemma sub_go_skip u : forall v l,
  sub_go e repl l (u ++ v) (length u) = sub_go e repl (rev u ++ l) v O.
Proof.
  induction u as [|c u IH]; intros v l; simpl; [reflexivity|].
  rewrite IH, <- app_assoc. reflexivity.
Qed.

Lemma sub_go_nil l : sub_go e repl l [] O = [].
Proof. simpl. rewrite no_match_nil. reflexivity. Qed.

(** One pass keeps the text flat, and every tag it leaves is one the
    pattern does not match. *)
Lemma sub_go_flat P s : flat P s -> forall l,
  flat (fun b => P b /\ unmatched e b) (sub_go e repl l s O).
Proof.
  induction 1 as [|c s Hc Hs IH|b s [Hb1 Hb2] HP Hs IH|b [Hb1 Hb2]]; intros l.
  - rewrite sub_go_nil. constructor.
  - simpl. rewrite no_match_other by auto. apply flat_chr; auto.
  - cbn [sub_go].
    destruct (match_at e l (lb :: b ++ rb :: s)) as [m|] eqn:E.
    + destruct (match_len _ _ _ _ Hb2 E) as [-> _].
      replace (b ++ rb :: s) with ((b ++ [rb]) ++ s)
        by (rewrite <- app_assoc; reflexivity).
      replace (S (length b)) with (length (b ++ [rb]))
        by (rewrite length_app; simpl; lia).
      rewrite sub_go_skip. apply flat_app_plain; auto.
    + replace (b ++ rb :: s) with ((b ++ [rb]) ++ s)
        by (rewrite <- app_assoc; reflexivity).
      rewrite sub_go_plain.
      2:{ rewrite elem_of_app, list_elem_of_singleton.
          intros [?|?]; [auto | discriminate]. }
      rewrite <- app_assoc. simpl. apply flat_grp; auto.
      * split; auto.
      * split; auto. eapply unmatched_local; eauto.
  - assert (Hr : rb ∉ lb :: b).
    { apply not_elem_of_cons. split; [discriminate | auto]. }
    cbn [sub_go]. rewrite (no_match_open l _ Hr).
    rewrite <- (app_nil_r b) at 1. rewrite sub_go_plain by auto.
    rewrite sub_go_nil, app_nil_r. apply flat_open. split; auto.
Qed.

(** Text whose tags the pattern does not match is left as it is. *)
Lemma sub_go_fixed P s : (forall b, P b -> unmatched e b) ->
  flat P s -> forall l, sub_go e repl l s O = s.
Proof.
  intros HP. induction 1 as [|c s Hc Hs IH|b s [Hb1 Hb2] HPb Hs IH|b [Hb1 Hb2]]; intros l.
  - apply sub_go_nil.
  - simpl. rewrite no_match_other by auto. rewrite IH. reflexivity.
  - cbn [sub_go]. rewrite (HP b HPb l s).
    replace (b ++ rb :: s) with ((b ++ [rb]) ++ s)
      by (rewrite <- app_assoc; reflexivity).
    rewrite sub_go_plain.
    2:{ rewrite elem_of_app, list_elem_of_singleton.
        intros [?|?]; [auto | discriminate]. }
    rewrite IH. reflexivity.
  - assert (Hr : rb ∉ lb :: b).
    { apply not_elem_of_cons. split; [discriminate | auto]. }
    cbn [sub_go]. rewrite (no_match_open l _ Hr).
    rewrite <- (app_nil_r b) at 1. rewrite sub_go_plain by auto.
    rewrite sub_go_nil, app_nil_r. reflexivity.
Qed.

End Tag.

End TagFacts.

Module SmclFacts.
Import Re ReLang ReFacts Markup TagFacts Smcl.

Lemma tag_pure : pure _SMCL_TAG_RE = true.
Proof. vm_compute. reflexivity. Qed.

Lemma char_pure : pure _SMCL_CHAR_RE = true.
Proof. vm_compute. reflexivity. Qed.

(** A pattern of the form [\{ inner \}] whose inner part avoids [}]. *)
Lemma braced_shape inner w :
  avoids rb inner = true ->
  lang (Seq (chr lb) (Seq inner (chr rb))) w ->
  exists b, w = lb :: b ++ [rb] /\ rb ∉ b.
Proof.
  intros Hav (u & v & -> & (c & -> & Hc) & (b & t & -> & Hb & (c' & -> & Hc'))).
  apply Ascii.eqb_eq in Hc as <-. apply Ascii.eqb_eq in Hc' as <-.
  exists b. split; [reflexivity|]. eapply avoids_lang; eauto.
Qed.

Lemma tag_shape w :
  lang _SMCL_TAG_RE w -> exists b, w = lb :: b ++ [rb] /\ rb ∉ b.
Proof. apply braced_shape. vm_compute. reflexivity. Qed.

Lemma char_shape w :
  lang _SMCL_CHAR_RE w -> exists b, w = lb :: b ++ [rb] /\ rb ∉ b.
Proof.
  intros (u & v & -> & (c & -> & Hc) & H).
  apply Ascii.eqb_eq in Hc as <-.
  destruct H as (u1 & v1 & -> & H1 & u2 & v2 & -> & H2 & u3 & v3 & -> & H3 & (c' & -> & Hc')).
  apply Ascii.eqb_eq in Hc' as <-.
  exists (u1 ++ u2 ++ u3). split.
  - simpl. rewrite <- !app_assoc. reflexivity.
  - rewrite !elem_of_app. intros [H|[H|H]]; revert H.
    + eapply (avoids_lang rb (chr "c")); [reflexivity | exact H1].
    + eapply (avoids_lang rb s_plus); [reflexivity | exact H2].
    + eapply (avoids_lang rb (Grp (Plus (not_chr "}")))); [reflexivity | exact H3].
Qed.

Lemma map_get_plain key : lb ∉ _SMCL_CHAR_MAP_get key.
Proof.
  unfold _SMCL_CHAR_MAP_get.
  repeat match goal with
         | |- context [if ?c then _ else _] =>
             destruct c;
             [ unfold txt; simpl; rewrite list_elem_of_singleton;
               discriminate |]
         end.
  apply not_elem_of_nil.
Qed.

Lemma replace_char_plain m : lb ∉ _replace_char m.
Proof. apply map_get_plain. Qed.

(** The result of [strip_smcl] on flat text is flat, and none of its tags
    is a character escape or a known tag. *)
Lemma strip_smcl_flat s :
  flat (fun _ => True) s ->
  flat (fun b => no_char_tag b /\ no_known_tag b) (strip_smcl s).
Proof.
  intros H. unfold strip_smcl, sub.
  apply (sub_go_flat _SMCL_CHAR_RE char_pure char_shape
           _replace_char replace_char_plain) with (l := []) in H.
  apply (sub_go_flat _SMCL_TAG_RE tag_pure tag_shape
           (fun _ => []) (fun _ => not_elem_of_nil _)) with (l := []) in H.
  eapply flat_mono; [|exact H]. simpl. intros b [[_ H1] H2]. split; assumption.
Qed.

Lemma strip_smcl_fixed s :
  flat (fun b => no_char_tag b /\ no_known_tag b) s -> strip_smcl s = s.
Proof.
  intros H. unfold strip_smcl, sub.
  set (P := fun b => no_char_tag b /\ no_known_tag b) in H.
  rewrite (sub_go_fixed _SMCL_CHAR_RE char_shape _replace_char P s);
    [|intros b [Hb _]; exact Hb | exact H].
  rewrite (sub_go_fixed _SMCL_TAG_RE tag_shape (fun _ => []) P s);
    [reflexivity | intros b [_ Hb]; exact Hb | exact H].
Qed.

End SmclFacts.

Module TextFacts.
Import Text ClassifySpec.

Lemma lstrip_suffix s : exists p, s = p ++ lstrip s.
Proof.
  induction s as [|c s [p IH]]; simpl.
  - exists []. reflexivity.
  - destruct (is_space c).
    + exists (c :: p). simpl. congruence.
    + exists []. reflexivity.
Qed.

Lemma rstrip_prefix s : exists q, s = rstrip s ++ q.
Proof.
  induction s as [|c s [q IH]]; simpl.
  - exists []. reflexivity.
  - destruct (rstrip s) as [|c' t] eqn:E.
    + destruct (is_space c).
      * exists (c :: s). reflexivity.
      * exists s. reflexivity.
    + exists q. simpl in *. congruence.
Qed.

(** The stripped text is a piece of the text. *)
Lemma strip_infix s : exists p q, s = p ++ strip s ++ q.
Proof.
  unfold strip. destruct (rstrip_prefix s) as [q Hq].
  destruct (lstrip_suffix (rstrip s)) as [p Hp].
  exists p, q. rewrite app_assoc, <- Hp. exact Hq.
Qed.

Lemma rstrip_keep x c b :
  is_space c = false -> rstrip (x ++ c :: b) = x ++ c :: rstrip b.
Proof.
  intros Hc. induction x as [|y x IH]; simpl.
  - rewrite Hc. destruct (rstrip b); reflexivity.
  - rewrite IH. destruct x; reflexivity.
Qed.

Lemma lstrip_keep a c r :
  is_space c = false -> lstrip (a ++ c :: r) = lstrip a ++ c :: r.
Proof.
  intros Hc. induction a as [|y a IH]; simpl.
  - rewrite Hc. reflexivity.
  - destruct (is_space y); [exact IH | reflexivity].
Qed.







Lemma digit_no_space c : is_digit c = true -> is_space c = false.
Proof.
  destruct c as [[] [] [] [] [] [] [] []]; vm_compute; congruence.
Qed.

End TextFacts.

Module SearchFacts.
Import Re ReLang ReFacts.

Lemma search_from_some e r : forall l pre m tok,
  search_from e l r = Some (pre, m, tok) ->
  exists a b, r = a ++ b /\ pre = rev l ++ a /\
              match_at e (rev a ++ l) b = Some m /\
              tok = firstn (m_len m) b.
Proof.
  induction r as [|c r IH]; intros l pre m tok H; simpl in H.
  - destruct (match_at e l []) as [m'|] eqn:E; [|discriminate].
    injection H as <- <- <-. exists [], [].
    repeat split; rewrite ?app_nil_r; auto.
  - destruct (match_at e l (c :: r)) as [m'|] eqn:E.
    + injection H as <- <- <-. exists [], (c :: r).
      repeat split; rewrite ?app_nil_r; auto.
    + apply IH in H as (a & b & -> & -> & Hm & ->).
      exists (c :: a), b. simpl. rewrite <- !app_assoc.
      repeat split; auto.
Qed.

Lemma search_from_none e r : forall l a b,
  search_from e l r = None -> r = a ++ b ->
  match_at e (rev a ++ l) b = None.
Proof.
  induction r as [|c r IH]; intros l a b H E; simpl in H.
  - destruct a; [|discriminate]. simpl in E. subst b. simpl.
    destruct (match_at e l []); [discriminate | reflexivity].
  - destruct (match_at e l (c :: r)) eqn:Em; [discriminate|].
    destruct a as [|c' a]; simpl in E.
    + subst b. exact Em.
    + injection E as <- ->. simpl. rewrite <- app_assoc. apply IH; auto.
Qed.

(** [found] holds when the pattern matches at some position. *)
Lemma found_iff e s :
  found e s = true <->
  exists a b, s = a ++ b /\ match_at e (rev a) b <> None.
Proof.
  unfold found, search. split.
  - destruct (search_from e [] s) as [[[pre m] tok]|] eqn:E; [|discriminate].
    intros _. apply search_from_some in E as (a & b & -> & _ & Hm & _).
    exists a, b. rewrite app_nil_r in Hm. rewrite Hm. split; [reflexivity|discriminate].
  - intros (a & b & -> & Hm).
    destruct (search_from e [] (a ++ b)) eqn:E; [reflexivity|].
    exfalso. apply Hm.
    rewrite <- (app_nil_r (rev a)). eapply search_from_none; eauto.
Qed.

End SearchFacts.

Module ClassifyFacts.
Import Re ReLang ReFacts SearchFacts TextFacts Classify ClassifySpec.

Local Opaque Ascii.eqb.


Local Transparent Ascii.eqb.










End ClassifyFacts.

Module GraphFacts.
Import Graph.

Lemma to_int_proper z :
  Z.to_int z <> Decimal.Pos Decimal.Nil /\
  Z.to_int z <> Decimal.Neg Decimal.Nil.
Proof.
  destruct z as [|p|p]; simpl; split; try discriminate.
  - intros [= H]. exact (Unsigned.to_uint_nonnil p H).
  - intros [= H]. exact (Unsigned.to_uint_nonnil p H).
Qed.

(** The decimal form of an integer determines it. *)
Lemma str_of_int_inj a b : Text.str_of_int a = Text.str_of_int b -> a = b.
Proof.
  unfold Text.str_of_int, txt. intros H.
  apply (f_equal string_of_list_ascii) in H.
  rewrite !string_of_list_ascii_of_string in H.
  apply (f_equal NilZero.int_of_string) in H.
  destruct (to_int_proper a) as [Ha1 Ha2].
  destruct (to_int_proper b) as [Hb1 Hb2].
  rewrite !NilZero.isi in H by assumption.
  injection H as H. apply to_int_inj, H.
Qed.

Lemma joinpath_prefix d : exists x, forall n, Pathlib.joinpath d n = x ++ n.
Proof.
  unfold Pathlib.joinpath.
  destruct (Text.text_eqb d (txt ".")); [exists []; reflexivity|].
  destruct (Text.endswith d [Pathlib.sep]).
  - exists d. reflexivity.
  - exists (d ++ [Pathlib.sep]). intros n. rewrite <- app_assoc. reflexivity.
Qed.

Lemma joinpath_inj d n n' :
  Pathlib.joinpath d n = Pathlib.joinpath d n' -> n = n'.
Proof.
  destruct (joinpath_prefix d) as [x Hx]. rewrite !Hx.
  apply app_inv_head.
Qed.

Lemma export_name_inj t t' : export_name t = export_name t' -> t = t'.
Proof.
  unfold export_name. intros H.
  apply app_inv_head, app_inv_tail in H. apply str_of_int_inj, H.
Qed.

Lemma export_line_inj p p' : export_line p = export_line p' -> p = p'.
Proof.
  unfold export_line. intros H. injection H as H.
  apply app_inv_tail in H. exact H.
Qed.

End GraphFacts.

Module EncodeFacts.
Import Graph.

Lemma bytes_eqb_eq a b : bytes_eqb a b = true <-> a = b.
Proof.
  unfold bytes_eqb. rewrite bool_decide_eq_true. split; [|congruence].
  revert b. induction a as [|x a IH]; intros [|y b] H; try discriminate.
  - reflexivity.
  - simpl in H. injection H as Hxy H. f_equal; [|apply IH, H].
    apply (f_equal Byte.of_N) in Hxy. rewrite !Byte.of_to_N in Hxy.
    congruence.
Qed.

(** What [_png_dimensions] returns, case by case: absent dimensions
    when the file cannot be opened, when fewer than 24 bytes are there,
    and when the magic is wrong; otherwise the two big-endian fields. *)
Lemma png_dimensions_cases (opened : os_error + bytes) :
  match opened with
  | inl _ => _png_dimensions opened = (None, None)
  | inr content =>
      ((length content < 24)%nat -> _png_dimensions opened = (None, None)) /\
      (firstn 8 content <> png_magic ->
       _png_dimensions opened = (None, None)) /\
      ((24 <= length content)%nat -> firstn 8 content = png_magic ->
       _png_dimensions opened =
         (Some (be32 (firstn 4 (skipn 16 content))),
          Some (be32 (firstn 4 (skipn 20 content)))))
  end.
Proof.
  destruct opened as [e|content]; [reflexivity|].
  unfold _png_dimensions.
  assert (H8 : firstn 8 (firstn 24 content) = firstn 8 content)
    by (rewrite firstn_firstn; reflexivity).
  rewrite H8, length_firstn.
  repeat split.
  - intros Hlen.
    destruct (Nat.ltb_spec (min 24 (length content)) 24); [reflexivity|lia].
  - intros Hm.
    destruct (Nat.ltb_spec (min 24 (length content)) 24); [reflexivity|].
    destruct (bytes_eqb (firstn 8 content) png_magic) eqn:E; [|reflexivity].
    apply bytes_eqb_eq in E. contradiction.
  - intros Hlen Hm.
    destruct (Nat.ltb_spec (min 24 (length content)) 24); [lia|].
    apply bytes_eqb_eq in Hm. rewrite Hm. simpl negb. cbv iota.
    assert (H16 : firstn 4 (skipn 16 (firstn 24 content))
                  = firstn 4 (skipn 16 content)).
    { rewrite skipn_firstn_comm, firstn_firstn. reflexivity. }
    assert (H20 : firstn 4 (skipn 20 (firstn 24 content))
                  = firstn 4 (skipn 20 content)).
    { rewrite skipn_firstn_comm, firstn_firstn. reflexivity. }
    rewrite H16, H20. reflexivity.
Qed.

End EncodeFacts.

Module DictFacts.
Import Graph ScanSpec.

Section Dict.
Context {V : Type}.
Implicit Types (d l : list (Path * V)) (k : Path) (v : V).

Lemma text_eqb_true (a b : text) : Text.text_eqb a b = true <-> a = b.
Proof. apply bool_decide_eq_true. Qed.

Lemma text_eqb_false (a b : text) : Text.text_eqb a b = false <-> a <> b.
Proof. apply bool_decide_eq_false. Qed.

Lemma text_eqb_refl (a : text) : Text.text_eqb a a = true.
Proof. apply text_eqb_true. reflexivity. Qed.

Lemma dict_get_set_eq k v d : dict_get k (dict_set k v d) = Some v.
Proof.
  induction d as [|[k' v'] d IH]; simpl.
  - rewrite text_eqb_refl. reflexivity.
  - destruct (Text.text_eqb k k') eqn:E; simpl.
    + rewrite text_eqb_refl. reflexivity.
    + rewrite E. exact IH.
Qed.

Lemma dict_get_set_ne k k' v d :
  k <> k' -> dict_get k' (dict_set k v d) = dict_get k' d.
Proof.
  intros Hne. induction d as [|[k0 v0] d IH]; simpl.
  - apply not_eq_sym, text_eqb_false in Hne. rewrite Hne. reflexivity.
  - destruct (Text.text_eqb k k0) eqn:E; simpl.
    + apply text_eqb_true in E as <-.
      apply not_eq_sym, text_eqb_false in Hne. rewrite Hne. reflexivity.
    + rewrite IH. reflexivity.
Qed.

Lemma dict_set_keys k v d k' :
  k' ∈ map fst (dict_set k v d) <-> k' = k \/ k' ∈ map fst d.
Proof.
  induction d as [|[k0 v0] d IH]; simpl.
  - rewrite list_elem_of_singleton, elem_of_nil. tauto.
  - destruct (Text.text_eqb k k0) eqn:E; simpl.
    + apply text_eqb_true in E as <-. rewrite !elem_of_cons. tauto.
    + rewrite !elem_of_cons, IH. tauto.
Qed.

Lemma dict_set_NoDup k v d :
  NoDup (map fst d) -> NoDup (map fst (dict_set k v d)).
Proof.
  induction d as [|[k0 v0] d IH]; simpl; intros Hnd.
  - apply NoDup_singleton.
  - apply NoDup_cons in Hnd as [Hnin Hnd].
    destruct (Text.text_eqb k k0) eqn:E; simpl.
    + apply text_eqb_true in E as <-. apply NoDup_cons. auto.
    + apply text_eqb_false in E. apply NoDup_cons. split; [|auto].
      rewrite dict_set_keys. intros [->|?]; [congruence | contradiction].
Qed.

Lemma dict_get_elem k v d :
  NoDup (map fst d) -> (k, v) ∈ d -> dict_get k d = Some v.
Proof.
  induction d as [|[k0 v0] d IH]; simpl; intros Hnd Hin.
  - apply elem_of_nil in Hin. contradiction.
  - apply NoDup_cons in Hnd as [Hnin Hnd].
    apply elem_of_cons in Hin as [[= <- <-] | Hin].
    + rewrite text_eqb_refl. reflexivity.
    + destruct (Text.text_eqb k k0) eqn:E.
      * apply text_eqb_true in E as <-. exfalso. apply Hnin.
        apply list_elem_of_fmap. exists (k, v). auto.
      * auto.
Qed.

Lemma dict_of_get k l : forall d,
  dict_get k (dict_of l d) = upd_get k l (dict_get k d).
Proof.
  induction l as [|[k0 v0] l IH]; intros d; simpl; [reflexivity|].
  unfold dict_of, upd_get in *. simpl. rewrite IH.
  destruct (Text.text_eqb k k0) eqn:E.
  - apply text_eqb_true in E as <-. rewrite dict_get_set_eq. reflexivity.
  - apply text_eqb_false in E. rewrite dict_get_set_ne by congruence.
    reflexivity.
Qed.

Lemma dict_of_NoDup l : forall d,
  NoDup (map fst d) -> NoDup (map fst (dict_of l d)).
Proof.
  induction l as [|[k0 v0] l IH]; intros d Hd; simpl; [exact Hd|].
  apply IH, dict_set_NoDup, Hd.
Qed.

Lemma upd_get_app k l1 l2 r :
  upd_get k (l1 ++ l2) r = upd_get k l2 (upd_get k l1 r).
Proof. apply fold_left_app. Qed.

Lemma upd_get_other k l r :
  Forall (fun kv => kv.1 <> k) l -> upd_get k l r = r.
Proof.
  intros H. revert r. induction H as [|[k0 v0] l Hk _ IH]; intros r; simpl.
  - reflexivity.
  - unfold upd_get in *. simpl in *.
    apply not_eq_sym, text_eqb_false in Hk. rewrite Hk. apply IH.
Qed.

Lemma upd_get_same k v l : forall r,
  Forall (fun kv => kv.1 = k -> kv.2 = v) l ->
  (r = Some v \/ k ∈ map fst l) ->
  upd_get k l r = Some v.
Proof.
  induction l as [|[k0 v0] l IH]; intros r Hall Hr.
  - simpl. destruct Hr as [->|Hin]; [reflexivity|].
    apply elem_of_nil in Hin. contradiction.
  - apply Forall_cons in Hall as [Hk Hall].
    unfold upd_get in *. simpl in *.
    destruct (Text.text_eqb k k0) eqn:E.
    + apply text_eqb_true in E as <-. rewrite (Hk eq_refl).
      apply IH; auto.
    + apply text_eqb_false in E. apply IH; auto.
      destruct Hr as [->|Hin]; auto.
      apply elem_of_cons in Hin as [->|Hin]; [congruence|auto].
Qed.

End Dict.

End DictFacts.

Module PathFacts.
Import Pathlib.

Lemma name_go_plain n : forall cur, sep ∉ n -> name_go cur n = rev cur ++ n.
Proof.
  induction n as [|c n IH]; intros cur Hn; simpl.
  - rewrite app_nil_r. reflexivity.
  - apply not_elem_of_cons in Hn as [Hc Hn].
    apply not_eq_sym, Ascii.eqb_neq in Hc. rewrite Hc, IH by assumption.
    simpl. rewrite <- app_assoc. reflexivity.
Qed.

Lemma name_go_after_sep a rest : forall cur,
  name_go cur (a ++ sep :: rest) = name_go [] rest.
Proof.
  induction a as [|c a IH]; intros cur; simpl.
  - reflexivity.
  - destruct (Ascii.eqb c sep); apply IH.
Qed.

Lemma endswith_sep d : Text.endswith d [sep] = true -> exists d', d = d' ++ [sep].
Proof.
  unfold Text.endswith. simpl. intros H.
  destruct (rev d) as [|c r] eqn:E; [discriminate|].
  simpl in H. apply andb_true_iff in H as [H _].
  apply Ascii.eqb_eq in H as ->.
  exists (rev r). apply (f_equal (@rev ascii)) in E.
  rewrite rev_involutive in E. exact E.
Qed.

(** The name of [d / n] is [n] for a plain file name [n]. *)
Lemma name_joinpath d n : sep ∉ n -> name (joinpath d n) = n.
Proof.
  intros Hn. unfold name, joinpath.
  destruct (Text.text_eqb d (txt ".")); [apply (name_go_plain n []), Hn|].
  destruct (Text.endswith d [sep]) eqn:E.
  - apply endswith_sep in E as [d' ->]. rewrite <- app_assoc. simpl.
    rewrite name_go_after_sep. apply (name_go_plain n []), Hn.
  - rewrite name_go_after_sep. apply (name_go_plain n []), Hn.
Qed.

Lemma suffix_joinpath d n : sep ∉ n -> suffix (joinpath d n) = suffix n.
Proof.
  intros Hn. unfold suffix. rewrite name_joinpath by assumption.
  unfold name. rewrite (name_go_plain n []) by assumption. reflexivity.
Qed.

Lemma startswith_app x y : Text.startswith (x ++ y) x = true.
Proof.
  induction x as [|c x IH]; simpl; [destruct y; reflexivity|].
  rewrite Ascii.eqb_refl. exact IH.
Qed.

(** A name ends with its suffix. *)
Lemma endswith_suffix n : sep ∉ n -> Text.endswith n (suffix n) = true.
Proof.
  intros Hn. unfold suffix, name. rewrite (name_go_plain n []) by assumption.
  simpl. destruct (suffix_index n) as [i|].
  - unfold Text.endswith.
    rewrite <- (firstn_skipn i n) at 1.
    rewrite rev_app_distr. apply startswith_app.
  - unfold Text.endswith. simpl. destruct (rev n); reflexivity.
Qed.

End PathFacts.

Module CacheFacts.
Import Graph ScanSpec DictFacts.

Lemma dict_of_app {V} (l1 l2 : list (Path * V)) d :
  dict_of (l1 ++ l2) d = dict_of l2 (dict_of l1 d).
Proof. apply fold_left_app. Qed.

Lemma scan_entries wd l : forall acc,
  fold_left (scan_entry wd) l acc = dict_of (flat_map (entry_update wd) l) acc.
Proof.
  induction l as [|nf l IH]; intros acc; simpl; [reflexivity|].
  rewrite dict_of_app, IH. f_equal.
  unfold scan_entry, entry_update.
  destruct (f_is_file nf.2); [|reflexivity].
  destruct (f_mtime nf.2); reflexivity.
Qed.

Lemma scan_exts wd d exts : forall acc,
  fold_left
    (fun results ext => fold_left (scan_entry wd) (glob d ext) results)
    exts acc
  = dict_of (flat_map (ext_updates wd d) exts) acc.
Proof.
  induction exts as [|ext exts IH]; intros acc; simpl; [reflexivity|].
  rewrite dict_of_app, IH, scan_entries. reflexivity.
Qed.

Lemma scan_updates c d :
  d_is_dir d = true -> _scan c d = dict_of (updates (watch_dir c) d) [].
Proof. intros H. unfold _scan. rewrite H. apply scan_exts. Qed.

(** The keys of a scan are distinct. *)
Lemma scan_NoDup c d : NoDup (map fst (_scan c d)).
Proof.
  unfold _scan. destruct (d_is_dir d); cbn [negb]; [|apply NoDup_nil_2].
  rewrite scan_exts. apply dict_of_NoDup, NoDup_nil_2.
Qed.

Lemma scan_get c d k :
  d_is_dir d = true ->
  dict_get k (_scan c d) = upd_get k (updates (watch_dir c) d) None.
Proof.
  intros H. rewrite scan_updates by assumption.
  apply (dict_of_get k (updates (watch_dir c) d) []).
Qed.

(** Where an update comes from. *)
Lemma updates_origin wd d kv :
  kv ∈ updates wd d ->
  exists n f, (n, f) ∈ d_entries d /\ kv.1 = Pathlib.joinpath wd n /\
              f_mtime f = Some kv.2.
Proof.
  unfold updates, ext_updates. intros H.
  apply list_elem_of_In, in_flat_map in H as (ext & _ & H).
  apply in_flat_map in H as ([n f] & Hin & H).
  apply list_elem_of_In, list_elem_of_filter in Hin as [_ Hin].
  exists n, f. split; [assumption|].
  unfold entry_update in H. simpl in H.
  destruct (f_is_file f); [|destruct H].
  destruct (f_mtime f); [|destruct H].
  destruct H as [<-|[]]. auto.
Qed.

Lemma detect_entry_acc c d acc pm :
  detect_entry c d acc pm = acc ++ detect_entry c d [] pm.
Proof.
  unfold detect_entry.
  destruct (match dict_get pm.1 (_snapshot c) with
            | Some prev => pm.2 >? prev | None => true end);
    [|rewrite app_nil_r; reflexivity].
  destruct (encode_graph _ _); [reflexivity | rewrite app_nil_r; reflexivity].
Qed.

Lemma detect_fold c d l : forall acc,
  fold_left (detect_entry c d) l acc
  = acc ++ flat_map (detect_entry c d []) l.
Proof.
  induction l as [|pm l IH]; intros acc; simpl.
  - rewrite app_nil_r. reflexivity.
  - rewrite IH, detect_entry_acc, <- app_assoc. reflexivity.
Qed.

Lemma flat_map_nil {A B} (g : A -> list B) l :
  Forall (fun x => g x = []) l -> flat_map g l = [].
Proof. induction 1 as [|x l Hx _ IH]; simpl; [|rewrite Hx, IH]; reflexivity. Qed.

Lemma flat_map_single {B} (g : Path * Z -> list B) l p m :
  NoDup (map fst l) -> (p, m) ∈ l ->
  (forall kv, kv ∈ l -> kv.1 <> p -> g kv = []) ->
  flat_map g l = g (p, m).
Proof.
  induction l as [|[k v] l IH]; simpl; intros Hnd Hin Hg.
  - apply elem_of_nil in Hin. contradiction.
  - apply NoDup_cons in Hnd as [Hk Hnd].
    apply elem_of_cons in Hin as [[= <- <-]|Hin].
    + rewrite flat_map_nil, app_nil_r; [reflexivity|].
      apply Forall_forall. intros [k v] Hkv. apply Hg; [right; exact Hkv|].
      simpl. intros ->. apply Hk. apply list_elem_of_fmap. exists (p, v). auto.
    + rewrite (Hg (k, v)); [|left|].
      * apply IH; auto. intros kv Hkv. apply Hg. right. exact Hkv.
      * simpl. intros ->. apply Hk. apply list_elem_of_fmap. exists (p, m). auto.
Qed.

(** A second [detect_changes] on the same directory finds nothing, and
    the snapshot it stores is the scan. *)
Lemma detect_changes_again c d :
  (detect_changes c d).2 = take_snapshot c d /\
  detect_changes (take_snapshot c d) d = ([], take_snapshot c d).
Proof.
  split; [reflexivity|].
  unfold detect_changes, take_snapshot. simpl.
  change (_scan {| watch_dir := watch_dir c; _snapshot := _scan c d |} d)
    with (_scan c d).
  f_equal. rewrite detect_fold. simpl. apply flat_map_nil.
  apply Forall_forall. intros [k v] Hin.
  unfold detect_entry. simpl.
  rewrite (dict_get_elem k v) by (auto using scan_NoDup).
  destruct (Z.gtb_spec v v); [lia | reflexivity].
Qed.

End CacheFacts.

Module NewFileFacts.
Import Graph ScanSpec DictFacts CacheFacts PathFacts GraphFacts.

Lemma dict_get_Some_elem {V} k (v : V) d :
  dict_get k d = Some v -> (k, v) ∈ d.
Proof.
  induction d as [|[k0 v0] d IH]; simpl; [discriminate|].
  destruct (Text.text_eqb k k0) eqn:E.
  - apply text_eqb_true in E as <-. intros [= ->]. left.
  - intros H. right. auto.
Qed.

Lemma lower_supported ext :
  ext ∈ _SUPPORTED_EXTENSIONS -> Text.lower ext = ext.
Proof.
  unfold _SUPPORTED_EXTENSIONS. rewrite !elem_of_cons, elem_of_nil.
  intros [->|[->|[->|[->|[]]]]]; reflexivity.
Qed.

Section NewFile.
Variables (c : GraphCache) (e1 e2 : list (text * file)).
Variables (n : text) (f : file) (mtime : Z) (raw : bytes).

Let wd := watch_dir c.
Let p := Pathlib.joinpath wd n.
Let d0 := {| d_is_dir := true; d_entries := e1 ++ e2 |}.
Let d1 := {| d_is_dir := true; d_entries := e1 ++ (n, f) :: e2 |}.

Hypothesis n_new : n ∉ map fst (e1 ++ e2).
Hypothesis n_plain : Pathlib.sep ∉ n.
Hypothesis n_supported : Pathlib.suffix n ∈ _SUPPORTED_EXTENSIONS.
Hypothesis f_regular : f_is_file f = true.
Hypothesis f_stat : f_mtime f = Some mtime.
Hypothesis f_read : read_bytes (f_reads f) = inr raw.

Lemma other_name n' f' :
  (n', f') ∈ e1 ++ e2 -> Pathlib.joinpath wd n' <> p.
Proof.
  intros Hin E. apply joinpath_inj in E. subst n'.
  apply n_new. apply list_elem_of_fmap. exists (n, f'). auto.
Qed.

Lemma new_entry_update : entry_update wd (n, f) = [(p, mtime)].
Proof. unfold entry_update. simpl. rewrite f_regular, f_stat. reflexivity. Qed.

Lemma ext_updates_split ext :
  exists ux,
    ext_updates wd d1 ext
    = flat_map (entry_update wd)
        (filter (fun nf => Is_true (Text.endswith nf.1 ext)) e1)
      ++ ux
      ++ flat_map (entry_update wd)
           (filter (fun nf => Is_true (Text.endswith nf.1 ext)) e2) /\
    ext_updates wd d0 ext
    = flat_map (entry_update wd)
        (filter (fun nf => Is_true (Text.endswith nf.1 ext)) e1)
      ++ flat_map (entry_update wd)
           (filter (fun nf => Is_true (Text.endswith nf.1 ext)) e2) /\
    (ux = [] \/ ux = [(p, mtime)]).
Proof.
  unfold ext_updates, glob, d0, d1. cbn [d_entries].
  rewrite !filter_app, filter_cons, !flat_map_app.
  destruct (decide _).
  - exists [(p, mtime)]. cbn [flat_map]. rewrite new_entry_update. auto.
  - exists []. auto.
Qed.

Lemma upd_get_unchanged k exts : k <> p -> forall r,
  upd_get k (flat_map (ext_updates wd d1) exts) r
  = upd_get k (flat_map (ext_updates wd d0) exts) r.
Proof.
  intros Hk. induction exts as [|ext exts IH]; intros r; simpl; [reflexivity|].
  rewrite !upd_get_app, IH. f_equal.
  destruct (ext_updates_split ext) as (ux & -> & -> & Hux).
  rewrite !upd_get_app. f_equal.
  apply upd_get_other.
  destruct Hux as [->| ->]; repeat constructor. simpl. congruence.
Qed.

(** Every other path has the same time stamp in both scans. *)
Lemma scan_unchanged k :
  k <> p -> dict_get k (_scan c d1) = dict_get k (_scan c d0).
Proof.
  intros Hk. rewrite !scan_get by reflexivity.
  apply upd_get_unchanged, Hk.
Qed.

(** The new path is not in the first scan. *)
Lemma scan_before_new : dict_get p (_scan c d0) = None.
Proof.
  rewrite scan_get by reflexivity. apply upd_get_other.
  apply Forall_forall. intros kv Hkv.
  apply updates_origin in Hkv as (n' & f' & Hin & -> & _).
  eapply other_name, Hin.
Qed.

(** The new path is in the second scan, with its time stamp. *)
Lemma scan_after_new : dict_get p (_scan c d1) = Some mtime.
Proof.
  rewrite scan_get by reflexivity. apply upd_get_same.
  - apply Forall_forall. intros kv Hkv.
    apply updates_origin in Hkv as (n' & f' & Hin & Hk & Hm).
    intros E. rewrite Hk in E. apply joinpath_inj in E. subst n'.
    simpl in Hin. apply elem_of_app in Hin as [Hin|Hin].
    + exfalso. apply n_new. apply list_elem_of_fmap. exists (n, f').
      split; [reflexivity|]. apply elem_of_app. auto.
    + apply elem_of_cons in Hin as [[= ->]|Hin]; [congruence|].
      exfalso. apply n_new. apply list_elem_of_fmap. exists (n, f').
      split; [reflexivity|]. apply elem_of_app. auto.
  - right. apply list_elem_of_fmap. exists (p, mtime). split; [reflexivity|].
    apply list_elem_of_In, in_flat_map.
    exists (Pathlib.suffix n). split; [apply list_elem_of_In, n_supported|].
    apply in_flat_map. exists (n, f). split.
    + apply list_elem_of_In, list_elem_of_filter. split.
      * simpl. rewrite endswith_suffix by assumption. exact I.
      * simpl. apply elem_of_app. right. left.
    + pose proof new_entry_update as E. unfold wd in E. rewrite E.
      left. reflexivity.
Qed.

Lemma find_new : forall l,
  Forall (fun nf => Pathlib.joinpath wd nf.1 <> p) l ->
  find (fun nf => Text.text_eqb (Pathlib.joinpath wd nf.1) p)
       (l ++ (n, f) :: e2) = Some (n, f).
Proof.
  induction 1 as [|nf l Hnf _ IH]; simpl.
  - fold p. rewrite text_eqb_refl. reflexivity.
  - apply text_eqb_false in Hnf. rewrite Hnf. exact IH.
Qed.

Lemma reads_new : dir_reads wd d1 p = f_reads f.
Proof.
  unfold dir_reads. simpl. rewrite find_new; [reflexivity|].
  apply Forall_forall. intros [n' f'] Hin. simpl.
  eapply other_name. apply elem_of_app. left. exact Hin.
Qed.

Lemma encode_new : encode_graph (dir_reads wd d1) p = Return (new_artifact wd n f raw).
Proof.
  assert (E : Text.lower (Pathlib.suffix p) = Pathlib.suffix n).
  { unfold p. rewrite suffix_joinpath by assumption.
    apply lower_supported, n_supported. }
  unfold encode_graph. rewrite reads_new, f_read, E.
  unfold is_supported. rewrite bool_decide_eq_true_2 by assumption.
  simpl negb. cbv iota. unfold new_artifact.
  destruct (if Text.text_eqb _ _ then _ else _) as [w h]. reflexivity.
Qed.

Lemma detect_new :
  detect_changes (take_snapshot c d0) d1 = ([new_artifact wd n f raw], take_snapshot c d1) /\
  detect_changes (take_snapshot c d1) d1 = ([], take_snapshot c d1).
Proof.
  split; [|apply detect_changes_again].
  unfold detect_changes. f_equal.
  change (_scan (take_snapshot c d0) d1) with (_scan c d1).
  rewrite detect_fold. simpl.
  rewrite (flat_map_single _ _ p mtime).
  - unfold detect_entry. simpl. rewrite scan_before_new.
    change (watch_dir c) with wd. rewrite encode_new. reflexivity.
  - apply scan_NoDup.
  - apply dict_get_Some_elem, scan_after_new.
  - intros [k v] Hin Hk. simpl in Hk. unfold detect_entry. simpl.
    rewrite <- scan_unchanged by assumption.
    rewrite (dict_get_elem k v) by (auto using scan_NoDup).
    destruct (Z.gtb_spec v v); [lia | reflexivity].
Qed.

End NewFile.

End NewFileFacts.

Module SessionFacts.

Lemma return_code_of_zero em ec :
  return_code_of em ec = 0 <-> em = None /\ ec = None.
Proof.
  unfold return_code_of. destruct ec, em; split; try discriminate;
    try (intros [? ?]; discriminate); auto.
Qed.

Lemma success_iff r : success r = true <-> return_code r = 0.
Proof. unfold success. apply Z.eqb_eq. Qed.

(** Case analysis on the matches of a method body. *)
Ltac break_match :=
  match goal with
  | |- context [match ?x with _ => _ end] => destruct x eqn:?
  | H : context [match ?x with _ => _ end] |- _ => destruct x eqn:?
  end.

Section Interactive.
Import Interactive.

Lemma start_facts e s o s1 ops :
  start e s = (o, s1, ops) ->
  _log_buffer s1 = _log_buffer s /\ session_id s1 = session_id s /\
  _tmpdir s1 = _tmpdir s /\ _graph_cache s1 = _graph_cache s /\
  (ops = [] \/ ops = [Op_spawn]) /\
  (o = Return () -> exists p, _process s1 = Some p).
Proof.
  unfold start, spawn. intros H.
  repeat break_match; injection H as <- <- <-; simpl;
    repeat split; auto; try discriminate; eauto.
Qed.

Lemma ensure_alive_facts e s o s1 ops :
  _ensure_alive e s = (o, s1, ops) ->
  _log_buffer s1 = _log_buffer s /\ session_id s1 = session_id s /\
  (ops = [] \/ ops = [Op_spawn]) /\
  (o = Return () -> exists p, _process s1 = Some p) /\
  (is_alive e s = true -> o = Return () /\ s1 = s /\ ops = []).
Proof.
  unfold _ensure_alive. destruct (is_alive e s) eqn:Ha; simpl.
  - intros [= <- <- <-]. repeat split; auto.
    intros _. unfold is_alive in Ha. destruct (_process s); eauto. discriminate.
  - intros H. apply start_facts in H as (H1 & H2 & _ & _ & H3 & H4).
    destruct (tmpdir_exists e); simpl in *; repeat split; auto; discriminate.
Qed.

Lemma expect_loop_ops p ans : forall parts r ops,
  expect_loop p ans parts = (r, ops) -> Forall is_io ops.
Proof.
  induction ans as [|a ans IH]; intros parts r ops H; simpl in H.
  - injection H as <- <-. repeat constructor.
  - destruct a.
    + injection H as <- <-. repeat constructor.
    + destruct (expect_loop p ans (parts ++ [or_empty before])) as [r' ops'] eqn:E.
      injection H as <- <-. constructor; [exact I|]. eapply IH, E.
    + injection H as <- <-. repeat constructor.
    + injection H as <- <-. repeat constructor.
Qed.

Lemma run_do_file_ops e p do_file r ops :
  _run_do_file e p do_file = (r, ops) -> Forall is_io ops.
Proof.
  unfold _run_do_file.
  destruct (expect_loop p (answers e) []) as [r' ops'] eqn:E.
  intros [= <- <-]. constructor; [exact I|]. eapply expect_loop_ops, E.
Qed.

(** What [execute] returns, and what it leaves in the log. *)
Lemma execute_result e s code timeout r s' ops :
  execute e s code timeout = (Return r, s', ops) ->
  session_id s' = session_id s /\
  ((r = timeout_result e timeout /\ _log_buffer s' = _log_buffer s) \/
   (r = eof_result e /\ _log_buffer s' = _log_buffer s) \/
   (_log_buffer s' = _log_buffer s ++ [output r] /\
    (error_message r, error_code r) = Classify._detect_error (output r) /\
    return_code r = return_code_of (error_message r) (error_code r))).
Proof.
  unfold execute. intros H.
  destruct (_ensure_alive e s) as [[o s1] ops0] eqn:E.
  apply ensure_alive_facts in E as (Hl & Hs & _).
  destruct o as [[]|x]; [|discriminate].
  destruct (_process s1) as [p|]; [|discriminate].
  destruct (write_text e); [discriminate|].
  destruct (_run_do_file e p _) as [[raw|x] ops1] eqn:R.
  - destruct (Classify._detect_error _) as [em ec] eqn:D.
    destruct (Graph.detect_changes _ _) as [gs cache].
    injection H as <- <- <-. simpl. rewrite Hl, Hs.
    split; [reflexivity|]. right. right.
    split; [reflexivity|]. split; [symmetry; exact D | reflexivity].
  - destruct x; try discriminate; injection H as <- <- <-; simpl; auto.
Qed.

(** Whatever [execute] does, it keeps the session's identity and only
    appends to its log. *)
Lemma execute_log e s code timeout o s' ops :
  execute e s code timeout = (o, s', ops) ->
  session_id s' = session_id s /\
  exists new, _log_buffer s' = _log_buffer s ++ new /\ (length new <= 1)%nat.
Proof.
  unfold execute. intros H.
  destruct (_ensure_alive e s) as [[o1 s1] ops0] eqn:E.
  apply ensure_alive_facts in E as (Hl & Hs & _).
  assert (Hsame : forall s2, _log_buffer s2 = _log_buffer s1 ->
            session_id s2 = session_id s1 ->
            session_id s2 = session_id s /\
            exists new, _log_buffer s2 = _log_buffer s ++ new /\ (length new <= 1)%nat).
  { intros s2 -> ->. split; [assumption|]. exists []. rewrite app_nil_r. auto. }
  destruct o1 as [[]|x]; [|injection H as <- <- <-; auto].
  destruct (_process s1) as [p|]; [|injection H as <- <- <-; auto].
  destruct (write_text e); [injection H as <- <- <-; auto|].
  destruct (_run_do_file e p _) as [[raw|x] ops1] eqn:R.
  - destruct (Classify._detect_error _) as [em ec] eqn:D.
    destruct (Graph.detect_changes _ _) as [gs cache].
    injection H as <- <- <-. simpl. rewrite Hl, Hs. split; [reflexivity|].
    eexists [_]. split; [reflexivity | simpl; lia].
  - destruct x; injection H as <- <- <-; auto.
Qed.

End Interactive.

Section Batch.
Import Batch.

Lemma batch_execute_result e s code timeout r s' :
  execute e s code timeout = (Return r, s') ->
  (exists log_file, r = timeout_result e timeout log_file) \/
  ((error_message r, error_code r) = Classify._detect_error (output r) /\
   return_code r = return_code_of (error_message r) (error_code r)).
Proof.
  unfold execute. intros H.
  destruct (write_text e); [discriminate|].
  destruct (_run_batch e) as [raw|x].
  - destruct (Classify._detect_error _) as [em ec] eqn:D.
    destruct (Graph.detect_changes _ _) as [gs cache].
    injection H as <- <-. simpl. right.
    split; [symmetry; exact D | reflexivity].
  - destruct x; try discriminate. injection H as <- <-. eauto.
Qed.

End Batch.

End SessionFacts.

Module TimeoutFacts.
Import Interactive SessionFacts.

Lemma expect_loop_times_out p ans : forall parts,
  times_out ans = true ->
  (expect_loop p ans parts).1 = Raise Pexpect_TIMEOUT.
Proof.
  induction ans as [|a ans IH]; intros parts H; simpl in *; [reflexivity|].
  destruct a; try discriminate; [|reflexivity].
  specialize (IH (parts ++ [or_empty before]) H).
  destruct (expect_loop p ans _) as [r ops]. exact IH.
Qed.

End TimeoutFacts.

Module RegistryFacts.
Import Manager.

Lemma get_log_empty_interactive s :
  Interactive._log_buffer s = [] -> Interactive.get_log s = [].
Proof. unfold Interactive.get_log. intros ->. reflexivity. Qed.

(** What [create] registers is a new object with an empty log. *)
Lemma create_fresh e m h sid a' m' h' :
  create e m h sid = (Return a', m', h') ->
  h !! a' = None /\ _sessions m' !! sid = Some a' /\
  (forall a o, h !! a = Some o -> h' !! a = Some o) /\
  exists o', h' !! a' = Some o' /\ get_log o' = [].
Proof.
  unfold create. set (a := fresh (dom h)).
  assert (Ha : h !! a = None).
  { apply not_elem_of_dom. apply is_fresh. }
  assert (Hkeep : forall x, forall a0 o, h !! a0 = Some o -> <[a := x]> h !! a0 = Some o).
  { intros x a0 o Ho. rewrite lookup_insert_ne; [exact Ho|].
    intros <-. congruence. }
  destruct (_use_batch m).
  - intros [= <- <- <-]. simpl. rewrite !lookup_insert_eq.
    repeat split; eauto.
  - destruct (Interactive.start e _) as [[o s] ops] eqn:E.
    apply SessionFacts.start_facts in E as (Hl & _).
    destruct o as [[]|x]; [|discriminate].
    intros [= <- <- <-]. simpl. rewrite !lookup_insert_eq.
    repeat split; eauto.
    eexists. split; [reflexivity|]. simpl.
    apply get_log_empty_interactive. rewrite Hl. reflexivity.
Qed.

End RegistryFacts.

(* ===================================================================== *)
(** * The claims *)
(* ===================================================================== *)

(** C1 (as amended). [success] is true exactly when [return_code] is 0,
    for every result; and for every result that [StataSession.execute] or
    [BatchSession.execute] returns, [return_code] is 0, hence [success] is
    true, exactly when [error_message] and [error_code] are both absent. *)
Theorem success_characterised :
  (forall r : ExecutionResult, success r = true <-> return_code r = 0) /\
  (forall e s code timeout r s' ops,
     Interactive.execute e s code timeout = (Return r, s', ops) ->
     (success r = true <-> error_message r = None /\ error_code r = None)) /\
  (forall e s code timeout r s',
     Batch.execute e s code timeout = (Return r, s') ->
     (success r = true <-> error_message r = None /\ error_code r = None)).
Proof.
  split; [apply SessionFacts.success_iff|]. split.
  - intros e s code timeout r s' ops H.
    apply SessionFacts.execute_result in H as [_ [[-> _]|[[-> _]|(_ & _ & Hrc)]]].
    + split; [discriminate | intros [? _]; discriminate].
    + split; [discriminate | intros [? _]; discriminate].
    + rewrite SessionFacts.success_iff, Hrc.
      apply SessionFacts.return_code_of_zero.
  - intros e s code timeout r s' H.
    apply SessionFacts.batch_execute_result in H as [[lf ->]|[_ Hrc]].
    + split; [discriminate | intros [? _]; discriminate].
    + rewrite SessionFacts.success_iff, Hrc.
      apply SessionFacts.return_code_of_zero.
Qed.

(** C1 at a worked call: [display 1+1] on a live session. *)
Lemma success_characterised_witness :
  exists r s' ops,
    Interactive.execute (Samples.env true Samples.answers_display)
      Samples.live (txt "display 1+1") 120 = (Return r, s', ops) /\
    (success r = true <-> error_message r = None /\ error_code r = None).
Proof.
  destruct (Interactive.execute (Samples.env true Samples.answers_display)
              Samples.live (txt "display 1+1") 120) as [[o s'] ops] eqn:E.
  assert (Ho : exists r, o = Return r).
  { vm_compute in E. injection E as <- _ _. eauto. }
  destruct Ho as [r ->]. exists r, s', ops. split; [reflexivity|].
  exact (proj1 (proj2 success_characterised)
           (Samples.env true Samples.answers_display) Samples.live
           (txt "display 1+1") 120 r s' ops E).
Defined.

(** C1, the claim as written fails for a result built directly: [success]
    follows [return_code] alone, whatever the error fields hold. *)
Lemma success_ignores_error_fields :
  success {| output := txt "err"; return_code := 0;
             error_message := Some (txt "unrecognized command");
             error_code := Some 199; graphs := [];
             execution_time := 0; log_path := None |} = true /\
  success {| output := txt "ok"; return_code := 1;
             error_message := None; error_code := None; graphs := [];
             execution_time := 0; log_path := None |} = false.
Proof. split; reflexivity. Qed.




(** C3 (as amended). When a session is found dead on its next use and
    restarts itself, it remains the same session and its log from before
    the death is kept: [_ensure_alive] leaves [get_log] as it was, and
    [execute] on the dead session only appends to the log.  When the dead
    session is reached through the registry's [get_or_create], the
    registry drops it and registers a newly built session object in its
    place, whose log is empty; the old object keeps its log but is no
    longer the one registered. *)
Theorem restart_keeps_log_but_registry_recreates :
  (forall e s o s1 ops,
     Interactive.is_alive e s = false ->
     Interactive._ensure_alive e s = (o, s1, ops) ->
     Interactive.session_id s1 = Interactive.session_id s /\
     Interactive.get_log s1 = Interactive.get_log s) /\
  (forall e s code timeout o s' ops,
     Interactive.is_alive e s = false ->
     Interactive.execute e s code timeout = (o, s', ops) ->
     Interactive.session_id s' = Interactive.session_id s /\
     exists new,
       Interactive._log_buffer s' = Interactive._log_buffer s ++ new /\
       (length new <= 1)%nat) /\
  (forall e (m : Manager.SessionManager) (h : gmap nat Manager.session)
          sid a o a' m' h',
     Manager._sessions m !! sid = Some a ->
     h !! a = Some o ->
     Manager.is_alive e o = false ->
     Manager.get_or_create e m h sid = (Return a', m', h') ->
     a' <> a /\
     Manager._sessions m' !! sid = Some a' /\
     h' !! a = Some o /\
     exists o', h' !! a' = Some o' /\ Manager.get_log o' = []).
Proof.
  split; [|split].
  - intros e s o s1 ops _ H.
    apply SessionFacts.ensure_alive_facts in H as (Hl & Hs & _).
    split; [exact Hs|]. unfold Interactive.get_log. rewrite Hl. reflexivity.
  - intros e s code timeout o s' ops _ H.
    eapply SessionFacts.execute_log, H.
  - intros e m h sid a o a' m' h' Hm Hh Hdead H.
    unfold Manager.get_or_create in H. rewrite Hm, Hh, Hdead in H.
    simpl in H.
    apply RegistryFacts.create_fresh in H as (Hnew & Hreg & Hkeep & Ho').
    repeat split; auto. intros ->. congruence.
Qed.

(** C3 at a worked call: [execute] on the dead session [live]. *)
Lemma restart_keeps_log_but_registry_recreates_witness :
  Interactive.is_alive (Samples.env false Samples.answers_display) Samples.live
    = false /\
  exists o s' ops,
    Interactive.execute (Samples.env false Samples.answers_display)
      Samples.live (txt "display 1+1") 120 = (o, s', ops) /\
    Interactive.session_id s' = Interactive.session_id Samples.live /\
    exists new,
      Interactive._log_buffer s'
        = Interactive._log_buffer Samples.live ++ new /\
      (length new <= 1)%nat.
Proof.
  split; [reflexivity|].
  destruct (Interactive.execute (Samples.env false Samples.answers_display)
              Samples.live (txt "display 1+1") 120) as [[o s'] ops] eqn:E.
  exists o, s', ops. split; [reflexivity|].
  apply (proj1 (proj2 restart_keeps_log_but_registry_recreates)
           (Samples.env false Samples.answers_display) Samples.live
           (txt "display 1+1") 120 o s' ops);
    [reflexivity | exact E].
Defined.

(** C3, the claim as written fails through the registry: a dead session
    with a log is replaced by a new object whose log is empty. *)
Lemma registry_recreation_loses_log :
  Manager.get_log (Manager.Interactive_session Samples.live) = txt "2" /\
  Manager.is_alive (Samples.env false []) (Manager.Interactive_session Samples.live)
    = false /\
  exists a' m' h' o',
    Manager.get_or_create (Samples.env false []) Samples.registry
      Samples.objects (txt "default") = (Return a', m', h') /\
    a' <> 0%nat /\
    Manager._sessions m' !! txt "default" = Some a' /\
    h' !! a' = Some o' /\
    Manager.get_log o' = [].
Proof.
  split; [reflexivity|]. split; [reflexivity|].
  unfold Manager.get_or_create, Samples.registry, Samples.objects.
  cbn [Manager._sessions]. rewrite !lookup_singleton_eq.
  cbn [Manager.is_alive Interactive.is_alive Samples.live
       Interactive._process Samples.env Interactive.isalive negb].
  unfold Manager.create.
  cbn [Manager._use_batch Manager.set_sessions Interactive.start
       Interactive.spawn Interactive.HAS_PEXPECT Interactive.spawned
       Interactive.new_session Interactive._process Interactive.isalive
       Samples.env negb].
  eexists _, _, _, _. split; [reflexivity|].
  split; [vm_compute; discriminate|].
  split; [apply lookup_insert_eq|].
  split; [apply lookup_insert_eq | reflexivity].
Qed.




(** C5. [strip_smcl] is idempotent on every supported markup input, that is
    on every text in which no tag opens inside another tag. *)
Theorem strip_smcl_idempotent (x : text) :
  Markup.supported x = true ->
  Smcl.strip_smcl (Smcl.strip_smcl x) = Smcl.strip_smcl x.
Proof.
  intros H. apply SmclFacts.strip_smcl_fixed, SmclFacts.strip_smcl_flat.
  apply TagFacts.supported_flat, H.
Qed.

(** C5 at a worked text with known tags, a character escape and an
    unknown tag. *)
Lemma strip_smcl_idempotent_witness :
  Markup.supported (txt "{res}  price {txt}{hline 10}{c |}{unknown}6165.256{txt}") = true /\
  Smcl.strip_smcl (Smcl.strip_smcl (txt "{res}  price {txt}{hline 10}{c |}{unknown}6165.256{txt}"))
  = Smcl.strip_smcl (txt "{res}  price {txt}{hline 10}{c |}{unknown}6165.256{txt}").
Proof.
  split; [reflexivity | apply strip_smcl_idempotent; reflexivity].
Defined.

(** Outside the supported inputs idempotence fails: a known tag inside
    another tag's braces is removed and leaves a new tag behind. *)
Lemma strip_smcl_nested_not_idempotent :
  Markup.supported (txt "{t{txt}xt}") = false /\
  Smcl.strip_smcl (txt "{t{txt}xt}") = txt "{txt}" /\
  Smcl.strip_smcl (Smcl.strip_smcl (txt "{t{txt}xt}")) = [].
Proof. vm_compute. auto. Qed.

(** C6. After [take_snapshot], when exactly one new supported graph file
    appears in the watched directory (a regular file with a plain name new
    to the directory, whose suffix is a supported extension, which can be
    stat-ed and read), [detect_changes] returns exactly one artifact, the
    encoding of that file; a second [detect_changes] with the directory
    unchanged returns the empty list.  And for every cache and directory,
    [detect_changes] stores the fresh scan as the snapshot, so that a
    second call on the same directory returns the empty list, whether or
    not an encoding failed. *)
Theorem detect_changes_new_file
    (c : Graph.GraphCache) (e1 e2 : list (text * Graph.file))
    (n : text) (f : Graph.file) (mtime : Z) (raw : bytes) :
  let before := {| Graph.d_is_dir := true; Graph.d_entries := e1 ++ e2 |} in
  let after :=
    {| Graph.d_is_dir := true; Graph.d_entries := e1 ++ (n, f) :: e2 |} in
  n ∉ map fst (e1 ++ e2) ->
  Pathlib.sep ∉ n ->
  Pathlib.suffix n ∈ Graph._SUPPORTED_EXTENSIONS ->
  Graph.f_is_file f = true ->
  Graph.f_mtime f = Some mtime ->
  Graph.read_bytes (Graph.f_reads f) = inr raw ->
  (exists a,
     Graph.detect_changes (Graph.take_snapshot c before) after
       = ([a], Graph.take_snapshot c after) /\
     Graph.path a = Pathlib.joinpath (Graph.watch_dir c) n /\
     Graph.base64 a = Graph.b64encode raw /\
     Graph.detect_changes (Graph.take_snapshot c after) after
       = ([], Graph.take_snapshot c after)) /\
  (forall c' d',
     (Graph.detect_changes c' d').2 = Graph.take_snapshot c' d' /\
     Graph.detect_changes (Graph.take_snapshot c' d') d'
       = ([], Graph.take_snapshot c' d')).
Proof.
  intros before after H1 H2 H3 H4 H5 H6. split.
  - destruct (NewFileFacts.detect_new c e1 e2 n f mtime raw H1 H2 H3 H4 H5 H6)
      as [Ha Hb].
    eexists. split; [exact Ha|]. split; [reflexivity|].
    split; [reflexivity | exact Hb].
  - intros c' d'. apply CacheFacts.detect_changes_again.
Qed.

(** C6 at a worked directory: [g.png] appears next to [old.pdf]. *)
Lemma detect_changes_new_file_witness :
  exists a,
    Graph.detect_changes
      (Graph.take_snapshot (Graph.new_cache Samples.scratch)
         {| Graph.d_is_dir := true;
            Graph.d_entries := [(txt "old.pdf", Samples.old_pdf)] ++ [] |})
      {| Graph.d_is_dir := true;
         Graph.d_entries :=
           [(txt "old.pdf", Samples.old_pdf)]
           ++ (txt "g.png", Samples.new_png) :: [] |}
    = ([a],
       Graph.take_snapshot (Graph.new_cache Samples.scratch)
         {| Graph.d_is_dir := true;
            Graph.d_entries :=
              [(txt "old.pdf", Samples.old_pdf)]
              ++ (txt "g.png", Samples.new_png) :: [] |}) /\
    Graph.path a = Pathlib.joinpath Samples.scratch (txt "g.png") /\
    Graph.base64 a = Graph.b64encode Samples.png_bytes.
Proof.
  destruct (detect_changes_new_file (Graph.new_cache Samples.scratch)
              [(txt "old.pdf", Samples.old_pdf)] []
              (txt "g.png") Samples.new_png 200 Samples.png_bytes)
    as [(a & H1 & H2 & H3 & _) _].
  - apply (bool_decide_unpack _). vm_compute. exact I.
  - apply (bool_decide_unpack _). vm_compute. exact I.
  - apply (bool_decide_unpack _). vm_compute. exact I.
  - reflexivity.
  - reflexivity.
  - reflexivity.
  - exists a. split; [exact H1|]. split; [exact H2 | exact H3].
Defined.

(** C7 (as amended). [maybe_inject_graph_export] returns the code as it
    is when the code holds a graph-export directive, and also when it holds
    no graph-producing command; otherwise it returns the code without its
    trailing white space, followed by one new line that exports the graph
    to [stata_graph_<t>.png] in the scratch directory, [t] being the clock
    reading of the call in milliseconds, at width 2000 with [replace]; two
    different clock readings give two different results. *)
Theorem maybe_inject_graph_export_cases (code : text) (tmpdir : Path) (t : Z) :
  (Re.found Graph._HAS_EXPORT_RE code = true ->
   Graph.maybe_inject_graph_export code tmpdir t = code) /\
  (Re.found Graph._GRAPH_CMD_RE code = false ->
   Graph.maybe_inject_graph_export code tmpdir t = code) /\
  (Re.found Graph._HAS_EXPORT_RE code = false ->
   Re.found Graph._GRAPH_CMD_RE code = true ->
   Graph.maybe_inject_graph_export code tmpdir t =
     Text.rstrip code
     ++ "010"%char :: txt "quietly graph export "
     ++ dquote
        :: Pathlib.joinpath tmpdir
             (txt "stata_graph_" ++ Text.str_of_int t ++ txt ".png")
     ++ dquote :: txt ", width(2000) replace"
   /\ forall t', t' <> t ->
        Graph.maybe_inject_graph_export code tmpdir t'
        <> Graph.maybe_inject_graph_export code tmpdir t).
Proof.
  unfold Graph.maybe_inject_graph_export. repeat split.
  - intros ->. reflexivity.
  - intros ->. destruct (Re.found Graph._HAS_EXPORT_RE code); reflexivity.
  - rewrite H, H0. reflexivity.
  - rewrite H, H0. simpl. intros t' Ht E. apply Ht.
    apply app_inv_head, GraphFacts.export_line_inj in E.
    apply GraphFacts.joinpath_inj, GraphFacts.export_name_inj in E. exact E.
Qed.

(** C7 at three worked commands, one for each case. *)
Lemma maybe_inject_graph_export_cases_witness :
  (Re.found Graph._HAS_EXPORT_RE (txt "graph export g.png") = true /\
   Graph.maybe_inject_graph_export (txt "graph export g.png") (txt "/tmp/s") 17
   = txt "graph export g.png") /\
  (Re.found Graph._GRAPH_CMD_RE (txt "summarize price") = false /\
   Graph.maybe_inject_graph_export (txt "summarize price") (txt "/tmp/s") 17
   = txt "summarize price") /\
  (Re.found Graph._HAS_EXPORT_RE (txt "scatter y x ") = false /\
   Re.found Graph._GRAPH_CMD_RE (txt "scatter y x ") = true /\
   Graph.maybe_inject_graph_export (txt "scatter y x ") (txt "/tmp/s") 17
   = Text.rstrip (txt "scatter y x ")
     ++ "010"%char :: txt "quietly graph export "
     ++ dquote
        :: Pathlib.joinpath (txt "/tmp/s")
             (txt "stata_graph_" ++ Text.str_of_int 17 ++ txt ".png")
     ++ dquote :: txt ", width(2000) replace").
Proof.
  split; [|split].
  - split; [reflexivity|].
    apply (proj1 (maybe_inject_graph_export_cases (txt "graph export g.png") _ _)).
    reflexivity.
  - split; [reflexivity|].
    apply (proj1 (proj2 (maybe_inject_graph_export_cases (txt "summarize price") _ _))).
    reflexivity.
  - split; [reflexivity|]. split; [reflexivity|].
    apply (proj2 (proj2 (maybe_inject_graph_export_cases (txt "scatter y x ") _ _)));
      reflexivity.
Defined.

(** C7, the claim as written fails: the result does not begin with the
    original code when the code ends in white space. *)
Lemma maybe_inject_graph_export_drops_trailing_space :
  Re.found Graph._HAS_EXPORT_RE (txt "scatter y x ") = false /\
  Re.found Graph._GRAPH_CMD_RE (txt "scatter y x ") = true /\
  Graph.maybe_inject_graph_export (txt "scatter y x ") (txt "/tmp/s") 17
  = txt "scatter y x"
    ++ "010"%char :: txt "quietly graph export "
    ++ dquote :: txt "/tmp/s/stata_graph_17.png"
    ++ dquote :: txt ", width(2000) replace" /\
  ~ (exists appended,
       Graph.maybe_inject_graph_export (txt "scatter y x ") (txt "/tmp/s") 17
       = txt "scatter y x " ++ appended).
Proof.
  repeat split; try (vm_compute; reflexivity).
  intros [appended H]. vm_compute in H. discriminate H.
Qed.

(** C8. When the read-until-prompt of an interactive [execute] runs into
    the timeout, [execute] returns, and does not raise, the failure result
    whose message is ["Command timed out after <timeout>s"], with return
    code 1, no error code and no artifacts; the log is left as it was; the
    session keeps the process it submitted the command to; and once the
    command is submitted the call only reads from the process: it neither
    spawns nor terminates one.  If the session was alive when the call
    began, the call spawns no process at all. *)
Theorem execute_timeout_returns_failure
    (e : Interactive.call_env) (s s1 : Interactive.StataSession)
    (ops0 : list proc_op) (code : text) (timeout : Z) :
  Interactive._ensure_alive e s = (Return (), s1, ops0) ->
  Interactive.write_text e = None ->
  times_out (Interactive.answers e) = true ->
  exists r s' ops p,
    Interactive.execute e s code timeout = (Return r, s', ops0 ++ ops) /\
    output r = [] /\ return_code r = 1 /\ success r = false /\
    error_message r
      = Some (txt "Command timed out after " ++ Text.str_of_int timeout
              ++ txt "s") /\
    error_code r = None /\ graphs r = [] /\
    Interactive._log_buffer s' = Interactive._log_buffer s /\
    Interactive._process s1 = Some p /\
    Interactive._process s' = Some p /\
    Interactive._started s' = Interactive._started s1 /\
    Forall is_io ops /\
    (Op_terminate p ∉ ops0 ++ ops) /\
    (Interactive.is_alive e s = true ->
     ops0 = [] /\ Interactive._process s = Some p).
Proof.
  intros He Hw Ht.
  pose proof (SessionFacts.ensure_alive_facts _ _ _ _ _ He)
    as (Hl & _ & Hops0 & Hp & Halive).
  destruct (Hp eq_refl) as [p Hp1].
  unfold Interactive.execute. rewrite He, Hp1, Hw.
  destruct (Interactive._run_do_file e p _) as [r1 ops] eqn:R.
  pose proof (SessionFacts.run_do_file_ops _ _ _ _ _ R) as Hio.
  assert (r1 = Raise Pexpect_TIMEOUT) as ->.
  { unfold Interactive._run_do_file in R.
    pose proof (TimeoutFacts.expect_loop_times_out p (Interactive.answers e) [] Ht) as E.
    destruct (Interactive.expect_loop p (Interactive.answers e) []) as [r2 ops2].
    simpl in E. injection R as <- _. exact E. }
  eexists _, _, ops, p. split; [reflexivity|]. simpl.
  repeat split; auto.
  - intros Hin. apply elem_of_app in Hin as [Hin|Hin].
    + destruct Hops0 as [-> | ->].
      * apply elem_of_nil in Hin. contradiction.
      * apply list_elem_of_singleton in Hin. discriminate.
    + rewrite Forall_forall in Hio. apply (Hio _ Hin).
  - apply Halive. assumption.
  - destruct (Halive H) as (_ & <- & _). exact Hp1.
Qed.

(** C8 at a worked call: one continuation prompt, then silence. *)
Lemma execute_timeout_returns_failure_witness :
  Interactive._ensure_alive (Samples.env true [Matched_continuation None; Timed_out])
    Samples.live = (Return (), Samples.live, []) /\
  times_out [Matched_continuation None; Timed_out] = true /\
  exists r s' ops p,
    Interactive.execute (Samples.env true [Matched_continuation None; Timed_out])
      Samples.live (txt "sleep 600000") 5
      = (Return r, s', [] ++ ops) /\
    output r = [] /\ return_code r = 1 /\ success r = false /\
    error_message r
      = Some (txt "Command timed out after " ++ Text.str_of_int 5 ++ txt "s") /\
    error_code r = None /\ graphs r = [] /\
    Interactive._log_buffer s' = Interactive._log_buffer Samples.live /\
    Interactive._process Samples.live = Some p /\
    Interactive._process s' = Some p /\
    Interactive._started s' = Interactive._started Samples.live /\
    Forall is_io ops /\
    (Op_terminate p ∉ [] ++ ops) /\
    (Interactive.is_alive (Samples.env true [Matched_continuation None; Timed_out])
       Samples.live = true ->
     @nil proc_op = [] /\ Interactive._process Samples.live = Some p).
Proof.
  split; [reflexivity|]. split; [reflexivity|].
  apply (execute_timeout_returns_failure
           (Samples.env true [Matched_continuation None; Timed_out])
           Samples.live Samples.live [] (txt "sleep 600000") 5);
    reflexivity.
Defined.

(** C9. [encode_graph] raises the [ValueError] when the extension is not
    supported; with a supported extension it raises the error of the read
    when the file cannot be read; and when the file is read it returns an
    artifact whose width and height are absent unless the format is PNG,
    and for PNG are what [_png_dimensions] finds: absent when the header
    cannot be opened, is shorter than 24 bytes or has the wrong magic, and
    the two big-endian fields otherwise.  The encode itself succeeds in
    all these cases. *)
Theorem encode_graph_outcomes (fs : Path -> Graph.file_reads) (p : Path) :
  let suffix := Text.lower (Pathlib.suffix p) in
  (Graph.is_supported suffix = false ->
   Graph.encode_graph fs p = Raise (ValueError_unsupported_format suffix p)) /\
  (Graph.is_supported suffix = true ->
   forall e, Graph.read_bytes (fs p) = inl e ->
   Graph.encode_graph fs p = Raise (OSError e)) /\
  (Graph.is_supported suffix = true ->
   forall raw, Graph.read_bytes (fs p) = inr raw ->
   exists a,
     Graph.encode_graph fs p = Return a /\
     Graph.path a = p /\
     Graph.base64 a = Graph.b64encode raw /\
     (suffix <> txt ".png" ->
      Graph.width a = None /\ Graph.height a = None) /\
     (suffix = txt ".png" ->
      (Graph.width a, Graph.height a)
        = Graph._png_dimensions (Graph.open_rb (fs p)) /\
      match Graph.open_rb (fs p) with
      | inl _ => Graph.width a = None /\ Graph.height a = None
      | inr content =>
          ((length content < 24)%nat \/ firstn 8 content <> Graph.png_magic ->
           Graph.width a = None /\ Graph.height a = None) /\
          ((24 <= length content)%nat ->
           firstn 8 content = Graph.png_magic ->
           Graph.width a = Some (Graph.be32 (firstn 4 (skipn 16 content))) /\
           Graph.height a = Some (Graph.be32 (firstn 4 (skipn 20 content))))
      end)).
Proof.
  intros suffix. unfold Graph.encode_graph. fold suffix.
  split; [|split].
  - intros ->. reflexivity.
  - intros -> e ->. reflexivity.
  - intros -> raw ->. simpl negb. cbv iota.
    destruct (Text.text_eqb suffix (txt ".png")) eqn:E.
    + apply bool_decide_eq_true in E.
      destruct (Graph._png_dimensions (Graph.open_rb (fs p))) as [w h] eqn:D.
      eexists. split; [reflexivity|]. simpl.
      split; [reflexivity|]. split; [reflexivity|].
      split; [intros Hn; contradiction|]. intros _. split; [reflexivity|].
      pose proof (EncodeFacts.png_dimensions_cases (Graph.open_rb (fs p))) as C.
      destruct (Graph.open_rb (fs p)) as [e|content].
      * rewrite D in C. injection C as -> ->. auto.
      * rewrite D in C. destruct C as (C1 & C2 & C3). split.
        -- intros [Hl|Hm]; [specialize (C1 Hl) | specialize (C2 Hm)].
           ++ injection C1 as -> ->. auto.
           ++ injection C2 as -> ->. auto.
        -- intros Hl Hm. specialize (C3 Hl Hm). injection C3 as -> ->. auto.
    + apply bool_decide_eq_false in E.
      eexists. split; [reflexivity|]. simpl.
      split; [reflexivity|]. split; [reflexivity|].
      split; [auto|]. intros He. contradiction.
Qed.

(** C9 at a worked file: a PNG of 2000 by 1455 pixels. *)
Lemma encode_graph_outcomes_witness :
  Graph.is_supported (Text.lower (Pathlib.suffix (txt "/tmp/s/g.PNG"))) = true /\
  exists a,
    Graph.encode_graph
      (fun _ => Graph.f_reads Samples.new_png) (txt "/tmp/s/g.PNG")
      = Return a /\
    Graph.width a = Some 2000 /\ Graph.height a = Some 1455.
Proof.
  split; [reflexivity|].
  destruct (proj2 (proj2 (encode_graph_outcomes
                            (fun _ => Graph.f_reads Samples.new_png)
                            (txt "/tmp/s/g.PNG")))
              eq_refl Samples.png_bytes eq_refl)
    as (a & Ha & _ & _ & _ & Hpng).
  exists a. split; [exact Ha|].
  destruct (Hpng eq_refl) as [_ [_ Hdim]].
  apply Hdim; reflexivity.
Defined.

(** C10. [encode_graph] looks at the extension before it reads: a path
    whose extension is not supported raises the [ValueError] whatever the
    file system holds, also when the file does not exist; and a
    [FileNotFoundError] comes only from a path with a supported
    extension. *)
Theorem encode_graph_checks_extension_first (fs : Path -> Graph.file_reads) (p : Path) :
  (Graph.is_supported (Text.lower (Pathlib.suffix p)) = false ->
   Graph.encode_graph fs p
   = Raise (ValueError_unsupported_format (Text.lower (Pathlib.suffix p)) p)) /\
  (Graph.encode_graph fs p = Raise (OSError FileNotFoundError) ->
   Graph.is_supported (Text.lower (Pathlib.suffix p)) = true /\
   Graph.read_bytes (fs p) = inl FileNotFoundError).
Proof.
  unfold Graph.encode_graph. split.
  - intros ->. reflexivity.
  - destruct (Graph.is_supported _); simpl; [|discriminate].
    destruct (Graph.read_bytes (fs p)) as [e|raw].
    + intros [= ->]. auto.
    + destruct (if Text.text_eqb _ _ then _ else _). discriminate.
Qed.

(** C10 at two missing files, one with each kind of extension. *)
Lemma encode_graph_checks_extension_first_witness :
  (Graph.is_supported (Text.lower (Pathlib.suffix (txt "/tmp/s/missing.txt"))) = false /\
   Graph.encode_graph
     (fun _ => {| Graph.read_bytes := inl FileNotFoundError;
                  Graph.open_rb := inl FileNotFoundError |})
     (txt "/tmp/s/missing.txt")
   = Raise (ValueError_unsupported_format (txt ".txt") (txt "/tmp/s/missing.txt"))) /\
  (Graph.encode_graph
     (fun _ => {| Graph.read_bytes := inl FileNotFoundError;
                  Graph.open_rb := inl FileNotFoundError |})
     (txt "/tmp/s/missing.PNG")
   = Raise (OSError FileNotFoundError) /\
   Graph.is_supported (Text.lower (Pathlib.suffix (txt "/tmp/s/missing.PNG"))) = true).
Proof.
  split.
  - split; [reflexivity|].
    apply (proj1 (encode_graph_checks_extension_first _ (txt "/tmp/s/missing.txt"))).
    reflexivity.
  - split; [reflexivity|].
    apply (proj2 (encode_graph_checks_extension_first
             (fun _ => {| Graph.read_bytes := inl FileNotFoundError;
                          Graph.open_rb := inl FileNotFoundError |})
             (txt "/tmp/s/missing.PNG"))).
    reflexivity.
Defined.

(* ===================================================================== *)
(** * Further properties *)
(* ===================================================================== *)

(** ** [strip_smcl] *)

Module StripFacts.
Import Re ReLang ReFacts Markup TagFacts SmclFacts Smcl.

Section Shrink.
(** A pattern whose matches are not empty, replaced by text that is no
    longer than the match. *)
Variable e : regex.
Variable repl : rmatch -> text.
Hypothesis match_bounds : forall l r m,
  match_at e l r = Some m ->
  (1 <= m_len m)%nat /\ (length (repl m) <= m_len m)%nat.

Lemma match_within l r m :
  match_at e l r = Some m -> (m_len m <= length r)%nat.
Proof.
  intros H. apply match_at_sound in H as (u & v & -> & _ & ->).
  rewrite length_app. lia.
Qed.

Lemma sub_go_shrinks r : forall l skip,
  (skip <= length r)%nat ->
  (length (sub_go e repl l r skip) + skip <= length r)%nat.
Proof.
  induction r as [|c r IH]; intros l skip Hs; simpl in *.
  - destruct skip; [|lia].
    destruct (match_at e l []) as [m|] eqn:E; simpl; [|lia].
    pose proof (match_within _ _ _ E). destruct (match_bounds _ _ _ E).
    simpl in *. lia.
  - destruct skip as [|n].
    + destruct (match_at e l (c :: r)) as [m|] eqn:E.
      * pose proof (match_within _ _ _ E) as Hw.
        destruct (match_bounds _ _ _ E) as [H1 H2]. simpl in Hw.
        destruct (m_len m) as [|n] eqn:En; [lia|].
        rewrite length_app.
        specialize (IH (c :: l) n ltac:(lia)). lia.
      * simpl. specialize (IH (c :: l) 0%nat ltac:(lia)). lia.
    + specialize (IH (c :: l) n ltac:(lia)). lia.
Qed.

Lemma sub_shrinks s : (length (sub e repl s) <= length s)%nat.
Proof.
  unfold sub. pose proof (sub_go_shrinks s [] 0%nat ltac:(lia)). lia.
Qed.

End Shrink.

Lemma shaped_match_nonempty e l r m :
  (forall w, lang e w -> exists b, w = lb :: b ++ [rb] /\ rb ∉ b) ->
  match_at e l r = Some m -> (2 <= m_len m)%nat.
Proof.
  intros Hs H. apply match_at_sound in H as (u & v & _ & Hu & ->).
  apply Hs in Hu as (b & -> & _). simpl. rewrite length_app. simpl. lia.
Qed.

Lemma map_get_short key : (length (_SMCL_CHAR_MAP_get key) <= 1)%nat.
Proof.
  unfold _SMCL_CHAR_MAP_get.
  repeat match goal with
         | |- context [if ?c then _ else _] => destruct c; [simpl; lia|]
         end.
  simpl. lia.
Qed.

Lemma suffix_of_cons (t : text) c s :
  t `suffix_of` c :: s -> t = c :: s \/ t `suffix_of` s.
Proof.
  intros [k Hk]. destruct k as [|x k]; simpl in Hk.
  - left. congruence.
  - right. injection Hk as _ ->. exists k. reflexivity.
Qed.

(** No position of a flat text whose tags [e] does not match is matched
    by [e]. *)
Lemma flat_no_match e P s :
  (forall w, lang e w -> exists b, w = lb :: b ++ [rb] /\ rb ∉ b) ->
  (forall b, P b -> unmatched e b) ->
  flat P s ->
  forall l t, t `suffix_of` s -> match_at e l t = None.
Proof.
  intros Hs HP Hflat.
  assert (Hplain : forall u v, lb ∉ u ->
            (forall l t, t `suffix_of` v -> match_at e l t = None) ->
            forall l t, t `suffix_of` u ++ v -> match_at e l t = None).
  { induction u as [|c u IHu]; intros v Hu Hv l t Ht; simpl in *.
    - apply Hv, Ht.
    - apply not_elem_of_cons in Hu as [Hc Hu].
      apply suffix_of_cons in Ht as [-> | Ht].
      + apply no_match_other; auto.
      + eapply IHu; eauto. }
  induction Hflat as [|c s Hc _ IH|b s [Hb1 Hb2] HPb _ IH|b [Hb1 Hb2]];
    intros l t Ht.
  - apply suffix_nil_inv in Ht as ->. apply no_match_nil, Hs.
  - apply suffix_of_cons in Ht as [-> | Ht]; [|auto].
    apply no_match_other; auto.
  - apply suffix_of_cons in Ht as [-> | Ht]; [apply HP, HPb|].
    replace (b ++ rb :: s) with ((b ++ [rb]) ++ s) in Ht
      by (rewrite <- app_assoc; reflexivity).
    revert l t Ht. apply Hplain; [|exact IH].
    rewrite elem_of_app, list_elem_of_singleton.
    intros [?|?]; [auto | discriminate].
  - apply no_match_open; [exact Hs|].
    intros Hin. destruct Ht as [k Hk].
    assert (Hin' : rb ∈ lb :: b) by (rewrite Hk, elem_of_app; auto).
    apply elem_of_cons in Hin' as [?|?]; [discriminate | auto].
Qed.

Lemma flat_not_found e P s :
  (forall w, lang e w -> exists b, w = lb :: b ++ [rb] /\ rb ∉ b) ->
  (forall b, P b -> unmatched e b) ->
  flat P s -> found e s = false.
Proof.
  intros Hs HP Hflat.
  destruct (found e s) eqn:E; [|reflexivity].
  apply SearchFacts.found_iff in E as (a & b & -> & Hm).
  exfalso. apply Hm. eapply flat_no_match; eauto.
  exists a. reflexivity.
Qed.

End StripFacts.

(** X1. [strip_smcl] returns a text that holds no opening brace as it
    is. *)
Theorem strip_smcl_plain_unchanged (s : text) :
  Markup.lb ∉ s -> Smcl.strip_smcl s = s.
Proof.
  intros H. unfold Smcl.strip_smcl, Re.sub.
  rewrite <- (app_nil_r s) at 1.
  rewrite (TagFacts.sub_go_plain _ SmclFacts.char_shape) by assumption.
  rewrite (TagFacts.sub_go_nil _ SmclFacts.char_shape), app_nil_r.
  rewrite <- (app_nil_r s) at 1.
  rewrite (TagFacts.sub_go_plain _ SmclFacts.tag_shape) by assumption.
  rewrite (TagFacts.sub_go_nil _ SmclFacts.tag_shape), app_nil_r.
  reflexivity.
Qed.

(** X1 at a worked input. *)
Lemma strip_smcl_plain_unchanged_witness :
  (Markup.lb ∉ txt "The mean is 6165.26") /\
  Smcl.strip_smcl (txt "The mean is 6165.26") = txt "The mean is 6165.26".
Proof.
  assert (H : Markup.lb ∉ txt "The mean is 6165.26").
  { apply (bool_decide_unpack _). vm_compute. exact I. }
  split; [exact H | exact (strip_smcl_plain_unchanged _ H)].
Defined.

(** X2. [strip_smcl] never makes a text longer, whatever the text. *)
Theorem strip_smcl_never_longer (s : text) :
  (length (Smcl.strip_smcl s) <= length s)%nat.
Proof.
  unfold Smcl.strip_smcl.
  etransitivity; [apply StripFacts.sub_shrinks|].
  - intros l r m H. split.
    + pose proof (StripFacts.shaped_match_nonempty _ _ _ _ SmclFacts.tag_shape H).
      lia.
    + simpl. lia.
  - apply StripFacts.sub_shrinks. intros l r m H. split.
    + pose proof (StripFacts.shaped_match_nonempty _ _ _ _ SmclFacts.char_shape H).
      lia.
    + pose proof (StripFacts.shaped_match_nonempty _ _ _ _ SmclFacts.char_shape H).
      pose proof (StripFacts.map_get_short (Text.strip (Smcl.group1 m))).
      unfold Smcl._replace_char. lia.
Qed.

(** X3. On a supported markup input, [strip_smcl] leaves no character
    escape and no tag of the known vocabulary: neither pattern is found
    in the result. *)
Theorem strip_smcl_leaves_no_known_tag (s : text) :
  Markup.supported s = true ->
  Re.found Smcl._SMCL_CHAR_RE (Smcl.strip_smcl s) = false /\
  Re.found Smcl._SMCL_TAG_RE (Smcl.strip_smcl s) = false.
Proof.
  intros H. apply TagFacts.supported_flat, SmclFacts.strip_smcl_flat in H.
  split.
  - eapply (StripFacts.flat_not_found _ _ _ SmclFacts.char_shape); [|exact H].
    intros b [Hb _]. exact Hb.
  - eapply (StripFacts.flat_not_found _ _ _ SmclFacts.tag_shape); [|exact H].
    intros b [_ Hb]. exact Hb.
Qed.

(** X3 at a worked input. *)
Lemma strip_smcl_leaves_no_known_tag_witness :
  Markup.supported (txt "{res}  price {txt}{hline 10}{c |}{unknown}6165.256{txt}") = true /\
  Re.found Smcl._SMCL_CHAR_RE
    (Smcl.strip_smcl (txt "{res}  price {txt}{hline 10}{c |}{unknown}6165.256{txt}")) = false /\
  Re.found Smcl._SMCL_TAG_RE
    (Smcl.strip_smcl (txt "{res}  price {txt}{hline 10}{c |}{unknown}6165.256{txt}")) = false.
Proof.
  split; [reflexivity|].
  apply strip_smcl_leaves_no_known_tag. reflexivity.
Defined.

(** ** [_detect_error] *)

Module DetectFacts.
Import Text Re ReLang ReFacts SearchFacts TextFacts Classify ClassifySpec ClassifyFacts.

Lemma nullable_lang e : nullable e = false ->
  forall u, lang e u -> u <> [].
Proof.
  induction e as [|p|a IHa b IHb|a IHa b IHb|a IHa|p|p|a IHa| |];
    simpl; intros Hn u Hu; try discriminate.
  - destruct Hu as (c & -> & _). discriminate.
  - destruct Hu as (u1 & u2 & -> & H1 & H2).
    apply andb_false_iff in Hn as [Hn|Hn]; intros E;
      apply app_eq_nil in E as [-> ->]; [eapply IHa | eapply IHb]; eauto.
  - apply orb_false_iff in Hn as [Ha Hb]. destruct Hu; eauto.
  - apply Hu.
  - eauto.
Qed.

(** What [search] finds: the text splits around the match, and the match
    is a word of the pattern. *)
Lemma search_some e out pre m tok :
  search e out = Some (pre, m, tok) ->
  exists post, out = pre ++ tok ++ post /\ lang e tok.
Proof.
  intros H. apply search_from_some in H as (a & b & -> & -> & Hm & ->).
  apply match_at_sound in Hm as (u & v & -> & Hu & ->).
  exists v. rewrite firstn_app, firstn_all, Nat.sub_diag, app_nil_r.
  auto.
Qed.



(** Every line of [splitlines] is a piece of the text. *)
Lemma splitlines_go_pieces s : forall cur line,
  line ∈ splitlines_go cur s -> exists a b, rev cur ++ s = a ++ line ++ b.
Proof.
  induction s as [s IH] using (induction_ltof1 _ (@length ascii)).
  unfold ltof in IH. intros cur line Hin. destruct s as [|c s]; simpl in Hin.
  - destruct cur as [|x cur]; [apply elem_of_nil in Hin; contradiction|].
    apply list_elem_of_singleton in Hin as ->. exists [], [].
    rewrite !app_nil_r. reflexivity.
  - destruct (Text.is_linebreak c).
    + assert (Hhere : exists a b, rev cur ++ c :: s = a ++ rev cur ++ b)
        by (exists [], (c :: s); reflexivity).
      assert (Hrest : forall s', (length s' <= length s)%nat ->
                (exists k, c :: s = k ++ s') ->
                line ∈ splitlines_go [] s' ->
                exists a b, rev cur ++ c :: s = a ++ line ++ b).
      { intros s' Hlen [k Hk] Hl. apply IH in Hl as (a & b & E); [|simpl; lia].
        simpl in E. exists (rev cur ++ k ++ a), b.
        rewrite Hk, E, <- !app_assoc. reflexivity. }
      destruct s as [|c' s''].
      * apply list_elem_of_singleton in Hin as ->. exact Hhere.
      * destruct (Ascii.eqb c "013" && Ascii.eqb c' "010").
        -- apply elem_of_cons in Hin as [->|Hin]; [exact Hhere|].
           apply (Hrest s''); [simpl; lia | exists [c; c']; reflexivity | exact Hin].
        -- apply elem_of_cons in Hin as [->|Hin]; [exact Hhere|].
           apply (Hrest (c' :: s'')); [lia | exists [c]; reflexivity | exact Hin].
    + apply IH in Hin as (a & b & E); [|simpl; lia].
      exists a, b. rewrite <- E. simpl. rewrite <- app_assoc. reflexivity.
Qed.

Lemma splitlines_pieces s line :
  line ∈ splitlines s -> exists a b, s = a ++ line ++ b.
Proof. intros H. apply splitlines_go_pieces in H. exact H. Qed.

(** The parts of the message loop are the stripped forms of lines, none
    of them empty. *)
Lemma error_msg_parts_origin lines p :
  p ∈ error_msg_parts lines ->
  p <> [] /\ exists line, line ∈ lines /\ p = Text.strip line.
Proof.
  induction lines as [|line lines IH]; simpl; intros Hin.
  - apply elem_of_nil in Hin. contradiction.
  - destruct (found _ERROR_CODE_RE (Text.strip line)).
    + apply elem_of_nil in Hin. contradiction.
    + destruct (Text.strip line) as [|c t] eqn:E.
      * destruct (IH Hin) as (Hp & l & Hl & ->).
        split; [exact Hp|]. exists l. split; [right; exact Hl | reflexivity].
      * apply elem_of_cons in Hin as [->|Hin].
        -- split; [discriminate|]. exists line. split; [left | auto].
        -- destruct (IH Hin) as (Hp & l & Hl & ->).
           split; [exact Hp|]. exists l. split; [right; exact Hl | reflexivity].
Qed.

Lemma last_elem {A} (l : list A) x : last l = Some x -> x ∈ l.
Proof.
  induction l as [|y l IH]; simpl; [discriminate|].
  destruct l as [|z l]; [intros [= ->]; left | intros H; right; auto].
Qed.

Lemma infix_trans (s a b mid p q part : text) :
  s = a ++ mid ++ b -> mid = p ++ part ++ q ->
  exists a' b', s = a' ++ part ++ b'.
Proof.
  intros -> ->. exists (a ++ p), (q ++ b). rewrite <- !app_assoc. reflexivity.
Qed.

Lemma phrases_not_nullable :
  forallb (fun p => negb (nullable p)) (tail ERROR_PATTERNS) = true.
Proof. vm_compute. reflexivity. Qed.

(** A phrase that is found is a piece of the text, and is not empty. *)
Lemma first_phrase_origin ps out matched :
  forallb (fun p => negb (nullable p)) ps = true ->
  first_phrase ps out = Some matched ->
  matched <> [] /\ exists a b, out = a ++ matched ++ b.
Proof.
  induction ps as [|p ps IH]; simpl; intros Hn H; [discriminate|].
  apply andb_true_iff in Hn as [Hp Hn]. apply negb_true_iff in Hp.
  destruct (search p out) as [[[pre m] tok]|] eqn:E; [|auto].
  injection H as <-. apply search_some in E as (post & -> & Hl).
  split; [eapply nullable_lang; eauto | eauto].
Qed.

End DetectFacts.


(** X5. Whenever [_detect_error] returns a message, the message is not
    empty, and it is either a piece of the text or, next to a code, the
    generic ["Stata error r(<code>)"]. *)
Theorem detect_error_message_origin (out msg : text) :
  (Classify._detect_error out).1 = Some msg ->
  msg <> [] /\
  ((exists a b, out = a ++ msg ++ b) \/
   (exists c, (Classify._detect_error out).2 = Some c /\
      msg = txt "Stata error r(" ++ Text.str_of_int c ++ txt ")")).
Proof.
  unfold Classify._detect_error.
  destruct (Re.search Classify._ERROR_CODE_RE out) as [[[pre m] tok]|] eqn:E.
  - cbn [fst snd].
    destruct (last (Classify.error_msg_parts (Text.splitlines out)))
      as [p|] eqn:L.
    + intros [= <-]. apply DetectFacts.last_elem in L.
      apply DetectFacts.error_msg_parts_origin in L as (Hp & line & Hl & ->).
      split; [exact Hp|]. left.
      apply DetectFacts.splitlines_pieces in Hl as (a & b & Hs).
      destruct (TextFacts.strip_infix line) as (p & q & Hq).
      eapply DetectFacts.infix_trans; eauto.
    + intros [= <-]. split; [discriminate|]. right. eauto.
  - destruct (Classify.first_phrase _ out) as [matched|] eqn:F;
      [|discriminate].
    cbn [fst snd]. intros [= <-].
    apply DetectFacts.first_phrase_origin in F
      as [Hne Hin]; [|apply DetectFacts.phrases_not_nullable].
    auto.
Qed.

(** X5 at a worked input. *)
Lemma detect_error_message_origin_witness :
  (Classify._detect_error (txt "variable foo not found")).1
    = Some (txt "variable foo not found") /\
  txt "variable foo not found" <> [] /\
  ((exists a b,
      txt "variable foo not found" = a ++ txt "variable foo not found" ++ b) \/
   (exists c,
      (Classify._detect_error (txt "variable foo not found")).2 = Some c /\
      txt "variable foo not found"
        = txt "Stata error r(" ++ Text.str_of_int c ++ txt ")")).
Proof.
  split; [vm_compute; reflexivity|].
  apply (detect_error_message_origin (txt "variable foo not found")).
  vm_compute. reflexivity.
Defined.

(** ** [StataSession] *)

Module ExecuteFacts.
Import Interactive SessionFacts.

Lemma expect_loop_shape p ans : forall parts r ops,
  expect_loop p ans parts = (r, ops) ->
  ops <> [] /\ Forall (fun o => o = Op_expect p) ops /\
  (r = Raise Pexpect_TIMEOUT \/ r = Raise Pexpect_EOF \/ exists t, r = Return t).
Proof.
  induction ans as [|a ans IH]; intros parts r ops H; simpl in H.
  - injection H as <- <-. split; [discriminate|]. split; auto.
  - destruct a.
    + injection H as <- <-. split; [discriminate|]. split; eauto.
    + destruct (expect_loop p ans (parts ++ [or_empty before]))
        as [r' ops'] eqn:E.
      injection H as <- <-. destruct (IH _ _ _ E) as (_ & Hf & Hr).
      split; [discriminate|]. split; auto.
    + injection H as <- <-. split; [discriminate|]. split; auto.
    + injection H as <- <-. split; [discriminate|]. split; auto.
Qed.

Lemma run_do_file_shape e p do_file r ops :
  _run_do_file e p do_file = (r, ops) ->
  is_submission p ops /\
  (r = Raise Pexpect_TIMEOUT \/ r = Raise Pexpect_EOF \/ exists t, r = Return t).
Proof.
  unfold _run_do_file.
  destruct (expect_loop p (answers e) []) as [r' ops'] eqn:E.
  intros [= <- <-]. apply expect_loop_shape in E as (Hne & Hf & Hr).
  split; [|exact Hr]. eexists _, ops'. auto.
Qed.

Lemma expect_loop_eof p ans : forall parts,
  ends_in_eof ans = true ->
  (expect_loop p ans parts).1 = Raise Pexpect_EOF.
Proof.
  induction ans as [|a ans IH]; intros parts H; simpl in *; [discriminate|].
  destruct a; try discriminate; [|reflexivity].
  specialize (IH (parts ++ [or_empty before]) H).
  destruct (expect_loop p ans _) as [r ops]. exact IH.
Qed.

(** The cases of [execute], by what happens before and after the command
    is submitted. *)
Lemma execute_cases e s code timeout :
  (exists x s1 ops0,
     _ensure_alive e s = (Raise x, s1, ops0) /\
     execute e s code timeout = (Raise x, s1, ops0)) \/
  (exists s1 ops0 p,
     _ensure_alive e s = (Return (), s1, ops0) /\ _process s1 = Some p /\
     ((exists err,
         write_text e = Some err /\
         execute e s code timeout
         = (Raise (OSError err),
            set_graph_cache s1
              (Graph.take_snapshot (_graph_cache s1) (dir_before e)),
            ops0)) \/
      (write_text e = None /\
       exists r s' ops,
         execute e s code timeout = (Return r, s', ops0 ++ ops) /\
         is_submission p ops /\
         (_process s' = Some p \/ (r = eof_result e /\ _process s' = None))))).
Proof.
  destruct (_ensure_alive e s) as [[o s1] ops0] eqn:E.
  pose proof (ensure_alive_facts _ _ _ _ _ E) as (_ & _ & _ & Hp & _).
  destruct o as [[]|x]; [|left; exists x, s1, ops0; split; [reflexivity|];
                          unfold execute; rewrite E; reflexivity].
  destruct (Hp eq_refl) as [p Hp1]. right. exists s1, ops0, p.
  split; [reflexivity|]. split; [exact Hp1|].
  unfold execute. rewrite E, Hp1.
  destruct (write_text e) as [err|]; [left; eauto|]. right.
  split; [reflexivity|].
  destruct (_run_do_file e p _) as [r1 ops] eqn:R.
  apply run_do_file_shape in R as (Hsub & [->|[->|[t ->]]]).
  - eexists _, _, ops. split; [reflexivity|]. split; [exact Hsub|].
    left. exact Hp1.
  - eexists _, _, ops. split; [reflexivity|]. split; [exact Hsub|].
    right. auto.
  - destruct (Classify._detect_error _) as [em ec].
    destruct (Graph.detect_changes _ _) as [gs cache].
    eexists _, _, ops. split; [reflexivity|]. split; [exact Hsub|].
    left. exact Hp1.
Qed.

Lemma join_snoc sep (l : list text) t :
  Text.join sep (l ++ [t])
  = match l with [] => t | _ => Text.join sep l ++ sep ++ t end.
Proof.
  induction l as [|x l IH]; [reflexivity|].
  destruct l as [|y l]; [reflexivity|].
  change ((x :: y :: l) ++ [t]) with (x :: ((y :: l) ++ [t])).
  change (Text.join sep (x :: (y :: l) ++ [t]))
    with (x ++ sep ++ Text.join sep ((y :: l) ++ [t])).
  rewrite IH.
  change (Text.join sep (x :: y :: l)) with (x ++ sep ++ Text.join sep (y :: l)).
  rewrite <- !app_assoc. reflexivity.
Qed.

End ExecuteFacts.

Module StripTwice.
Import Text TextFacts.

Lemma lstrip_head s c t : lstrip s = c :: t -> is_space c = false.
Proof.
  induction s as [|x s IH]; simpl; [discriminate|].
  destruct (is_space x) eqn:E; [exact IH | intros [= <- _]; exact E].
Qed.

Lemma lstrip_fixed c t : is_space c = false -> lstrip (c :: t) = c :: t.
Proof. intros H. simpl. rewrite H. reflexivity. Qed.

Lemma lstrip_twice s : lstrip (lstrip s) = lstrip s.
Proof.
  destruct (lstrip s) as [|c t] eqn:E; [reflexivity|].
  apply lstrip_fixed. eapply lstrip_head, E.
Qed.

(** What [rstrip] returns is empty or ends in a character that is not
    white space. *)
Lemma rstrip_last s :
  rstrip s = [] \/ exists x c, rstrip s = x ++ [c] /\ is_space c = false.
Proof.
  induction s as [|y s IH]; simpl; [auto|].
  destruct (rstrip s) as [|z t] eqn:E.
  - destruct (is_space y) eqn:Hy; [auto|]. right. exists [], y. auto.
  - right. destruct IH as [?|(x & c & Hx & Hc)]; [discriminate|].
    exists (y :: x), c. rewrite Hx. auto.
Qed.

(** What [strip] returns is empty, or begins and ends with characters
    that are not white space. *)
Lemma strip_shape s :
  strip s = [] \/
  exists x c, strip s = lstrip x ++ [c] /\ is_space c = false.
Proof.
  unfold strip. destruct (rstrip_last s) as [->|(x & c & -> & Hc)]; [auto|].
  right. exists x, c. split; [|exact Hc].
  apply (lstrip_keep x c []). exact Hc.
Qed.

Lemma strip_twice s : strip (strip s) = strip s.
Proof.
  destruct (strip_shape s) as [->|(x & c & -> & Hc)]; [reflexivity|].
  unfold strip. rewrite (rstrip_keep (lstrip x) c []) by exact Hc.
  simpl. rewrite (lstrip_keep (lstrip x) c []) by exact Hc.
  rewrite lstrip_twice. reflexivity.
Qed.

Lemma strip_ends s :
  (forall c, head (strip s) = Some c -> is_space c = false) /\
  (forall c, last (strip s) = Some c -> is_space c = false).
Proof.
  split; intros c H.
  - unfold strip in *. destruct (lstrip (rstrip s)) as [|y t] eqn:E;
      [discriminate|]. injection H as ->. eapply lstrip_head, E.
  - destruct (strip_shape s) as [E|(x & y & E & Hy)]; rewrite E in H.
    + discriminate.
    + rewrite last_snoc in H. congruence.
Qed.

End StripTwice.



(** X7. Whatever [StataSession.execute] does and however it ends, it
    never terminates a process; it spawns at most one, only before it
    submits the command and never when the session is alive; and it
    submits at most one line, to one process, followed by one read or
    more from that process and by nothing else (the send is taken to
    succeed). *)
Theorem execute_process_operations
    (e : Interactive.call_env) (s : Interactive.StataSession)
    (code : text) (timeout : Z) o s' ops :
  Interactive.execute e s code timeout = (o, s', ops) ->
  exists before after,
    ops = before ++ after /\
    (before = [] \/ before = [Op_spawn]) /\
    (after = [] \/ exists p, is_submission p after) /\
    (forall p, Op_terminate p ∉ ops) /\
    (Interactive.is_alive e s = true -> before = []).
Proof.
  intros H.
  assert (Hno : forall before after,
            (before = [] \/ before = [Op_spawn]) ->
            (after = [] \/ exists p, is_submission p after) ->
            forall p, Op_terminate p ∉ before ++ after).
  { intros before after Hb Ha p Hin.
    apply elem_of_app in Hin as [Hin|Hin].
    - destruct Hb as [->| ->].
      + apply elem_of_nil in Hin. contradiction.
      + apply list_elem_of_singleton in Hin. discriminate.
    - destruct Ha as [->|(q & line & reads & -> & _ & Hr)].
      + apply elem_of_nil in Hin. contradiction.
      + apply elem_of_cons in Hin as [?|Hin]; [discriminate|].
        rewrite Forall_forall in Hr. apply Hr in Hin. discriminate. }
  destruct (ExecuteFacts.execute_cases e s code timeout)
    as [(x & s1 & ops0 & He & Hx)|(s1 & ops0 & p & He & _ & H')].
  - rewrite Hx in H. injection H as <- <- <-.
    pose proof (SessionFacts.ensure_alive_facts _ _ _ _ _ He)
      as (_ & _ & Hops & _ & Ha).
    exists ops0, []. rewrite app_nil_r.
    repeat split; auto.
    + intros q. rewrite <- (app_nil_r ops0). apply Hno; auto.
    + intros Hal. apply Ha in Hal as (_ & _ & ->). reflexivity.
  - pose proof (SessionFacts.ensure_alive_facts _ _ _ _ _ He)
      as (_ & _ & Hops & _ & Ha).
    assert (Hal : Interactive.is_alive e s = true -> ops0 = []).
    { intros Hal. apply Ha in Hal as (_ & _ & ->). reflexivity. }
    destruct H' as [(err & _ & Hx)|(_ & r & s2 & ops2 & Hx & Hsub & _)];
      rewrite Hx in H; injection H as <- <- <-.
    + exists ops0, []. rewrite app_nil_r. repeat split; auto.
      intros q. rewrite <- (app_nil_r ops0). apply Hno; auto.
    + exists ops0, ops2. repeat split; eauto.
Qed.

(** X7 at a worked input. *)
Lemma execute_process_operations_witness :
  exists o s' ops before after,
    Interactive.execute (Samples.env false Samples.answers_display)
      Samples.live (txt "display 1+1") 120 = (o, s', ops) /\
    ops = before ++ after /\
    before = [Op_spawn] /\
    (after = [] \/ exists p, is_submission p after) /\
    (forall p, Op_terminate p ∉ ops).
Proof.
  destruct (Interactive.execute (Samples.env false Samples.answers_display)
              Samples.live (txt "display 1+1") 120) as [[o s'] ops] eqn:E.
  destruct (execute_process_operations _ _ _ _ _ _ _ E)
    as (before & after & Hops & Hb & Ha & Hn & _).
  exists o, s', ops, before, after.
  split; [reflexivity|]. split; [exact Hops|].
  split; [|split; [exact Ha | exact Hn]].
  destruct Hb as [->| ->]; [|reflexivity].
  exfalso. vm_compute in E. injection E as _ _ <-.
  simpl in Hops. destruct Ha as [->|(p & line & reads & -> & _)];
    discriminate.
Defined.

(** X8. When the read-until-prompt of [StataSession.execute] meets the
    end of the stream, [execute] returns the failure result
    ["Stata process terminated unexpectedly"] with return code 1, leaves
    the log as it was, and leaves the session without a process, so that
    it is not alive whatever the world says. *)
Theorem execute_eof_marks_session_dead
    (e : Interactive.call_env) (s s1 : Interactive.StataSession)
    (ops0 : list proc_op) (code : text) (timeout : Z) :
  Interactive._ensure_alive e s = (Return (), s1, ops0) ->
  Interactive.write_text e = None ->
  ends_in_eof (Interactive.answers e) = true ->
  exists r s' ops,
    Interactive.execute e s code timeout = (Return r, s', ops0 ++ ops) /\
    output r = [] /\ return_code r = 1 /\ success r = false /\
    error_message r = Some (txt "Stata process terminated unexpectedly") /\
    error_code r = None /\ graphs r = [] /\
    Interactive._log_buffer s' = Interactive._log_buffer s /\
    Interactive._process s' = None /\
    Interactive._started s' = false /\
    (forall e', Interactive.is_alive e' s' = false).
Proof.
  intros He Hw Ht.
  pose proof (SessionFacts.ensure_alive_facts _ _ _ _ _ He)
    as (Hl & _ & _ & Hp & _).
  destruct (Hp eq_refl) as [p Hp1].
  unfold Interactive.execute. rewrite He, Hp1, Hw.
  destruct (Interactive._run_do_file e p _) as [r1 ops] eqn:R.
  assert (r1 = Raise Pexpect_EOF) as ->.
  { unfold Interactive._run_do_file in R.
    pose proof (ExecuteFacts.expect_loop_eof p (Interactive.answers e) [] Ht) as E.
    destruct (Interactive.expect_loop p (Interactive.answers e) []) as [r2 ops2].
    simpl in E. injection R as <- _. exact E. }
  eexists _, _, ops. split; [reflexivity|]. simpl.
  repeat split; auto.
Qed.

(** X8 at a worked input. *)
Lemma execute_eof_marks_session_dead_witness :
  ends_in_eof [Matched_continuation None; End_of_file] = true /\
  exists r s' ops,
    Interactive.execute
      (Samples.env true [Matched_continuation None; End_of_file])
      Samples.live (txt "exit, clear") 120 = (Return r, s', [] ++ ops) /\
    output r = [] /\ return_code r = 1 /\ success r = false /\
    error_message r = Some (txt "Stata process terminated unexpectedly") /\
    error_code r = None /\ graphs r = [] /\
    Interactive._log_buffer s' = Interactive._log_buffer Samples.live /\
    Interactive._process s' = None /\
    Interactive._started s' = false /\
    (forall e', Interactive.is_alive e' s' = false).
Proof.
  split; [reflexivity|].
  apply (execute_eof_marks_session_dead
           (Samples.env true [Matched_continuation None; End_of_file])
           Samples.live Samples.live []);
    reflexivity.
Defined.



(** X10. [get_log] after [StataSession.execute]: a call that returns the
    timeout or the end-of-stream failure leaves [get_log] as it was; any
    other call that returns appends its output, on a line of its own when
    the log was not empty. *)
Theorem execute_extends_get_log
    (e : Interactive.call_env) (s : Interactive.StataSession)
    (code : text) (timeout : Z) r s' ops :
  Interactive.execute e s code timeout = (Return r, s', ops) ->
  ((r = Interactive.timeout_result e timeout \/ r = Interactive.eof_result e) /\
   Interactive.get_log s' = Interactive.get_log s) \/
  Interactive.get_log s'
  = match Interactive._log_buffer s with
    | [] => output r
    | _ => Interactive.get_log s ++ "010"%char :: output r
    end.
Proof.
  intros H. unfold Interactive.get_log.
  apply SessionFacts.execute_result in H
    as (_ & [[-> ->]|[[-> ->]|(-> & _)]]); auto.
  right. apply ExecuteFacts.join_snoc.
Qed.

(** X10 at a worked input. *)
Lemma execute_extends_get_log_witness :
  exists r s' ops,
    Interactive.execute (Samples.env true Samples.answers_display)
      Samples.live (txt "display 1+1") 120 = (Return r, s', ops) /\
    output r = txt "2" /\
    Interactive.get_log s' = txt "2" ++ "010"%char :: txt "2".
Proof.
  destruct (Interactive.execute (Samples.env true Samples.answers_display)
              Samples.live (txt "display 1+1") 120) as [[o s'] ops] eqn:E.
  assert (Ho : exists r, o = Return r /\ output r = txt "2").
  { vm_compute in E. injection E as <- _ _. eexists. split; reflexivity. }
  destruct Ho as (r & -> & Hout).
  exists r, s', ops. split; [reflexivity|]. split; [exact Hout|].
  destruct (execute_extends_get_log _ _ _ _ _ _ _ E) as [[[Hr|Hr] _]|H].
  - exfalso. rewrite Hr in Hout. discriminate.
  - exfalso. rewrite Hr in Hout. discriminate.
  - rewrite H, Hout. reflexivity.
Defined.

(** X11. What [_clean_do_output] returns is stripped: stripping it again
    changes nothing, and its first and last characters, if any, are not
    white space. *)
Theorem clean_do_output_is_stripped (out : text) (do_file : Path) :
  Text.strip (Interactive._clean_do_output out do_file)
  = Interactive._clean_do_output out do_file /\
  (forall c, head (Interactive._clean_do_output out do_file) = Some c ->
     Text.is_space c = false) /\
  (forall c, last (Interactive._clean_do_output out do_file) = Some c ->
     Text.is_space c = false).
Proof.
  unfold Interactive._clean_do_output. split.
  - apply StripTwice.strip_twice.
  - apply StripTwice.strip_ends.
Qed.

(** X12. [StataSession.close] leaves the session without a process, so
    that it is not alive whatever the world answers, and keeps its log.
    It never spawns; it talks to the process only when that one is alive,
    and terminates it only when it is still alive after the exit command
    was sent.  Closing a closed session changes nothing and does nothing
    to any process. *)
Theorem close_leaves_session_dead
    (e : Interactive.call_env) (alive_after_exit : option bool)
    (s s' : Interactive.StataSession) (ops : list proc_op) :
  Interactive.close e alive_after_exit s = (s', ops) ->
  (forall e', Interactive.is_alive e' s' = false) /\
  Interactive.get_log s' = Interactive.get_log s /\
  Interactive.session_id s' = Interactive.session_id s /\
  (Op_spawn ∉ ops) /\
  (Interactive.is_alive e s = false -> ops = []) /\
  (forall p, Op_terminate p ∈ ops ->
     Interactive._process s = Some p /\ Interactive.is_alive e s = true /\
     alive_after_exit = Some true) /\
  (forall e2 a2, Interactive.close e2 a2 s' = (s', [])).
Proof.
  unfold Interactive.close, Interactive.is_alive.
  destruct (Interactive._process s) as [p|] eqn:Hp.
  - intros [= <- <-]. simpl. repeat split.
    + destruct (Interactive.isalive e) as [[]|]; simpl;
        [destruct alive_after_exit as [[]|]|..];
        intros H; repeat (apply elem_of_cons in H as [H|H]; [discriminate|]);
        apply elem_of_nil in H; exact H.
    + destruct (Interactive.isalive e) as [[]|]; [discriminate|auto..].
    + destruct (Interactive.isalive e) as [[]|]; simpl in H;
        [|apply elem_of_nil in H; contradiction..].
      destruct alive_after_exit as [[]|]; simpl in H;
        repeat (apply elem_of_cons in H as [H|H]; [congruence|]);
        apply elem_of_nil in H; contradiction.
    + destruct (Interactive.isalive e) as [[]|]; simpl in H;
        [reflexivity|apply elem_of_nil in H; contradiction..].
    + destruct (Interactive.isalive e) as [[]|]; simpl in H;
        [|apply elem_of_nil in H; contradiction..].
      destruct alive_after_exit as [[]|]; simpl in H; [reflexivity|..];
        repeat (apply elem_of_cons in H as [H|H]; [discriminate|]);
        apply elem_of_nil in H; contradiction.
  - intros [= <- <-]. rewrite Hp. repeat split; auto.
    + apply not_elem_of_nil.
    + apply elem_of_nil in H. contradiction.
    + apply elem_of_nil in H. contradiction.
    + apply elem_of_nil in H. contradiction.
Qed.

(** X12 at a worked input. *)
Lemma close_leaves_session_dead_witness :
  exists s',
    Interactive.close (Samples.env true []) (Some true) Samples.live
    = (s', [Op_sendline 7%nat (txt "exit, clear"); Op_expect 7%nat;
            Op_terminate 7%nat]) /\
    (forall e', Interactive.is_alive e' s' = false) /\
    Interactive.get_log s' = txt "2" /\
    (forall e2 a2, Interactive.close e2 a2 s' = (s', [])).
Proof.
  eexists. split; [reflexivity|].
  destruct (close_leaves_session_dead (Samples.env true []) (Some true)
              Samples.live _ _ eq_refl) as (H1 & H2 & _ & _ & _ & _ & H7).
  split; [exact H1|]. split; [exact H2 | exact H7].
Defined.

Module BatchFacts.
Import Batch.

(** The cases of [BatchSession.execute]. *)
Lemma batch_execute_cases e s code timeout :
  let s0 :=
    set_graph_cache (set_started s true)
      (Graph.take_snapshot (_graph_cache s) (dir_before e)) in
  match write_text e with
  | Some err => execute e s code timeout = (Raise (OSError err), s0)
  | None =>
      match _run_batch e with
      | Raise x =>
          (x = Subprocess_TimeoutExpired /\ run e = TimeoutExpired /\
           execute e s code timeout
           = (Return
                (timeout_result e timeout
                   (Pathlib.joinpath (_tmpdir s)
                      (txt "_batch_" ++ uuid_hex12 e ++ txt ".log"))),
              s0)) \/
          (exists err,
             x = OSError err /\
             (run e = Run_OSError err \/
              log_file_state e = Log_unreadable err) /\
             execute e s code timeout = (Raise x, s0))
      | Return raw =>
          exists r s',
            execute e s code timeout = (Return r, s') /\
            output r = Smcl.strip_smcl raw /\
            _log_buffer s' = _log_buffer s ++ [output r] /\
            _started s' = true /\ session_id s' = session_id s /\
            _tmpdir s' = _tmpdir s
      end
  end.
Proof.
  intros s0.
  assert (Hs : (if negb (_started s) then start s else s) = set_started s true).
  { unfold start, set_started. destruct s as [i sid t g l []]; reflexivity. }
  unfold execute. rewrite Hs. fold s0.
  destruct (write_text e) as [err|]; [reflexivity|].
  destruct (_run_batch e) as [raw|x] eqn:R.
  - destruct (Classify._detect_error _) as [em ec].
    destruct (Graph.detect_changes _ _) as [gs cache].
    eexists _, _. split; [reflexivity|]. simpl. auto.
  - unfold _run_batch in R.
    destruct (run e) eqn:Hr.
    + destruct (log_file_state e) eqn:Hl; try discriminate.
      injection R as <-. right. eauto.
    + injection R as <-. left. auto.
    + injection R as <-. right. eauto.
Qed.

End BatchFacts.



(** X14. When the batch process runs past the timeout,
    [BatchSession.execute] returns a failure result: empty output, return
    code 1, no error code, no graphs, the message
    ["Batch command timed out after <timeout>s"], and the path of the log
    file exactly when that file exists.  Nothing is appended to the
    session's log. *)
Theorem batch_timeout_returns_failure
    (e : Batch.call_env) (s : Batch.BatchSession) (code : text)
    (timeout : Z) :
  Batch.write_text e = None ->
  Batch.run e = Batch.TimeoutExpired ->
  exists r s',
    Batch.execute e s code timeout = (Return r, s') /\
    output r = [] /\ return_code r = 1 /\ success r = false /\
    error_message r
    = Some (txt "Batch command timed out after " ++ Text.str_of_int timeout
            ++ txt "s") /\
    error_code r = None /\ graphs r = [] /\
    log_path r
    = (if Batch.log_exists e
       then Some (Pathlib.joinpath (Batch._tmpdir s)
                    (txt "_batch_" ++ Batch.uuid_hex12 e ++ txt ".log"))
       else None) /\
    Batch.get_log s' = Batch.get_log s.
Proof.
  intros Hw Hr.
  pose proof (BatchFacts.batch_execute_cases e s code timeout) as C.
  cbv zeta in C. rewrite Hw in C.
  assert (Hb : Batch._run_batch e = Raise Subprocess_TimeoutExpired).
  { unfold Batch._run_batch. rewrite Hr. reflexivity. }
  rewrite Hb in C.
  destruct C as [(_ & _ & C)|(err & [=] & _)].
  eexists _, _. split; [exact C|]. simpl. repeat split.
Qed.

(** X14 at a worked input. *)
Lemma batch_timeout_returns_failure_witness :
  exists r s',
    Batch.execute
      {| Batch.clock_ms := 1700000000000;
         Batch.dir_before := Samples.empty_dir;
         Batch.uuid_hex12 := txt "0123456789ab";
         Batch.write_text := None;
         Batch.run := Batch.TimeoutExpired;
         Batch.log_file_state := Batch.Log_text (txt ". sleep 100000");
         Batch.dir_after := Samples.empty_dir;
         Batch.elapsed := 5 |}
      Samples.batch (txt "sleep 100000") 5 = (Return r, s') /\
    output r = [] /\ return_code r = 1 /\ success r = false /\
    error_message r = Some (txt "Batch command timed out after 5s") /\
    error_code r = None /\ graphs r = [] /\
    log_path r
    = Some (txt "/tmp/stata_session_ab12/_batch_0123456789ab.log") /\
    Batch.get_log s' = Batch.get_log Samples.batch.
Proof.
  apply (batch_timeout_returns_failure
           {| Batch.clock_ms := 1700000000000;
              Batch.dir_before := Samples.empty_dir;
              Batch.uuid_hex12 := txt "0123456789ab";
              Batch.write_text := None;
              Batch.run := Batch.TimeoutExpired;
              Batch.log_file_state := Batch.Log_text (txt ". sleep 100000");
              Batch.dir_after := Samples.empty_dir;
              Batch.elapsed := 5 |}
           Samples.batch (txt "sleep 100000") 5);
    reflexivity.
Defined.

(** X15. [BatchSession.execute] never looks at the exit status of the
    batch process, nor at what it wrote to its standard streams: two
    completed runs that leave the same log give the same result and the
    same session, so success is judged from the log alone. *)
Theorem batch_execute_ignores_exit_status
    (e e' : Batch.call_env) (s : Batch.BatchSession) (code : text)
    (timeout : Z) (rc rc' : Z) (out out' err err' : bytes) :
  Batch.run e = Batch.CompletedProcess rc out err ->
  Batch.run e' = Batch.CompletedProcess rc' out' err' ->
  Batch.dir_before e' = Batch.dir_before e ->
  Batch.uuid_hex12 e' = Batch.uuid_hex12 e ->
  Batch.write_text e' = Batch.write_text e ->
  Batch.log_file_state e' = Batch.log_file_state e ->
  Batch.dir_after e' = Batch.dir_after e ->
  Batch.elapsed e' = Batch.elapsed e ->
  Batch.execute e' s code timeout = Batch.execute e s code timeout.
Proof.
  destruct e, e'. simpl. intros -> -> -> -> -> -> -> ->.
  reflexivity.
Qed.

(** X15 at a worked input. *)
Lemma batch_execute_ignores_exit_status_witness :
  Batch.execute
    {| Batch.clock_ms := 1700000000000;
       Batch.dir_before := Samples.empty_dir;
       Batch.uuid_hex12 := txt "0123456789ab";
       Batch.write_text := None;
       Batch.run := Batch.CompletedProcess 0 [] [];
       Batch.log_file_state := Batch.Log_missing;
       Batch.dir_after := Samples.empty_dir;
       Batch.elapsed := 3 |}
    Samples.batch (txt "display 1+1") 120
  = Batch.execute Samples.env_no_log Samples.batch (txt "display 1+1") 120.
Proof.
  apply (batch_execute_ignores_exit_status Samples.env_no_log _
           Samples.batch (txt "display 1+1") 120
           1 0 (String.list_byte_of_string "unrecognized command r(199);")
           [] [] []);
    reflexivity.
Defined.

(** ** [SessionManager] *)

Module ManagerFacts.
Import Manager Closing.

(** What [create] does to the registry and to the store. *)
Lemma create_cases e m h sid o m' h' :
  create e m h sid = (o, m', h') ->
  let a := fresh (dom h) in
  h !! a = None /\
  installation m' = installation m /\ _use_batch m' = _use_batch m /\
  ((exists onew,
      o = Return a /\ _sessions m' = <[sid := a]> (_sessions m) /\
      h' = <[a := onew]> h /\ get_log onew = [] /\
      (forall b, onew = Batch_session b -> Batch.is_alive b = true)) \/
   (exists x onew,
      o = Raise x /\ m' = m /\ h' = <[a := onew]> h /\
      _use_batch m = false /\
      ((x = RuntimeError_pexpect_missing /\ Interactive.HAS_PEXPECT e = false) \/
       (Interactive.HAS_PEXPECT e = true /\ Interactive.spawned e = Raise x)))).
Proof.
  intros H a.
  assert (Ha : h !! a = None) by (apply not_elem_of_dom, is_fresh).
  split; [exact Ha|]. unfold create in H. fold a in H.
  destruct (_use_batch m) eqn:Hb.
  - injection H as <- <- <-. simpl. split; [reflexivity|]. split; [auto|].
    left. eexists. repeat split; eauto. intros b [= <-]. reflexivity.
  - unfold Interactive.start, Interactive.spawn in H. simpl in H.
    destruct (Interactive.HAS_PEXPECT e) eqn:Hp; simpl in H.
    + destruct (Interactive.spawned e) as [p|x] eqn:Hs.
      * injection H as <- <- <-. simpl. split; [reflexivity|].
        split; [auto|]. left. eexists. repeat split; eauto. discriminate.
      * injection H as <- <- <-. split; [reflexivity|].
        split; [auto|]. right. eexists _, _. repeat split; eauto.
    + injection H as <- <- <-. split; [reflexivity|].
      split; [auto|]. right. eexists _, _. repeat split; eauto.
Qed.

(** The cases of [get_or_create]: the registered object is alive and is
    returned, or a session is created, in a registry that no longer
    holds the id. *)
Lemma get_or_create_cases e m h sid :
  (exists a o,
     _sessions m !! sid = Some a /\ h !! a = Some o /\ is_alive e o = true /\
     get_or_create e m h sid = (Return a, m, h)) \/
  (get_or_create e m h sid
   = create e (set_sessions m (delete sid (_sessions m))) h sid).
Proof.
  unfold get_or_create.
  destruct (_sessions m !! sid) as [a|] eqn:Hm.
  - destruct (h !! a) as [o|] eqn:Hh; simpl; [|right; reflexivity].
    destruct (is_alive e o) eqn:Ha; simpl; [|right; reflexivity].
    left. exists a, o. auto.
  - right. f_equal. destruct m as [d i b]. unfold set_sessions. simpl in *.
    f_equal. symmetry. apply delete_id. exact Hm.
Qed.

Lemma close_closed e aae o o' ops :
  close e aae o = (o', ops) -> closed o' /\ get_log o' = get_log o.
Proof.
  destruct o as [s|b]; simpl.
  - destruct (Interactive.close e aae s) as [s' ops'] eqn:E.
    intros [= <- <-].
    unfold Interactive.close in E.
    destruct (Interactive._process s) eqn:Hp; injection E as <- _.
    + split; [intros e'; reflexivity | reflexivity].
    + split; [|reflexivity]. intros e'. simpl.
      unfold Interactive.is_alive. rewrite Hp. reflexivity.
  - intros [= <- <-]. split; [intros e'; reflexivity | reflexivity].
Qed.

(** What [close_session] does to the registry and to the store. *)
Lemma close_session_cases e aae m h sid m' h' ops :
  close_session e aae m h sid = (m', h', ops) ->
  _sessions m' = delete sid (_sessions m) /\
  installation m' = installation m /\ _use_batch m' = _use_batch m /\
  ((m' = m /\ h' = h /\ ops = [] /\ _sessions m !! sid = None) \/
   (h' = h /\ ops = [] /\
    exists a, _sessions m !! sid = Some a /\ h !! a = None) \/
   (exists a o o',
      _sessions m !! sid = Some a /\ h !! a = Some o /\
      h' = <[a := o']> h /\ closed o' /\ get_log o' = get_log o /\
      close e aae o = (o', ops))).
Proof.
  unfold close_session.
  destruct (_sessions m !! sid) as [a|] eqn:Hm.
  - destruct (h !! a) as [o|] eqn:Hh.
    + destruct (close e aae o) as [o' ops'] eqn:E.
      intros [= <- <- <-]. simpl. repeat split.
      right. right. exists a, o, o'.
      apply close_closed in E as Hc. destruct Hc. auto 10.
    + intros [= <- <- <-]. simpl. repeat split.
      right. left. eauto.
  - intros [= <- <- <-]. rewrite delete_id by exact Hm. repeat split.
    left. auto.
Qed.

(** A closed object stays closed, and an object stays where it is,
    through a [close_session]. *)
Lemma close_session_store e aae m h sid m' h' ops a o :
  close_session e aae m h sid = (m', h', ops) ->
  h !! a = Some o ->
  exists o', h' !! a = Some o' /\ get_log o' = get_log o /\
             (closed o -> closed o') /\
             (_sessions m !! sid = Some a -> closed o') /\
             (_sessions m !! sid <> Some a -> o' = o).
Proof.
  intros H Ho.
  apply close_session_cases in H
    as (_ & _ & _ & [(_ & -> & _ & Hn)|[(-> & _ & a1 & Hm & Hn)|
                     (a1 & o1 & o1' & Hm & Hh & -> & Hc & Hl & _)]]).
  - exists o. repeat split; auto. intros Hm. congruence.
  - exists o. repeat split; auto. intros Hm'. congruence.
  - destruct (decide (a1 = a)) as [->|Hne].
    + rewrite lookup_insert_eq. exists o1'.
      assert (o1 = o) as -> by congruence.
      repeat split; auto. intros Hx. congruence.
    + rewrite lookup_insert_ne by exact Hne. exists o.
      repeat split; auto. intros Hx. congruence.
Qed.

Lemma close_session_absent e aae m h sid m' h' ops a :
  close_session e aae m h sid = (m', h', ops) ->
  h !! a = None -> h' !! a = None.
Proof.
  intros H Ha.
  apply close_session_cases in H
    as (_ & _ & _ & [(_ & -> & _)|[(-> & _)|
                     (a1 & o1 & o1' & _ & Hh & -> & _)]]); auto.
  rewrite lookup_insert_ne; [exact Ha|]. intros <-. congruence.
Qed.

Lemma close_all_fold world l : forall m h ops m' h' ops',
  NoDup l ->
  fold_left (close_step world) l (m, h, ops) = (m', h', ops') ->
  (forall k, k ∈ l -> _sessions m' !! k = None) /\
  (forall k, k ∉ l -> _sessions m' !! k = _sessions m !! k) /\
  installation m' = installation m /\ _use_batch m' = _use_batch m /\
  (forall a o, h !! a = Some o ->
     exists o', h' !! a = Some o' /\ get_log o' = get_log o /\
                (closed o -> closed o') /\
                ((exists k, k ∈ l /\ _sessions m !! k = Some a) -> closed o') /\
                ((forall k, k ∈ l -> _sessions m !! k <> Some a) -> o' = o)) /\
  (forall a, h !! a = None -> h' !! a = None).
Proof.
  induction l as [|k l IH]; intros m h ops m' h' ops' Hnd H.
  - simpl in H. injection H as <- <- <-. repeat split; auto.
    + intros k Hk. apply elem_of_nil in Hk. contradiction.
    + intros a o Ho. exists o. repeat split; auto.
      intros (k & Hk & _). apply elem_of_nil in Hk. contradiction.
  - apply NoDup_cons in Hnd as [Hk Hnd]. simpl in H.
    destruct (close_session (world k).1 (world k).2 m h k)
      as [[m1 h1] ops1] eqn:E.
    pose proof (close_session_cases _ _ _ _ _ _ _ _ E) as (Hd & Hi & Hb & _).
    destruct (IH _ _ _ _ _ _ Hnd H) as (I1 & I2 & I3 & I4 & I5 & I6).
    split; [|split; [|split; [|split; [|split]]]].
    + intros k' Hk'. apply elem_of_cons in Hk' as [->|Hk']; [|auto].
      rewrite (I2 k Hk), Hd. apply lookup_delete_eq.
    + intros k' Hk'. apply not_elem_of_cons in Hk' as [Hne Hk'].
      rewrite (I2 k' Hk'), Hd. apply lookup_delete_ne. congruence.
    + congruence.
    + congruence.
    + intros a o Ho.
      destruct (close_session_store _ _ _ _ _ _ _ _ a o E Ho)
        as (o1 & Ho1 & Hl1 & Hc1 & Hk1 & Hs1).
      destruct (I5 a o1 Ho1) as (o' & Ho' & Hl' & Hc' & Hk' & Hs').
      exists o'. split; [exact Ho'|]. split; [congruence|].
      split; [auto|]. split.
      * intros (k' & Hin & Hm). apply elem_of_cons in Hin as [->|Hin].
        -- auto.
        -- apply Hk'. exists k'. split; [exact Hin|].
           rewrite Hd, lookup_delete_ne; [exact Hm|].
           intros <-. contradiction.
      * intros Hno. rewrite Hs', Hs1; [reflexivity| |].
        -- apply Hno. left.
        -- intros k' Hin. rewrite Hd. intros Hx.
           apply lookup_delete_Some in Hx as [_ Hx].
           apply (Hno k'); [right; exact Hin | exact Hx].
    + intros a Ha. apply I6. eapply close_session_absent; eauto.
Qed.

Lemma close_all_unfold world m h :
  close_all world m h
  = fold_left (close_step world) (map fst (map_to_list (_sessions m)))
      (m, h, []).
Proof. reflexivity. Qed.

End ManagerFacts.

(** X16. What [get_or_create] returns is registered under the id and
    held by the store; and as long as that object is alive, a further
    [get_or_create] for the id returns the same object and changes
    neither the registry nor the store.  A batch session, once handed
    out, is handed out again whatever the world answers. *)
Theorem get_or_create_reuses_live_session
    (e : Interactive.call_env) (m m1 : Manager.SessionManager)
    (h h1 : gmap nat Manager.session) (sid : text) (a : nat) :
  Manager.get_or_create e m h sid = (Return a, m1, h1) ->
  Manager._sessions m1 !! sid = Some a /\
  exists o,
    h1 !! a = Some o /\
    (forall e2, Manager.is_alive e2 o = true ->
       Manager.get_or_create e2 m1 h1 sid = (Return a, m1, h1)) /\
    (forall b e2, o = Manager.Batch_session b ->
       Manager.get_or_create e2 m1 h1 sid = (Return a, m1, h1)).
Proof.
  intros H.
  assert (Hre : forall o, Manager._sessions m1 !! sid = Some a ->
            h1 !! a = Some o ->
            forall e2, Manager.is_alive e2 o = true ->
            Manager.get_or_create e2 m1 h1 sid = (Return a, m1, h1)).
  { intros o Hm Hh e2 Ha. unfold Manager.get_or_create.
    rewrite Hm, Hh, Ha. reflexivity. }
  destruct (ManagerFacts.get_or_create_cases e m h sid)
    as [(a0 & o & Hm & Hh & Ha & E)|E]; rewrite E in H.
  - injection H as <- <- <-. split; [exact Hm|]. exists o.
    split; [exact Hh|]. split; [eauto|].
    intros b e2 ->. eapply Hre; eauto.
  - apply ManagerFacts.create_cases in H
      as (_ & _ & Hb & [(onew & [= ->] & Hs & -> & _ & Hbatch)
                       |(x & onew & [=] & _)]).
    assert (Hm1 : Manager._sessions m1 !! sid = Some (fresh (dom h))).
    { rewrite Hs. simpl. apply lookup_insert_eq. }
    split; [exact Hm1|]. exists onew.
    assert (Hh1 : <[fresh (dom h) := onew]> h !! fresh (dom h) = Some onew)
      by apply lookup_insert_eq.
    split; [exact Hh1|]. split; [eauto|].
    intros b e2 ->. eapply Hre; eauto.
Qed.

(** X16 at a worked input. *)
Lemma get_or_create_reuses_live_session_witness :
  Manager._sessions Samples.registry !! txt "default" = Some 0%nat /\
  exists o,
    Samples.objects !! 0%nat = Some o /\
    (forall e2, Manager.is_alive e2 o = true ->
       Manager.get_or_create e2 Samples.registry Samples.objects
         (txt "default")
       = (Return 0%nat, Samples.registry, Samples.objects)).
Proof.
  destruct (get_or_create_reuses_live_session
              (Samples.env true []) Samples.registry Samples.registry
              Samples.objects Samples.objects (txt "default") 0%nat)
    as (H1 & o & H2 & H3 & _).
  - vm_compute. reflexivity.
  - split; [exact H1|]. exists o. split; [exact H2 | exact H3].
Defined.

(** X17. [get_or_create] leaves the other ids of the registry as they
    are and never replaces an object the store holds; it changes neither
    the installation nor the kind of sessions of the manager.  This holds
    whether it returns or raises. *)
Theorem get_or_create_leaves_others
    (e : Interactive.call_env) (m m1 : Manager.SessionManager)
    (h h1 : gmap nat Manager.session) (sid : text) (o : outcome nat) :
  Manager.get_or_create e m h sid = (o, m1, h1) ->
  (forall sid', sid' <> sid ->
     Manager._sessions m1 !! sid' = Manager._sessions m !! sid') /\
  (forall a' o', h !! a' = Some o' -> h1 !! a' = Some o') /\
  Manager.installation m1 = Manager.installation m /\
  Manager._use_batch m1 = Manager._use_batch m.
Proof.
  intros H.
  destruct (ManagerFacts.get_or_create_cases e m h sid)
    as [(a0 & o0 & Hm & Hh & Ha & E)|E]; rewrite E in H.
  - injection H as <- <- <-. auto.
  - apply ManagerFacts.create_cases in H as (Hfresh & Hi & Hb & Hc).
    assert (Hkeep : forall onew a' o', h !! a' = Some o' ->
              <[fresh (dom h) := onew]> h !! a' = Some o').
    { intros onew a' o' Ho. rewrite lookup_insert_ne; [exact Ho|].
      intros <-. congruence. }
    destruct Hc as [(onew & _ & Hs & -> & _)|(x & onew & _ & -> & -> & _)].
    + repeat split; auto. intros sid' Hne. rewrite Hs. simpl.
      rewrite lookup_insert_ne by congruence.
      apply lookup_delete_ne. congruence.
    + repeat split; auto. intros sid' Hne. simpl.
      apply lookup_delete_ne. congruence.
Qed.

(** X17 at a worked input. *)
Lemma get_or_create_leaves_others_witness :
  exists o m1 h1,
    Manager.get_or_create (Samples.env false []) Samples.registry
      Samples.objects (txt "second") = (o, m1, h1) /\
    Manager._sessions m1 !! txt "default" = Some 0%nat /\
    h1 !! 0%nat = Some (Manager.Interactive_session Samples.live).
Proof.
  destruct (Manager.get_or_create (Samples.env false []) Samples.registry
              Samples.objects (txt "second")) as [[o m1] h1] eqn:E.
  exists o, m1, h1. split; [reflexivity|].
  destruct (get_or_create_leaves_others _ _ _ _ _ _ _ E) as (H1 & H2 & _).
  split.
  - rewrite H1 by discriminate. vm_compute. reflexivity.
  - apply H2. vm_compute. reflexivity.
Defined.

(** X18. With the creation of the scratch directory taken to succeed,
    [get_or_create] raises only when an interactive session cannot be
    started: [pexpect] is missing, or the spawn raises, and what is
    raised is that error.  A manager of batch sessions never raises.
    After the failure the id is not registered, even when a dead session
    was registered under it before the call. *)
Theorem get_or_create_failure_unregisters
    (e : Interactive.call_env) (m m1 : Manager.SessionManager)
    (h h1 : gmap nat Manager.session) (sid : text) (x : exn) :
  Manager.get_or_create e m h sid = (Raise x, m1, h1) ->
  Manager._use_batch m = false /\
  Manager._sessions m1 !! sid = None /\
  ((x = RuntimeError_pexpect_missing /\ Interactive.HAS_PEXPECT e = false) \/
   (Interactive.HAS_PEXPECT e = true /\ Interactive.spawned e = Raise x)).
Proof.
  intros H.
  destruct (ManagerFacts.get_or_create_cases e m h sid)
    as [(a0 & o0 & Hm & Hh & Ha & E)|E]; rewrite E in H; [discriminate|].
  apply ManagerFacts.create_cases in H
    as (_ & _ & _ & [(onew & [=] & _)|(x' & onew & [= <-] & -> & _ & Hb & Hx)]).
  split; [exact Hb|]. split; [|exact Hx]. simpl. apply lookup_delete_eq.
Qed.

(** X18 at a worked input. *)
Lemma get_or_create_failure_unregisters_witness :
  exists m1 h1,
    Manager.get_or_create
      {| Interactive.HAS_PEXPECT := false;
         Interactive.isalive := Some false;
         Interactive.tmpdir_exists := true;
         Interactive.mkdtemp := txt "/tmp/stata_session_cd34";
         Interactive.spawned := Return 8%nat;
         Interactive.clock_ms := 1700000000000;
         Interactive.dir_before := Samples.empty_dir;
         Interactive.uuid_hex12 := txt "0123456789ab";
         Interactive.write_text := None;
         Interactive.answers := [];
         Interactive.dir_after := Samples.empty_dir;
         Interactive.elapsed := 3 |}
      Samples.registry Samples.objects (txt "default")
    = (Raise RuntimeError_pexpect_missing, m1, h1) /\
    Manager._sessions Samples.registry !! txt "default" = Some 0%nat /\
    Manager._sessions m1 !! txt "default" = None.
Proof.
  destruct (Manager.get_or_create _ _ _ _) as [[o m1] h1] eqn:E.
  assert (o = Raise RuntimeError_pexpect_missing) as ->.
  { pose proof E as E'. vm_compute in E'. injection E' as <- _ _.
    reflexivity. }
  exists m1, h1. split; [reflexivity|]. split; [vm_compute; reflexivity|].
  exact (proj1 (proj2 (get_or_create_failure_unregisters _ _ _ _ _ _ _ E))).
Defined.

(** X19. [close_session] removes the id from the registry and leaves
    the other ids as they are.  The object that was registered under the
    id is closed, keeps its log, and stays in the store; every other
    object of the store is untouched.  For an id that is not registered
    nothing changes and nothing is done to any process. *)
Theorem close_session_unregisters
    (e : Interactive.call_env) (alive_after_exit : option bool)
    (m m' : Manager.SessionManager) (h h' : gmap nat Manager.session)
    (sid : text) (ops : list proc_op) :
  Closing.close_session e alive_after_exit m h sid = (m', h', ops) ->
  Manager._sessions m' !! sid = None /\
  (forall sid', sid' <> sid ->
     Manager._sessions m' !! sid' = Manager._sessions m !! sid') /\
  (forall a o, Manager._sessions m !! sid = Some a -> h !! a = Some o ->
     exists o', h' !! a = Some o' /\ closed o' /\
                Manager.get_log o' = Manager.get_log o) /\
  (forall a, Manager._sessions m !! sid <> Some a -> h' !! a = h !! a) /\
  (Manager._sessions m !! sid = None -> m' = m /\ h' = h /\ ops = []) /\
  (forall e2 a2, Closing.close_session e2 a2 m' h' sid = (m', h', [])).
Proof.
  intros H.
  pose proof (ManagerFacts.close_session_cases _ _ _ _ _ _ _ _ H)
    as (Hd & _ & _ & Hc).
  assert (Hgone : Manager._sessions m' !! sid = None)
    by (rewrite Hd; apply lookup_delete_eq).
  split; [exact Hgone|]. split.
  { intros sid' Hne. rewrite Hd. apply lookup_delete_ne. congruence. }
  split.
  { intros a o Hm Ho.
    destruct (ManagerFacts.close_session_store _ _ _ _ _ _ _ _ a o H Ho)
      as (o' & Ho' & Hl & _ & Hcl & _).
    exists o'. auto. }
  split.
  { intros a Hne. destruct (h !! a) as [o|] eqn:Ho.
    - destruct (ManagerFacts.close_session_store _ _ _ _ _ _ _ _ a o H Ho)
        as (o' & Ho' & _ & _ & _ & Hs).
      rewrite Ho', (Hs Hne). reflexivity.
    - eapply ManagerFacts.close_session_absent; eauto. }
  split.
  { intros Hn. destruct Hc as [(-> & -> & -> & _)|[(_ & _ & a & Hm & _)
                              |(a & o & o' & Hm & _)]]; [auto|congruence..]. }
  intros e2 a2. unfold Closing.close_session. rewrite Hgone. reflexivity.
Qed.

(** X19 at a worked input. *)
Lemma close_session_unregisters_witness :
  exists m' h' ops,
    Closing.close_session (Samples.env true []) (Some false)
      Samples.registry Samples.objects (txt "default") = (m', h', ops) /\
    ops = [Op_sendline 7%nat (txt "exit, clear"); Op_expect 7%nat] /\
    Manager._sessions m' !! txt "default" = None /\
    exists o', h' !! 0%nat = Some o' /\ closed o' /\
               Manager.get_log o' = txt "2".
Proof.
  destruct (Closing.close_session (Samples.env true []) (Some false)
              Samples.registry Samples.objects (txt "default"))
    as [[m' h'] ops] eqn:E.
  exists m', h', ops. split; [reflexivity|].
  split; [vm_compute in E; injection E as _ _ <-; reflexivity|].
  destruct (close_session_unregisters _ _ _ _ _ _ _ _ E)
    as (H1 & _ & H3 & _).
  split; [exact H1|].
  apply (H3 0%nat (Manager.Interactive_session Samples.live));
    vm_compute; reflexivity.
Defined.

(** X20. [close_all] empties the registry.  Every object that was
    registered is closed and keeps its log; every other object of the
    store is untouched, and no object is added. *)
Theorem close_all_empties_registry
    (world : text -> Interactive.call_env * option bool)
    (m m' : Manager.SessionManager) (h h' : gmap nat Manager.session)
    (ops : list proc_op) :
  Closing.close_all world m h = (m', h', ops) ->
  Manager._sessions m' = ∅ /\
  (forall sid a o, Manager._sessions m !! sid = Some a -> h !! a = Some o ->
     exists o', h' !! a = Some o' /\ closed o' /\
                Manager.get_log o' = Manager.get_log o) /\
  (forall a, (forall sid, Manager._sessions m !! sid <> Some a) ->
     h' !! a = h !! a) /\
  dom h' = dom h.
Proof.
  intros H. rewrite ManagerFacts.close_all_unfold in H.
  apply ManagerFacts.close_all_fold in H
    as (I1 & I2 & _ & _ & I5 & I6); [|apply NoDup_fst_map_to_list].
  assert (Hin : forall k a, Manager._sessions m !! k = Some a ->
            k ∈ map fst (map_to_list (Manager._sessions m))).
  { intros k a Hk. apply list_elem_of_fmap. exists (k, a).
    split; [reflexivity|]. apply elem_of_map_to_list. exact Hk. }
  split.
  { apply map_eq. intros k. rewrite lookup_empty.
    destruct (Manager._sessions m !! k) as [a|] eqn:Hk.
    - apply I1. eapply Hin, Hk.
    - rewrite I2; [exact Hk|]. intros Hx.
      apply list_elem_of_fmap in Hx as ([k' a] & -> & Hx).
      apply elem_of_map_to_list in Hx. simpl in Hk. congruence. }
  split.
  { intros sid a o Hm Ho. destruct (I5 a o Ho) as (o' & Ho' & Hl & _ & Hc & _).
    exists o'. split; [exact Ho'|]. split; [|exact Hl].
    apply Hc. exists sid. split; [eapply Hin, Hm | exact Hm]. }
  split.
  { intros a Hno. destruct (h !! a) as [o|] eqn:Ho.
    - destruct (I5 a o Ho) as (o' & Ho' & _ & _ & _ & Hs).
      rewrite Ho', Hs; [reflexivity|]. intros k _. apply Hno.
    - apply I6, Ho. }
  apply set_eq. intros a. rewrite !elem_of_dom. split.
  - intros Hs. destruct (h !! a) eqn:Ho; [eauto|].
    rewrite (I6 a Ho) in Hs. destruct Hs; discriminate.
  - intros [o Ho]. destruct (I5 a o Ho) as (o' & Ho' & _). eauto.
Qed.

(** X20 at a worked input. *)
Lemma close_all_empties_registry_witness :
  exists m' h' ops,
    Closing.close_all (fun _ => (Samples.env true [], Some false))
      Samples.registry Samples.objects = (m', h', ops) /\
    Manager._sessions m' = ∅ /\
    exists o', h' !! 0%nat = Some o' /\ closed o' /\
               Manager.get_log o' = txt "2".
Proof.
  destruct (Closing.close_all (fun _ => (Samples.env true [], Some false))
              Samples.registry Samples.objects) as [[m' h'] ops] eqn:E.
  exists m', h', ops. split; [reflexivity|].
  destruct (close_all_empties_registry _ _ _ _ _ _ E) as (H1 & H2 & _).
  split; [exact H1|].
  apply (H2 (txt "default") 0%nat (Manager.Interactive_session Samples.live));
    vm_compute; reflexivity.
Defined.

(** X21. The registry and the store stay in agreement through
    [get_or_create], [close_session] and [close_all]: when every
    registered address holds an object and no two ids share one, the same
    is true afterwards, whether the call returns or raises.  So two
    different ids never get the same session object. *)
Theorem registry_stays_ok
    (m : Manager.SessionManager) (h : gmap nat Manager.session) :
  registry_ok m h ->
  (forall e sid o m' h',
     Manager.get_or_create e m h sid = (o, m', h') -> registry_ok m' h') /\
  (forall e a sid m' h' ops,
     Closing.close_session e a m h sid = (m', h', ops) -> registry_ok m' h') /\
  (forall world m' h' ops,
     Closing.close_all world m h = (m', h', ops) -> registry_ok m' h').
Proof.
  intros [Hin Hinj]. split; [|split].
  - intros e sid o m' h' H.
    destruct (ManagerFacts.get_or_create_cases e m h sid)
      as [(a0 & o0 & Hm & Hh & Ha & E)|E]; rewrite E in H.
    { injection H as <- <- <-. split; assumption. }
    apply ManagerFacts.create_cases in H as (Hfresh & _ & _ & Hc).
    assert (Hold : forall k a, delete sid (Manager._sessions m) !! k = Some a ->
              Manager._sessions m !! k = Some a /\ a <> fresh (dom h)).
    { intros k a Hk. apply lookup_delete_Some in Hk as [_ Hk].
      split; [exact Hk|]. intros ->. apply Hin in Hk as [? Hk]. congruence. }
    destruct Hc as [(onew & _ & Hs & -> & _)|(x & onew & _ & -> & -> & _)].
    + simpl in Hs. split.
      * intros k a Hk. rewrite Hs in Hk.
        apply lookup_insert_Some in Hk as [[<- <-]|[Hne Hk]].
        -- rewrite lookup_insert_eq. eauto.
        -- apply Hold in Hk as [Hk Hna].
           rewrite lookup_insert_ne by congruence. eapply Hin, Hk.
      * intros k k' a Hk Hk'. rewrite Hs in Hk, Hk'.
        apply lookup_insert_Some in Hk as [[<- <-]|[Hne Hk]];
          apply lookup_insert_Some in Hk' as [[<- Ha]|[Hne' Hk']]; auto.
        -- apply Hold in Hk' as [_ Hna]. contradiction.
        -- apply Hold in Hk as [_ Hna]. subst. contradiction.
        -- apply Hold in Hk as [Hk _]. apply Hold in Hk' as [Hk' _]. eauto.
    + simpl. split.
      * intros k a Hk. apply Hold in Hk as [Hk Hna].
        rewrite lookup_insert_ne by congruence. eapply Hin, Hk.
      * intros k k' a Hk Hk'.
        apply Hold in Hk as [Hk _]. apply Hold in Hk' as [Hk' _]. eauto.
  - intros e a sid m' h' ops H.
    pose proof (ManagerFacts.close_session_cases _ _ _ _ _ _ _ _ H)
      as (Hd & _ & _ & _).
    split.
    + intros k a0 Hk. rewrite Hd in Hk.
      apply lookup_delete_Some in Hk as [_ Hk].
      destruct (Hin _ _ Hk) as [o Ho].
      destruct (ManagerFacts.close_session_store _ _ _ _ _ _ _ _ a0 o H Ho)
        as (o' & Ho' & _). eauto.
    + intros k k' a0 Hk Hk'. rewrite Hd in Hk, Hk'.
      apply lookup_delete_Some in Hk as [_ Hk].
      apply lookup_delete_Some in Hk' as [_ Hk']. eauto.
  - intros world m' h' ops H.
    rewrite ManagerFacts.close_all_unfold in H.
    apply ManagerFacts.close_all_fold in H
      as (I1 & I2 & _ & _ & I5 & _); [|apply NoDup_fst_map_to_list].
    assert (Hsub : forall k a, Manager._sessions m' !! k = Some a ->
              Manager._sessions m !! k = Some a).
    { intros k a Hk.
      destruct (decide (k ∈ map fst (map_to_list (Manager._sessions m))))
        as [Hi|Hi].
      - rewrite (I1 k Hi) in Hk. discriminate.
      - rewrite <- (I2 k Hi). exact Hk. }
    split.
    + intros k a Hk. apply Hsub in Hk. destruct (Hin _ _ Hk) as [o Ho].
      destruct (I5 a o Ho) as (o' & Ho' & _). eauto.
    + intros k k' a Hk Hk'. apply Hsub in Hk. apply Hsub in Hk'. eauto.
Qed.

(** X21 at a worked input. *)
Lemma registry_stays_ok_witness :
  registry_ok Samples.registry Samples.objects /\
  forall o m' h',
    Manager.get_or_create (Samples.env false []) Samples.registry
      Samples.objects (txt "second") = (o, m', h') ->
    registry_ok m' h'.
Proof.
  assert (Hok : registry_ok Samples.registry Samples.objects).
  { split.
    - intros sid a H. unfold Samples.registry in H. simpl in H.
      apply lookup_singleton_Some in H as [_ <-].
      vm_compute. eauto.
    - intros sid sid' a H H'. unfold Samples.registry in H, H'.
      simpl in H, H'.
      apply lookup_singleton_Some in H as [<- _].
      apply lookup_singleton_Some in H' as [<- _]. reflexivity. }
  split; [exact Hok|].
  intros o m' h'.
  apply (proj1 (registry_stays_ok Samples.registry Samples.objects Hok)).
Defined.

(** ** The graph cache *)

Module ScanFacts.
Import Graph ScanSpec DictFacts CacheFacts GraphFacts NewFileFacts.

Lemma be32_go_bound bs : forall acc,
  0 <= acc ->
  0 <= fold_left (fun acc b => 256 * acc + Z.of_N (Byte.to_N b)) bs acc
    < (acc + 1) * 256 ^ Z.of_nat (length bs).
Proof.
  induction bs as [|b bs IH]; intros acc Hacc.
  - simpl. lia.
  - cbn [fold_left length].
    pose proof (Byte.to_N_bounded b) as Hb.
    assert (Hb' : 0 <= Z.of_N (Byte.to_N b) <= 255) by lia.
    specialize (IH (256 * acc + Z.of_N (Byte.to_N b)) ltac:(lia)).
    rewrite Nat2Z.inj_succ, Z.pow_succ_r by lia.
    assert (Hp : 0 < 256 ^ Z.of_nat (length bs)) by (apply Z.pow_pos_nonneg; lia).
    nia.
Qed.

(** A big-endian field of four bytes fits 32 bits. *)
Lemma be32_bound bs : (length bs <= 4)%nat -> 0 <= be32 bs < 2 ^ 32.
Proof.
  intros Hl. unfold be32.
  pose proof (be32_go_bound bs 0 ltac:(lia)) as H.
  assert (256 ^ Z.of_nat (length bs) <= 256 ^ 4)
    by (apply Z.pow_le_mono_r; lia).
  change (256 ^ 4) with (2 ^ 32) in *. lia.
Qed.

Lemma upd_get_Some {V} k (l : list (Path * V)) : forall r v,
  upd_get k l r = Some v -> r = Some v \/ (k, v) ∈ l.
Proof.
  induction l as [|[k0 v0] l IH]; intros r v H; [left; exact H|].
  unfold upd_get in H. simpl in H. apply IH in H as [H|H].
  - destruct (Text.text_eqb k k0) eqn:E; [|auto].
    apply text_eqb_true in E as <-. injection H as <-. right. left.
  - right. right. exact H.
Qed.

(** Where the updates of a scan come from. *)
Lemma updates_elem wd d p m :
  (p, m) ∈ updates wd d <->
  exists ext n f,
    ext ∈ _SUPPORTED_EXTENSIONS /\ (n, f) ∈ d_entries d /\
    Text.endswith n ext = true /\ f_is_file f = true /\
    f_mtime f = Some m /\ p = Pathlib.joinpath wd n.
Proof.
  unfold updates, ext_updates. rewrite list_elem_of_In, in_flat_map. split.
  - intros (ext & Hext & H). apply in_flat_map in H as ([n f] & Hin & H).
    apply list_elem_of_In, list_elem_of_filter in Hin as [He Hin].
    apply Is_true_true in He. simpl in He.
    unfold entry_update in H. simpl in H.
    destruct (f_is_file f) eqn:Hf; [|destruct H].
    destruct (f_mtime f) eqn:Hm; [|destruct H].
    destruct H as [[= <- <-]|[]].
    exists ext, n, f. apply list_elem_of_In in Hext. auto 10.
  - intros (ext & n & f & Hext & Hin & He & Hf & Hm & ->).
    exists ext. split; [apply list_elem_of_In, Hext|].
    apply in_flat_map. exists (n, f). split.
    + apply list_elem_of_In, list_elem_of_filter. split; [|exact Hin].
      apply Is_true_true. exact He.
    + unfold entry_update. simpl. rewrite Hf, Hm. left. reflexivity.
Qed.

Lemma scan_elem c d p m :
  (p, m) ∈ _scan c d <-> dict_get p (_scan c d) = Some m.
Proof.
  split.
  - apply dict_get_elem, scan_NoDup.
  - apply dict_get_Some_elem.
Qed.

(** What one entry of the scan contributes to the changes. *)
Lemma detect_entry_elem c d pm a :
  a ∈ detect_entry c d [] pm <->
  match dict_get pm.1 (_snapshot c) with
  | None => True
  | Some prev => pm.2 > prev
  end /\
  encode_graph (dir_reads (watch_dir c) d) pm.1 = Return a.
Proof.
  unfold detect_entry.
  destruct (dict_get pm.1 (_snapshot c)) as [prev|].
  - destruct (Z.gtb_spec pm.2 prev) as [Hgt|Hle].
    + destruct (encode_graph _ _) as [a'|x]; simpl.
      * rewrite list_elem_of_singleton. split.
        -- intros ->. split; [lia | reflexivity].
        -- intros [_ [= ->]]. reflexivity.
      * split; [intros H; apply elem_of_nil in H; contradiction|].
        intros [_ [=]].
    + split; [intros H; apply elem_of_nil in H; contradiction|].
      intros [H _]. lia.
  - destruct (encode_graph _ _) as [a'|x]; simpl.
    + rewrite list_elem_of_singleton. split.
      * intros ->. auto.
      * intros [_ [= ->]]. reflexivity.
    + split; [intros H; apply elem_of_nil in H; contradiction|].
      intros [_ [=]].
Qed.

Lemma encode_graph_path fs p a : encode_graph fs p = Return a -> path a = p.
Proof.
  unfold encode_graph.
  destruct (negb _); [discriminate|].
  destruct (read_bytes (fs p)); [discriminate|].
  destruct (if Text.text_eqb _ _ then _ else _) as [w h].
  intros [= <-]. reflexivity.
Qed.

Lemma detect_paths c d l :
  NoDup (map fst l) ->
  NoDup (map path (flat_map (detect_entry c d []) l)) /\
  forall a, a ∈ flat_map (detect_entry c d []) l -> path a ∈ map fst l.
Proof.
  induction l as [|pm l IH]; intros Hnd; simpl.
  - split; [apply NoDup_nil_2|]. intros a H. apply elem_of_nil in H.
    contradiction.
  - apply NoDup_cons in Hnd as [Hpm Hnd]. destruct (IH Hnd) as [IH1 IH2].
    assert (Hone : detect_entry c d [] pm = [] \/
                   exists a, detect_entry c d [] pm = [a] /\ path a = pm.1).
    { unfold detect_entry.
      destruct (match dict_get pm.1 (_snapshot c) with
                | Some prev => pm.2 >? prev | None => true end); [|auto].
      destruct (encode_graph _ _) as [a|x] eqn:E; [|auto].
      right. exists a. split; [reflexivity|]. eapply encode_graph_path, E. }
    destruct Hone as [->|(a & -> & Ha)]; simpl.
    + split; [exact IH1|]. intros a H. right. auto.
    + split.
      * apply NoDup_cons. split; [|exact IH1].
        intros H. apply list_elem_of_fmap in H as (a' & Hp & H).
        apply IH2 in H. rewrite <- Hp, Ha in H. contradiction.
      * intros a' H. apply elem_of_cons in H as [->|H].
        -- rewrite Ha. left.
        -- right. auto.
Qed.

Lemma fst_NoDup_agree {A B} (l : list (A * B)) n f f' :
  NoDup (map fst l) -> (n, f) ∈ l -> (n, f') ∈ l -> f = f'.
Proof.
  induction l as [|[n0 f0] l IH]; simpl; intros Hnd H H'.
  - apply elem_of_nil in H. contradiction.
  - apply NoDup_cons in Hnd as [Hn0 Hnd].
    assert (Hno : forall g, (n0, g) ∈ l -> False).
    { intros g Hg. apply Hn0. apply list_elem_of_fmap. exists (n0, g). auto. }
    apply elem_of_cons in H as [H|H]; apply elem_of_cons in H' as [H'|H'].
    + congruence.
    + injection H as -> ->. exfalso. eauto.
    + injection H' as -> ->. exfalso. eauto.
    + auto.
Qed.

(** With distinct names, a regular file with a supported ending and a
    readable modification time is in the scan. *)
Lemma scan_complete c d ext n f m :
  NoDup (map fst (d_entries d)) -> d_is_dir d = true ->
  ext ∈ _SUPPORTED_EXTENSIONS -> (n, f) ∈ d_entries d ->
  Text.endswith n ext = true -> f_is_file f = true -> f_mtime f = Some m ->
  (Pathlib.joinpath (watch_dir c) n, m) ∈ _scan c d.
Proof.
  intros Hnd Hd Hext Hin He Hf Hm.
  apply scan_elem. rewrite scan_get by exact Hd.
  apply upd_get_same.
  - apply Forall_forall. intros [p' m'] Hkv Hp. simpl in *. subst p'.
    apply updates_elem in Hkv
      as (ext' & n' & f' & _ & Hin' & _ & _ & Hm' & Hj).
    apply joinpath_inj in Hj. subst n'.
    assert (f' = f) as -> by (eapply fst_NoDup_agree; eauto).
    congruence.
  - right. apply list_elem_of_fmap.
    exists (Pathlib.joinpath (watch_dir c) n, m).
    split; [reflexivity|]. apply updates_elem. eauto 10.
Qed.

Lemma png_dimensions_shape opened w h :
  _png_dimensions opened = (w, h) ->
  (w = None /\ h = None) \/ (exists x y, w = Some x /\ h = Some y).
Proof.
  unfold _png_dimensions. destruct opened as [e|content].
  - intros [= <- <-]. auto.
  - destruct (_ <? _)%nat; [intros [= <- <-]; auto|].
    destruct (negb _); intros [= <- <-]; eauto.
Qed.

(** The line [maybe_inject_graph_export] appends is an export
    directive, whatever precedes and follows it. *)
Lemma export_line_matches l tl :
  Re.match_at _HAS_EXPORT_RE l
    ("010"%char :: txt "quietly graph export " ++ tl) <> None.
Proof. destruct l as [|c l]; vm_compute; discriminate. Qed.

Lemma export_line_found code p :
  Re.found _HAS_EXPORT_RE (code ++ export_line p) = true.
Proof.
  apply SearchFacts.found_iff. exists code, (export_line p).
  split; [reflexivity|]. unfold export_line. apply export_line_matches.
Qed.

Lemma uint_chars d c :
  c ∈ txt (NilZero.string_of_uint d) -> Text.is_digit c = true.
Proof.
  assert (H : forall d, c ∈ txt (NilEmpty.string_of_uint d) -> Text.is_digit c = true).
  { clear d. induction d; simpl; intros H;
      try (apply elem_of_nil in H; contradiction);
      apply elem_of_cons in H as [->|H]; auto. }
  destruct d; try apply H.
  intros Hc. apply list_elem_of_singleton in Hc. subst c. reflexivity.
Qed.

(** The decimal form of an integer holds digits and a sign only. *)
Lemma str_of_int_chars z c :
  c ∈ Text.str_of_int z -> c = "-"%char \/ Text.is_digit c = true.
Proof.
  unfold Text.str_of_int, NilZero.string_of_int.
  destruct (Z.to_int z) as [d|d].
  - intros H. right. eapply uint_chars, H.
  - intros H. change (txt (String "-" (NilZero.string_of_uint d)))
      with ("-"%char :: txt (NilZero.string_of_uint d)) in H.
    apply elem_of_cons in H as [->|H]; [auto|].
    right. eapply uint_chars, H.
Qed.

Lemma export_name_chars t c :
  c ∈ export_name t ->
  c ∈ txt "stata_graph_.png" \/ c = "-"%char \/ Text.is_digit c = true.
Proof.
  unfold export_name.
  change (txt "stata_graph_.png") with (txt "stata_graph_" ++ txt ".png").
  rewrite !elem_of_app. intros [H|[H|H]]; auto.
  right. apply str_of_int_chars in H. exact H.
Qed.

Lemma export_name_plain t : Pathlib.sep ∉ export_name t.
Proof.
  intros H. apply export_name_chars in H as [H|[H|H]];
    [|discriminate..].
  apply list_elem_of_In in H. simpl in H.
  repeat (destruct H as [H|H]; [discriminate|]). exact H.
Qed.

Lemma rfind_app x a b :
  Text.rfind x (a ++ b)
  = match Text.rfind x b with
    | Some i => Some (length a + i)%nat
    | None => Text.rfind x a
    end.
Proof.
  induction a as [|c a IH]; simpl.
  - destruct (Text.rfind x b); reflexivity.
  - rewrite IH. destruct (Text.rfind x b); [reflexivity|].
    destruct (Text.rfind x a); reflexivity.
Qed.

Lemma rfind_absent x l : x ∉ l -> Text.rfind x l = None.
Proof.
  induction l as [|c l IH]; [reflexivity|]. intros H.
  apply not_elem_of_cons in H as [Hne H]. simpl. rewrite (IH H).
  destruct (Ascii.eqb_spec c x); [congruence | reflexivity].
Qed.

(** The suffix of a plain name that ends in a dot and an extension. *)
Lemma suffix_dotted pre ext :
  Pathlib.sep ∉ pre ++ "."%char :: ext -> "."%char ∉ ext ->
  pre <> [] -> ext <> [] ->
  Pathlib.suffix (pre ++ "."%char :: ext) = "."%char :: ext.
Proof.
  intros Hsep Hdot Hpre Hext. unfold Pathlib.suffix, Pathlib.name.
  rewrite PathFacts.name_go_plain by exact Hsep. simpl rev.
  rewrite app_nil_l. unfold Pathlib.suffix_index.
  rewrite rfind_app. cbn [Text.rfind]. rewrite (rfind_absent _ _ Hdot).
  cbn [Ascii.eqb Bool.eqb]. cbv iota. rewrite Nat.add_0_r.
  rewrite length_app. cbn [length].
  destruct pre as [|c pre]; [congruence|].
  destruct ext as [|x ext]; [congruence|]. cbn [length].
  destruct (Nat.ltb_spec 0 (S (length pre))); [|lia].
  destruct (Nat.ltb_spec (S (length pre))
              (S (length pre) + S (S (length ext)) - 1)); [|lia].
  simpl andb. cbv iota.
  change (S (length pre)) with (length (c :: pre)).
  apply drop_app_length.
Qed.

(** The name of the exported file has the suffix [.png]. *)
Lemma export_name_suffix t : Pathlib.suffix (export_name t) = txt ".png".
Proof.
  pose proof (export_name_plain t) as Hp. unfold export_name in *.
  rewrite app_assoc in *.
  apply (suffix_dotted (txt "stata_graph_" ++ Text.str_of_int t) (txt "png")).
  - exact Hp.
  - intros H. apply list_elem_of_In in H. simpl in H.
    repeat (destruct H as [H|H]; [discriminate|]). exact H.
  - discriminate.
  - discriminate.
Qed.

End ScanFacts.

(** X22. [_png_dimensions] returns both dimensions or neither.  When it
    returns them, the file could be opened, holds 24 bytes at least and
    begins with the PNG magic, and each dimension is the big-endian field
    it names, so that it lies between 0 and 2^32 - 1. *)
Theorem png_dimensions_both_or_neither
    (opened : os_error + bytes) (w h : option Z) :
  Graph._png_dimensions opened = (w, h) ->
  (w = None /\ h = None) \/
  (exists content a b,
     opened = inr content /\ (24 <= length content)%nat /\
     firstn 8 content = Graph.png_magic /\
     w = Some a /\ h = Some b /\
     a = Graph.be32 (firstn 4 (skipn 16 content)) /\
     b = Graph.be32 (firstn 4 (skipn 20 content)) /\
     0 <= a < 2 ^ 32 /\ 0 <= b < 2 ^ 32).
Proof.
  intros H. pose proof (EncodeFacts.png_dimensions_cases opened) as C.
  destruct opened as [e|content].
  - rewrite C in H. injection H as <- <-. auto.
  - destruct C as (C1 & C2 & C3).
    destruct (le_lt_dec 24 (length content)) as [Hl|Hl];
      [|rewrite (C1 Hl) in H; injection H as <- <-; auto].
    destruct (Graph.bytes_eqb (firstn 8 content) Graph.png_magic) eqn:Hm;
      [apply EncodeFacts.bytes_eqb_eq in Hm|];
      [|rewrite C2 in H;
        [injection H as <- <-; auto
        |intros Hx; apply EncodeFacts.bytes_eqb_eq in Hx; congruence]].
    rewrite (C3 Hl Hm) in H. injection H as <- <-. right.
    eexists content, _, _.
    repeat (split; [reflexivity || assumption|]).
    split; apply ScanFacts.be32_bound; rewrite length_firstn; lia.
Qed.

(** X22 at a worked input. *)
Lemma png_dimensions_both_or_neither_witness :
  Graph._png_dimensions (inr Samples.png_bytes) = (Some 2000, Some 1455) /\
  ((Some 2000 = None /\ Some 1455 = @None Z) \/
   (exists content a b,
      inr Samples.png_bytes = @inr os_error bytes content /\
      (24 <= length content)%nat /\
      firstn 8 content = Graph.png_magic /\
      Some 2000 = Some a /\ Some 1455 = Some b /\
      a = Graph.be32 (firstn 4 (skipn 16 content)) /\
      b = Graph.be32 (firstn 4 (skipn 20 content)) /\
      0 <= a < 2 ^ 32 /\ 0 <= b < 2 ^ 32)).
Proof.
  split; [reflexivity|].
  apply (png_dimensions_both_or_neither (inr Samples.png_bytes)).
  reflexivity.
Defined.

(** X23. The artifact [encode_graph] returns carries the path it was
    given and a format out of [png], [pdf], [svg] and [gph]: the
    extension of the path in lower case, without its dot, so that an
    upper-case extension is accepted and normalised.  Its dimensions are
    both present or both absent, and present only for [png]. *)
Theorem encode_graph_format
    (fs : Path -> Graph.file_reads) (p : Path) (a : Graph.GraphArtifact) :
  Graph.encode_graph fs p = Return a ->
  Graph.path a = p /\
  Graph.format a ∈ [txt "png"; txt "pdf"; txt "svg"; txt "gph"] /\
  "."%char :: Graph.format a = Text.lower (Pathlib.suffix p) /\
  (Graph.width a = None <-> Graph.height a = None) /\
  (Graph.width a <> None -> Graph.format a = txt "png").
Proof.
  unfold Graph.encode_graph. unfold Graph.is_supported.
  destruct (bool_decide _) eqn:Hs; [|discriminate]. simpl negb. cbv iota.
  apply bool_decide_eq_true in Hs.
  destruct (Graph.read_bytes (fs p)) as [e|raw]; [discriminate|].
  destruct (if Text.text_eqb _ _ then _ else _) as [w h] eqn:D.
  intros [= <-]. simpl.
  assert (Hwh : (w = None <-> h = None) /\
                (w <> None -> Text.lower (Pathlib.suffix p) = txt ".png")).
  { destruct (Text.text_eqb _ _) eqn:E.
    - apply DictFacts.text_eqb_true in E.
      apply ScanFacts.png_dimensions_shape in D. split; [|auto].
      destruct D as [[-> ->]|(x & y & -> & ->)]; split; auto; discriminate.
    - injection D as <- <-. split; [tauto | congruence]. }
  destruct Hwh as [Hwh Hpng].
  unfold Graph._SUPPORTED_EXTENSIONS in Hs.
  rewrite !elem_of_cons, elem_of_nil in Hs.
  split; [reflexivity|].
  destruct Hs as [Hs|[Hs|[Hs|[Hs|[]]]]]; rewrite Hs in Hpng |- *; simpl;
    (split; [rewrite !elem_of_cons; auto|]);
    (split; [reflexivity|]); (split; [exact Hwh|]);
    intros Hw; specialize (Hpng Hw); try reflexivity; discriminate.
Qed.

(** X23 at a worked input. *)
Lemma encode_graph_format_witness :
  exists a,
    Graph.encode_graph
      (fun _ => {| Graph.read_bytes := inr Samples.png_bytes;
                   Graph.open_rb := inr Samples.png_bytes |})
      (txt "/tmp/s/g.PNG") = Return a /\
    Graph.path a = txt "/tmp/s/g.PNG" /\
    Graph.format a = txt "png".
Proof.
  destruct (Graph.encode_graph
              (fun _ => {| Graph.read_bytes := inr Samples.png_bytes;
                           Graph.open_rb := inr Samples.png_bytes |})
              (txt "/tmp/s/g.PNG")) as [a|x] eqn:E;
    [|vm_compute in E; discriminate].
  exists a. split; [reflexivity|].
  destruct (encode_graph_format _ _ _ E) as (H1 & _ & H3 & _).
  split; [exact H1|].
  change (Text.lower (Pathlib.suffix (txt "/tmp/s/g.PNG")))
    with ("."%char :: txt "png") in H3.
  injection H3 as H3. exact H3.
Defined.

(** X24. [_scan] returns nothing when the watched path is not a
    directory.  Otherwise its keys are distinct, and every key it holds is
    the path of a directory entry that is a regular file, whose name ends
    with one of the four extensions as written, in lower case, and whose
    modification time could be read and is the value stored.  When the
    names of the directory are distinct, every such entry is in the
    scan. *)
Theorem scan_characterised (c : Graph.GraphCache) (d : Graph.directory) :
  (Graph.d_is_dir d = false -> Graph._scan c d = []) /\
  NoDup (map fst (Graph._scan c d)) /\
  (forall p m, (p, m) ∈ Graph._scan c d ->
     Graph.d_is_dir d = true /\
     exists ext n f,
       ext ∈ Graph._SUPPORTED_EXTENSIONS /\ (n, f) ∈ Graph.d_entries d /\
       Text.endswith n ext = true /\ Graph.f_is_file f = true /\
       Graph.f_mtime f = Some m /\
       p = Pathlib.joinpath (Graph.watch_dir c) n) /\
  (NoDup (map fst (Graph.d_entries d)) ->
   Graph.d_is_dir d = true ->
   forall ext n f m,
     ext ∈ Graph._SUPPORTED_EXTENSIONS -> (n, f) ∈ Graph.d_entries d ->
     Text.endswith n ext = true -> Graph.f_is_file f = true ->
     Graph.f_mtime f = Some m ->
     (Pathlib.joinpath (Graph.watch_dir c) n, m) ∈ Graph._scan c d).
Proof.
  split; [intros H; unfold Graph._scan; rewrite H; reflexivity|].
  split; [apply CacheFacts.scan_NoDup|]. split.
  - intros p m H. destruct (Graph.d_is_dir d) eqn:Hd.
    + split; [reflexivity|].
      apply ScanFacts.scan_elem in H.
      rewrite CacheFacts.scan_get in H by exact Hd.
      apply ScanFacts.upd_get_Some in H as [[=]|H].
      apply ScanFacts.updates_elem in H. exact H.
    + unfold Graph._scan in H. rewrite Hd in H. apply elem_of_nil in H.
      contradiction.
  - intros Hnd Hd ext n f m Hext Hin He Hf Hm.
    eapply ScanFacts.scan_complete; eauto.
Qed.

(** X25. [detect_changes] stores the scan as the new snapshot and
    reports exactly the files of the scan that are not in the old
    snapshot, or are there with a strictly smaller modification time, and
    that [encode_graph] can encode; a file that cannot be encoded is left
    out without an error, and a file whose modification time went back is
    not reported.  The reported paths are distinct. *)
Theorem detect_changes_characterised
    (c : Graph.GraphCache) (d : Graph.directory) :
  Graph._snapshot (Graph.detect_changes c d).2 = Graph._scan c d /\
  Graph.watch_dir (Graph.detect_changes c d).2 = Graph.watch_dir c /\
  (forall a,
     a ∈ (Graph.detect_changes c d).1 <->
     exists m,
       (Graph.path a, m) ∈ Graph._scan c d /\
       match Graph.dict_get (Graph.path a) (Graph._snapshot c) with
       | None => True
       | Some prev => m > prev
       end /\
       Graph.encode_graph (Graph.dir_reads (Graph.watch_dir c) d)
         (Graph.path a) = Return a) /\
  NoDup (map Graph.path (Graph.detect_changes c d).1).
Proof.
  unfold Graph.detect_changes. cbn [fst snd Graph._snapshot Graph.watch_dir].
  rewrite CacheFacts.detect_fold. cbn [app].
  split; [reflexivity|]. split; [reflexivity|]. split.
  - intros a. rewrite list_elem_of_In, in_flat_map. split.
    + intros ([p m] & Hin & Ha).
      apply list_elem_of_In, ScanFacts.detect_entry_elem in Ha as [Hnew He].
      simpl in Hnew, He.
      pose proof (ScanFacts.encode_graph_path _ _ _ He) as Hp. subst p.
      exists m. split; [apply list_elem_of_In, Hin | auto].
    + intros (m & Hin & Hnew & He). exists (Graph.path a, m).
      split; [apply list_elem_of_In, Hin|].
      apply list_elem_of_In, ScanFacts.detect_entry_elem. auto.
  - apply ScanFacts.detect_paths, CacheFacts.scan_NoDup.
Qed.

(** X26. [detect_changes] reports a change once: after it, a further
    [detect_changes] on a directory that scans the same, with the same
    files and modification times, reports nothing and keeps the snapshot.
    So a file that could not be read the first time is not reported
    later, when it can be read, unless its modification time grows. *)
Theorem detect_changes_reports_once
    (c : Graph.GraphCache) (d d2 : Graph.directory) :
  Graph._scan c d2 = Graph._scan c d ->
  Graph.detect_changes (Graph.detect_changes c d).2 d2
  = ([], (Graph.detect_changes c d).2).
Proof.
  intros Hs. unfold Graph.detect_changes. cbn [snd].
  change (Graph._scan {| Graph.watch_dir := Graph.watch_dir c;
                         Graph._snapshot := Graph._scan c d |} d2)
    with (Graph._scan c d2).
  rewrite Hs. cbn [Graph.watch_dir]. f_equal.
  rewrite CacheFacts.detect_fold. simpl. apply CacheFacts.flat_map_nil.
  apply Forall_forall. intros [k v] Hin.
  unfold Graph.detect_entry. simpl.
  rewrite (DictFacts.dict_get_elem k v)
    by (auto using CacheFacts.scan_NoDup).
  destruct (Z.gtb_spec v v); [lia | reflexivity].
Qed.

(** X26 at a worked input. *)
Lemma detect_changes_reports_once_witness :
  (Graph.detect_changes (Graph.new_cache Samples.scratch)
     {| Graph.d_is_dir := true;
        Graph.d_entries :=
          [(txt "g.png",
            {| Graph.f_is_file := true; Graph.f_mtime := Some 200;
               Graph.f_reads :=
                 {| Graph.read_bytes := inl PermissionError;
                    Graph.open_rb := inl PermissionError |} |})] |}).1 = [] /\
  Graph.detect_changes
    (Graph.detect_changes (Graph.new_cache Samples.scratch)
       {| Graph.d_is_dir := true;
          Graph.d_entries :=
            [(txt "g.png",
              {| Graph.f_is_file := true; Graph.f_mtime := Some 200;
                 Graph.f_reads :=
                   {| Graph.read_bytes := inl PermissionError;
                      Graph.open_rb := inl PermissionError |} |})] |}).2
    {| Graph.d_is_dir := true;
       Graph.d_entries := [(txt "g.png", Samples.new_png)] |}
  = ([],
     (Graph.detect_changes (Graph.new_cache Samples.scratch)
        {| Graph.d_is_dir := true;
           Graph.d_entries :=
             [(txt "g.png",
               {| Graph.f_is_file := true; Graph.f_mtime := Some 200;
                  Graph.f_reads :=
                    {| Graph.read_bytes := inl PermissionError;
                       Graph.open_rb := inl PermissionError |} |})] |}).2).
Proof.
  split; [vm_compute; reflexivity|].
  apply detect_changes_reports_once. vm_compute. reflexivity.
Defined.

(** X27. [maybe_inject_graph_export] is idempotent, whatever the
    directories and the clock readings of the two calls: the line it
    appends is itself an export directive, so that code it has extended
    is returned as it is.  Whenever the code holds a graph-producing
    command, the result holds an export directive. *)
Theorem maybe_inject_graph_export_idempotent
    (code : text) (tmpdir tmpdir' : Path) (t t' : Z) :
  Graph.maybe_inject_graph_export
    (Graph.maybe_inject_graph_export code tmpdir t) tmpdir' t'
  = Graph.maybe_inject_graph_export code tmpdir t /\
  (Re.found Graph._GRAPH_CMD_RE code = true ->
   Re.found Graph._HAS_EXPORT_RE
     (Graph.maybe_inject_graph_export code tmpdir t) = true).
Proof.
  unfold Graph.maybe_inject_graph_export at 2 3 4.
  destruct (Re.found Graph._HAS_EXPORT_RE code) eqn:He.
  - split; [|auto]. unfold Graph.maybe_inject_graph_export.
    rewrite He. reflexivity.
  - destruct (Re.found Graph._GRAPH_CMD_RE code) eqn:Hg; simpl negb; cbv iota.
    + pose proof (ScanFacts.export_line_found (Text.rstrip code)
                    (Pathlib.joinpath tmpdir (Graph.export_name t))) as Hf.
      split; [|auto]. unfold Graph.maybe_inject_graph_export.
      rewrite Hf. reflexivity.
    + split; [|discriminate]. unfold Graph.maybe_inject_graph_export.
      rewrite He, Hg. reflexivity.
Qed.

(** X28. The file the injected line exports is one the graph cache
    picks up: its name ends with [.png], so the scan of the scratch
    directory holds it once it is there, and [encode_graph] accepts its
    path, with the format [png], whatever the clock reading and the
    directory. *)
Theorem injected_export_is_recognised (tmpdir : Path) (t : Z) :
  let n := Graph.export_name t in
  let p := Pathlib.joinpath tmpdir n in
  Pathlib.name p = n /\
  Text.endswith n (txt ".png") = true /\
  Pathlib.suffix p = txt ".png" /\
  (forall fs raw,
     Graph.read_bytes (fs p) = inr raw ->
     exists a, Graph.encode_graph fs p = Return a /\
               Graph.format a = txt "png" /\
               Graph.base64 a = Graph.b64encode raw) /\
  (forall c d f m,
     Graph.watch_dir c = tmpdir -> Graph.d_is_dir d = true ->
     NoDup (map fst (Graph.d_entries d)) ->
     (n, f) ∈ Graph.d_entries d ->
     Graph.f_is_file f = true -> Graph.f_mtime f = Some m ->
     (p, m) ∈ Graph._scan c d).
Proof.
  intros n p.
  pose proof (ScanFacts.export_name_plain t) as Hplain.
  pose proof (ScanFacts.export_name_suffix t) as Hsuf.
  assert (Hend : Text.endswith n (txt ".png") = true).
  { subst n. unfold Graph.export_name, Text.endswith.
    rewrite app_assoc, rev_app_distr. apply PathFacts.startswith_app. }
  assert (Hp : Pathlib.suffix p = txt ".png").
  { subst p. rewrite PathFacts.suffix_joinpath by exact Hplain. exact Hsuf. }
  split; [apply PathFacts.name_joinpath, Hplain|].
  split; [exact Hend|]. split; [exact Hp|]. split.
  - intros fs raw Hr. unfold Graph.encode_graph. rewrite Hp, Hr.
    change (Text.lower (txt ".png")) with (txt ".png").
    change (Graph.is_supported (txt ".png")) with true.
    simpl negb. cbv iota.
    destruct (if Text.text_eqb _ _ then _ else _) as [w h].
    eexists. split; [reflexivity|]. split; reflexivity.
  - intros c d f m <- Hd Hnd Hin Hf Hm.
    eapply (ScanFacts.scan_complete c d (txt ".png")); eauto.
    unfold Graph._SUPPORTED_EXTENSIONS. left.
Qed.

(** X28 at a worked input. *)
Lemma injected_export_is_recognised_witness :
  Pathlib.joinpath Samples.scratch (Graph.export_name 1700000000000)
  = txt "/tmp/stata_session_ab12/stata_graph_1700000000000.png" /\
  (Pathlib.joinpath Samples.scratch (Graph.export_name 1700000000000),
   200)
  ∈ Graph._scan (Graph.new_cache Samples.scratch)
      {| Graph.d_is_dir := true;
         Graph.d_entries :=
           [(Graph.export_name 1700000000000, Samples.new_png)] |}.
Proof.
  split; [vm_compute; reflexivity|].
  apply (proj2 (proj2 (proj2 (proj2
           (injected_export_is_recognised Samples.scratch 1700000000000))))
           (Graph.new_cache Samples.scratch) _ Samples.new_png 200);
    try reflexivity.
  - apply NoDup_singleton.
  - left.
Defined.

(** ** The tool handlers *)

Module ToolFacts.
Import Tools.

Lemma filter_images_map (gs : list Graph.GraphArtifact) :
  List.filter is_image
    (map (fun g => ImageContent (Graph.base64 g) (mime g)) gs)
  = map (fun g => ImageContent (Graph.base64 g) (mime g)) gs.
Proof. induction gs as [|g gs IH]; simpl; [|rewrite IH]; reflexivity. Qed.

(** The two shapes of the answer. *)
Lemma result_contents_cases r :
  let images :=
    map (fun g => ImageContent (Graph.base64 g) (mime g)) (graphs r) in
  (Text.strip (output_text r) = [] /\
   result_contents r
   = match graphs r with
     | [] => [TextContent (txt "(no output)")]
     | _ => images
     end) \/
  (Text.strip (output_text r) <> [] /\
   result_contents r = TextContent (Text.strip (output_text r)) :: images).
Proof.
  intros images. unfold result_contents. fold images.
  destruct (Text.strip (output_text r)) as [|c t] eqn:E.
  - left. split; [reflexivity|]. subst images.
    destruct (graphs r); reflexivity.
  - right. split; [discriminate | reflexivity].
Qed.

Lemma strip_nonblank a c b :
  Text.is_space c = false -> Text.strip (a ++ c :: b) <> [].
Proof.
  intros Hc H. unfold Text.strip in H.
  rewrite TextFacts.rstrip_keep in H by exact Hc.
  rewrite TextFacts.lstrip_keep in H by exact Hc.
  destruct (Text.lstrip a); discriminate.
Qed.

(** With a truthy failure message the text block is there. *)
Lemma output_text_error r c msg :
  error_message r = Some (c :: msg) ->
  Text.strip (output_text r) <> [].
Proof.
  intros He. unfold output_text. rewrite He.
  assert (Hb : forall tl,
            Text.strip (output r ++ error_banner ++ tl) <> []).
  { intros tl. unfold error_banner.
    replace (output r ++ (["010"; "010"]%char ++ txt "--- Stata Error ---"
                          ++ ["010"%char]) ++ tl)
      with ((output r ++ ["010"; "010"]%char) ++ "-"%char
            :: (txt "-- Stata Error ---" ++ ["010"%char] ++ tl)).
    - apply strip_nonblank. reflexivity.
    - rewrite <- !app_assoc. reflexivity. }
  destruct (error_code r) as [code|].
  - rewrite <- !app_assoc. apply Hb.
  - apply Hb.
Qed.

End ToolFacts.

(** X29. The content blocks the [run_command] and [run_do_file]
    handlers build from a result are never empty.  They hold the images
    of the graphs of the result, one for each graph and in their order,
    after at most one block of text, which is stripped and not empty.
    The text block is there whenever the result has a failure message
    that is not empty, and the placeholder ["(no output)"] is the answer
    exactly when the text is blank and there is no graph. *)
Theorem result_contents_shape (r : ExecutionResult) :
  Tools.result_contents r <> [] /\
  (exists texts,
     Tools.result_contents r
     = texts
       ++ map (fun g => Tools.ImageContent (Graph.base64 g) (Tools.mime g))
            (graphs r) /\
     (texts = [] \/
      exists t, texts = [Tools.TextContent t] /\ t <> [] /\
                Text.strip t = t)) /\
  (forall c msg, error_message r = Some (c :: msg) ->
     exists tl,
       Tools.result_contents r
       = Tools.TextContent (Text.strip (Tools.output_text r)) :: tl) /\
  (Tools.result_contents r = [Tools.TextContent (txt "(no output)")] <->
   (Text.strip (Tools.output_text r) = [] /\ graphs r = []) \/
   (Text.strip (Tools.output_text r) = txt "(no output)" /\ graphs r = [])).
Proof.
  pose proof (ToolFacts.result_contents_cases r) as C. cbv zeta in C.
  split; [|split; [|split]].
  - destruct C as [[_ ->]|[_ ->]]; [|discriminate].
    destruct (graphs r); discriminate.
  - destruct C as [[Hs ->]|[Hs ->]].
    + destruct (graphs r) as [|g gs] eqn:Hg.
      * exists [Tools.TextContent (txt "(no output)")].
        split; [reflexivity|]. right. eexists. split; [reflexivity|].
        split; [discriminate | reflexivity].
      * exists []. auto.
    + exists [Tools.TextContent (Text.strip (Tools.output_text r))].
      split; [reflexivity|]. right. eexists. split; [reflexivity|].
      split; [exact Hs | apply StripTwice.strip_twice].
  - intros c msg He.
    pose proof (ToolFacts.output_text_error r c msg He) as Hne.
    destruct C as [[Hs _]|[_ ->]]; [contradiction | eauto].
  - destruct C as [[Hs ->]|[Hs ->]].
    + destruct (graphs r) as [|g gs]; split; auto.
      * discriminate.
      * intros [[_ [=]]|[_ [=]]].
    + split.
      * intros [= H1 H2]. right. split; [exact H1|].
        destruct (graphs r); [reflexivity | discriminate].
      * intros [[H _]|[H Hg]]; [contradiction|]. rewrite H, Hg. reflexivity.
Qed.

(** The answer for the timeout result of an interactive [execute]. *)
Example result_contents_of_timeout :
  Tools.result_contents
    (Interactive.timeout_result (Samples.env true []) 120)
  = [Tools.TextContent
       (txt "--- Stata Error ---" ++ "010"%char
        :: txt "Command timed out after 120s")].
Proof. vm_compute. reflexivity. Qed.

(** ** The display of the log search *)

Module SearchLogFacts.
Import SearchLog.

Lemma match_indices_from_elem search lines : forall i k,
  k ∈ match_indices_from search i lines <->
  exists j, k = i + Z.of_nat j /\ (j < length lines)%nat /\
            search (nth j lines []) = true.
Proof.
  induction lines as [|line lines IH]; intros i k; simpl.
  - split; [intros H; apply elem_of_nil in H; contradiction|].
    intros (j & _ & Hj & _). lia.
  - assert (Hrest : k ∈ match_indices_from search (i + 1) lines <->
              exists j, k = i + Z.of_nat (S j) /\ (j < length lines)%nat /\
                        search (nth j lines []) = true).
    { rewrite IH. split; intros (j & -> & H); exists j; split; auto; lia. }
    destruct (search line) eqn:Hs.
    + rewrite elem_of_cons, Hrest. split.
      * intros [->|(j & -> & Hj & Hn)].
        -- exists 0%nat. repeat split; [lia | lia | exact Hs].
        -- exists (S j). repeat split; [lia | exact Hn].
      * intros ([|j] & -> & Hj & Hn).
        -- left. lia.
        -- right. exists j. repeat split; [lia | exact Hn].
    + rewrite Hrest. split.
      * intros (j & -> & Hj & Hn). exists (S j). repeat split; [lia | exact Hn].
      * intros ([|j] & -> & Hj & Hn); [simpl in Hn; congruence|].
        exists j. repeat split; [lia | exact Hn].
Qed.

Lemma match_indices_from_ascending search lines : forall i,
  ascending (match_indices_from search i lines).
Proof.
  induction lines as [|line lines IH]; intros i; simpl; [exact I|].
  destruct (search line); [|apply IH]. split; [|apply IH].
  intros y Hy. apply match_indices_from_elem in Hy as (j & -> & _). lia.
Qed.

Lemma entries_app ps qs : entries (ps ++ qs) = entries ps ++ entries qs.
Proof. unfold entries. apply flat_map_app. Qed.

Lemma entries_map (f : Z -> bool) l :
  entries (map (fun i => Entry (f i) i) l) = l.
Proof. induction l as [|x l IH]; simpl; [|rewrite IH]; reflexivity. Qed.

Lemma ascending_app l1 l2 :
  ascending l1 -> ascending l2 ->
  (forall x y, x ∈ l1 -> y ∈ l2 -> x < y) -> ascending (l1 ++ l2).
Proof.
  induction l1 as [|a l1 IH]; simpl; intros H1 H2 H; [exact H2|].
  destruct H1 as [Ha H1]. split.
  - intros y Hy. apply elem_of_app in Hy as [Hy|Hy]; [auto|].
    apply H; [left | exact Hy].
  - apply IH; auto. intros x y Hx Hy. apply H; [right; exact Hx | exact Hy].
Qed.

Lemma ascending_seqZ n : forall m, ascending (seqZ m (Z.of_nat n)).
Proof.
  induction n as [|n IH]; intros m.
  - rewrite seqZ_nil by lia. exact I.
  - rewrite seqZ_cons by lia. split.
    + intros y Hy. apply elem_of_seqZ in Hy. lia.
    + replace (Z.pred (Z.of_nat (S n))) with (Z.of_nat n) by lia. apply IH.
Qed.

Lemma ascending_range m n : ascending (seqZ m n).
Proof.
  destruct (Z_le_gt_dec n 0) as [H|H].
  - rewrite seqZ_nil by exact H. exact I.
  - rewrite <- (Z2Nat.id n) by lia. apply ascending_seqZ.
Qed.

Lemma max_of_greatest l M :
  M ∈ l -> (forall i, i ∈ l -> i <= M) -> max_of l = M.
Proof.
  destruct l as [|x l]; [intros H; apply elem_of_nil in H; contradiction|].
  simpl. intros Hin Hle.
  assert (Hgo : forall l acc, acc <= M -> (forall i, i ∈ l -> i <= M) ->
            (acc = M \/ M ∈ l) -> fold_left Z.max l acc = M).
  { clear. induction l as [|y l IH]; intros acc Hacc Hle HM; simpl.
    - destruct HM as [HM|HM]; [exact HM|]. apply elem_of_nil in HM.
      contradiction.
    - apply IH.
      + pose proof (Hle y ltac:(left)). lia.
      + intros i Hi. apply Hle. right. exact Hi.
      + destruct HM as [->|HM].
        * left. pose proof (Hle y ltac:(left)). lia.
        * apply elem_of_cons in HM as [->|HM]; [|auto].
          left. lia. }
  apply Hgo.
  - apply Hle. left.
  - intros i Hi. apply Hle. right. exact Hi.
  - apply elem_of_cons in Hin as [->|Hin]; auto.
Qed.

(** The inner loop over lines that were all shown changes nothing. *)
Lemma show_lines_skip lines idx l : forall out shown,
  (forall i, i ∈ l -> i ∈ shown) ->
  fold_left (show_line lines idx) l (out, shown) = (out, shown).
Proof.
  induction l as [|i l IH]; intros out shown H; simpl; [reflexivity|].
  rewrite bool_decide_eq_true_2 by (apply H; left).
  apply IH. intros j Hj. apply H. right. exact Hj.
Qed.

(** The inner loop over a range above every line shown displays the
    whole range. *)
Lemma show_lines_new lines idx n : forall lo out shown,
  (forall i, i ∈ shown -> i < lo) ->
  fold_left (show_line lines idx) (seqZ lo (Z.of_nat n)) (out, shown)
  = (out ++ map (fun i => display_line lines (i =? idx) i)
              (seqZ lo (Z.of_nat n)),
     shown ++ seqZ lo (Z.of_nat n)).
Proof.
  induction n as [|n IH]; intros lo out shown H.
  - rewrite seqZ_nil by lia. simpl. rewrite !app_nil_r. reflexivity.
  - rewrite seqZ_cons by lia.
    replace (Z.pred (Z.of_nat (S n))) with (Z.of_nat n) by lia.
    cbn [fold_left map show_line].
    rewrite bool_decide_eq_false_2
      by (intros Hin; apply H in Hin; lia).
    rewrite IH.
    + rewrite <- !app_assoc. reflexivity.
    + intros i Hi. apply elem_of_app in Hi as [Hi|Hi].
      * apply H in Hi. lia.
      * apply list_elem_of_singleton in Hi. lia.
Qed.

(** One turn of the outer loop: with every line shown at most [M], and
    the lines from [start] to [M] shown, the lines displayed are those of
    the window above [M]. *)
Lemma show_window lines idx start stop M out shown :
  (forall i, i ∈ shown -> i <= M) ->
  (forall i, start <= i <= M -> i ∈ shown) ->
  let lo := Z.max start (M + 1) in
  fold_left (show_line lines idx) (seqZ start (stop - start)) (out, shown)
  = (out ++ map (fun i => display_line lines (i =? idx) i)
              (seqZ lo (stop - lo)),
     shown ++ seqZ lo (stop - lo)).
Proof.
  intros Hle Hin lo.
  destruct (Z_le_gt_dec stop lo) as [Hs|Hs].
  - rewrite (seqZ_nil lo) by lia. simpl. rewrite !app_nil_r.
    apply show_lines_skip. intros i Hi. apply elem_of_seqZ in Hi.
    apply Hin. lia.
  - replace (stop - start) with ((lo - start) + (stop - lo)) by lia.
    rewrite seqZ_app by lia. rewrite fold_left_app.
    rewrite show_lines_skip
      by (intros i Hi; apply elem_of_seqZ in Hi; apply Hin; lia).
    replace (start + (lo - start)) with lo by lia.
    rewrite <- (Z2Nat.id (stop - lo)) by lia.
    apply show_lines_new. intros i Hi. apply Hle in Hi. lia.
Qed.

Section Display.
Variables (lines : list text) (ctx : Z).
Local Abbreviation len := (Z.of_nat (length lines)).
Local Abbreviation in_window := (SearchLog.in_window lines ctx).
Local Abbreviation reach := (SearchLog.reach lines ctx).
Local Abbreviation displayed := (SearchLog.displayed lines ctx).

Lemma displayed_step done out shown idx :
  0 <= ctx ->
  ascending (done ++ [idx]) ->
  (forall k, k ∈ done ++ [idx] -> 0 <= k < len) ->
  displayed done (out, shown) ->
  displayed (done ++ [idx]) (show_match lines ctx (out, shown) idx).
Proof.
  intros Hctx Hasc Hrange (ps & Hout & Hshown & Hsorted & Hwin & Hmark).
  simpl in Hout, Hshown, Hsorted, Hwin.
  assert (Hidx : 0 <= idx < len).
  { apply Hrange. apply elem_of_app. right. left. }
  assert (Hbefore : forall k, k ∈ done -> k < idx /\ 0 <= k < len).
  { intros k Hk. split.
    - clear -Hasc Hk. induction done as [|a done IH]; simpl in *.
      + apply elem_of_nil in Hk. contradiction.
      + destruct Hasc as [Ha Hasc].
        apply elem_of_cons in Hk as [->|Hk]; [|auto].
        apply Ha. apply elem_of_app. right. left.
    - apply Hrange. apply elem_of_app. left. exact Hk. }
  assert (Hlast : forall k, last done = Some k ->
            k ∈ done /\ forall k', k' ∈ done -> k' <= k).
  { clear -Hasc. intros k Hk.
    induction done as [|a done IH]; [discriminate|].
    destruct done as [|b done].
    - injection Hk as <-. split; [left|]. intros k' Hk'.
      apply list_elem_of_singleton in Hk'. lia.
    - simpl in Hasc. destruct Hasc as [Ha Hasc].
      change (last (a :: b :: done)) with (last (b :: done)) in Hk.
      destruct (IH Hasc Hk) as [Hin Hmax]. split; [right; exact Hin|].
      intros k' Hk'. apply elem_of_cons in Hk' as [->|Hk']; [|auto].
      assert (a < k); [|lia]. apply Ha.
      change (k ∈ (b :: done) ++ [idx]). apply elem_of_app. left. exact Hin. }
  set (M := reach done).
  assert (HM : (forall i, i ∈ shown -> i <= M) /\
               (forall i, Z.max 0 (idx - ctx) <= i <= M -> i ∈ shown) /\
               (M < idx <-> forall k, k ∈ done -> k + ctx < idx) /\
               -1 <= M).
  { subst M. unfold SearchLog.reach. destruct (last done) as [k|] eqn:El.
    - destruct (Hlast k eq_refl) as [Hk Hmax].
      destruct (Hbefore k Hk) as [Hlt Hkr].
      split; [|split; [|split]].
      + intros i Hi. apply Hwin in Hi as (k' & Hk' & Hw).
        unfold SearchLog.in_window in Hw. pose proof (Hmax k' Hk'). lia.
      + intros i Hi. apply Hwin. exists k. split; [exact Hk|].
        unfold SearchLog.in_window. lia.
      + split.
        * intros HMlt k' Hk'. pose proof (Hmax k' Hk'). lia.
        * intros Hall. specialize (Hall k Hk). lia.
      + lia.
    - assert (done = []) as ->.
      { destruct done as [|a done]; [reflexivity|].
        exfalso. clear -El. revert a El.
        induction done as [|b done IH]; intros a El; [discriminate|].
        apply (IH b). exact El. }
      split; [|split; [|split]].
      + intros i Hi. apply Hwin in Hi as (k' & Hk' & _).
        apply elem_of_nil in Hk'. contradiction.
      + intros i Hi. lia.
      + split; [|lia]. intros _ k Hk. apply elem_of_nil in Hk.
        contradiction.
      + lia. }
  destruct HM as (HMle & HMin & HMlt & HMlow).
  unfold show_match.
  set (start := Z.max 0 (idx - ctx)).
  set (stop := Z.min (len - 1) (idx + ctx)).
  set (out' := if negb (bool_decide (shown = []))
                  && (start >? max_of shown + 1)
               then out ++ [txt "---"] else out).
  assert (Hout' : exists seps,
            out' = map (render lines) (ps ++ seps) /\ entries seps = [] /\
            forall i, Entry true i ∉ seps).
  { subst out'. destruct (_ && _).
    - exists [Sep]. rewrite map_app, Hout. repeat split.
      intros i Hi. apply list_elem_of_singleton in Hi. discriminate.
    - exists []. rewrite app_nil_r. repeat split; [exact Hout|].
      intros i Hi. apply elem_of_nil in Hi. contradiction. }
  destruct Hout' as (seps & Hout' & Hseps & Hnomark).
  rewrite (show_window lines idx start (stop + 1) M out' shown HMle HMin).
  cbv zeta. set (lo := Z.max start (M + 1)).
  set (new := seqZ lo (stop + 1 - lo)).
  exists (ps ++ seps ++ map (fun i => Entry (i =? idx) i) new).
  cbn [fst snd].
  assert (Hnew : forall i, i ∈ new <-> lo <= i <= stop).
  { intros i. subst new. rewrite elem_of_seqZ. lia. }
  split; [|split; [|split; [|split]]].
  - rewrite Hout', app_assoc, (map_app _ (ps ++ seps)), map_map. reflexivity.
  - rewrite !entries_app, Hseps, entries_map, Hshown. reflexivity.
  - apply ascending_app; [exact Hsorted | apply ascending_range|].
    intros x y Hx Hy. apply HMle in Hx. apply Hnew in Hy. lia.
  - intros i. rewrite elem_of_app, Hwin, Hnew. split.
    + intros [(k & Hk & Hw)|Hi].
      * exists k. split; [apply elem_of_app; left; exact Hk | exact Hw].
      * exists idx. split; [apply elem_of_app; right; left|].
        unfold SearchLog.in_window. fold start stop. lia.
    + intros (k & Hk & Hw). apply elem_of_app in Hk as [Hk|Hk].
      * left. eauto.
      * apply list_elem_of_singleton in Hk. subst k.
        unfold SearchLog.in_window in Hw. fold start stop in Hw.
        destruct (Z_le_gt_dec i M) as [HiM|HiM].
        -- left. apply Hwin. apply HMin. fold start. lia.
        -- right. lia.
  - intros i. rewrite !elem_of_app. split.
    + intros [Hi|[Hi|Hi]].
      * apply Hmark in Hi as [Hi Hall]. split; [left; exact Hi|].
        intros k Hk Hlt. apply elem_of_app in Hk as [Hk|Hk]; [auto|].
        apply list_elem_of_singleton in Hk. subst k.
        destruct (Hbefore i Hi). lia.
      * apply Hnomark in Hi. contradiction.
      * apply list_elem_of_fmap in Hi as (j & [= Hb ->] & Hj).
        symmetry in Hb. apply Z.eqb_eq in Hb. subst j.
        split; [right; left|]. apply Hnew in Hj.
        assert (HMidx : M < idx) by lia.
        intros k Hk Hlt. apply elem_of_app in Hk as [Hk|Hk].
        -- apply HMlt; assumption.
        -- apply list_elem_of_singleton in Hk. lia.
    + intros [[Hi|Hi] Hall].
      * left. apply Hmark. split; [exact Hi|].
        intros k Hk. apply Hall. apply elem_of_app. left. exact Hk.
      * apply list_elem_of_singleton in Hi. subst i. right. right.
        apply list_elem_of_fmap. exists idx. rewrite Z.eqb_refl.
        split; [reflexivity|]. apply Hnew.
        assert (HMidx : M < idx).
        { apply HMlt. intros k Hk. apply Hall.
          - apply elem_of_app. left. exact Hk.
          - apply Hbefore, Hk. }
        subst lo start stop. lia.
Qed.

Lemma displayed_fold rest : forall done st,
  0 <= ctx ->
  ascending (done ++ rest) ->
  (forall k, k ∈ done ++ rest -> 0 <= k < len) ->
  displayed done st ->
  displayed (done ++ rest) (fold_left (show_match lines ctx) rest st).
Proof.
  induction rest as [|idx rest IH]; intros done [out shown] Hctx Hasc Hr Hd.
  - rewrite app_nil_r. exact Hd.
  - cbn [fold_left].
    replace (done ++ idx :: rest) with ((done ++ [idx]) ++ rest) in *
      by (rewrite <- app_assoc; reflexivity).
    apply IH; auto. apply displayed_step; auto.
    + clear -Hasc. induction (done ++ [idx]) as [|a l IHl]; simpl in *;
        [exact I|].
      destruct Hasc as [Ha Hasc]. split; [|auto].
      intros y Hy. apply Ha. apply elem_of_app. left. exact Hy.
    + intros k Hk. apply Hr. apply elem_of_app. left. exact Hk.
Qed.

(** With a negative number of context lines nothing is displayed. *)
Lemma nothing_displayed ms :
  ctx < 0 ->
  (forall k, k ∈ ms -> 0 <= k) ->
  fold_left (show_match lines ctx) ms ([], []) = ([], []).
Proof.
  intros Hctx. induction ms as [|k ms IH]; intros Hk; [reflexivity|].
  simpl. rewrite seqZ_nil.
  - simpl. apply IH. intros k' Hk'. apply Hk. right. exact Hk'.
  - pose proof (Hk k ltac:(left)). lia.
Qed.

End Display.

End SearchLogFacts.

(** X30. The display of the log search, for the lines of the log, the
    pattern as a test on a line and the number of context lines.  With a
    context that is not negative, every line is displayed once at most
    and the lines come in ascending order; the lines displayed are
    exactly those within the context of a matching line; and a line
    carries the marker [>>>] exactly when it matches and no earlier match
    has it in its context, so that the header can count more matches than
    there are marked lines.  With a negative context no line is displayed
    at all. *)
Theorem search_log_display
    (search : text -> bool) (lines : list text) (context_lines : Z) :
  let found := SearchLog.match_indices search lines in
  let len := Z.of_nat (length lines) in
  (forall k, k ∈ found <->
     0 <= k < len /\ search (nth (Z.to_nat k) lines []) = true) /\
  (context_lines < 0 ->
   SearchLog.output_parts search lines context_lines = []) /\
  (0 <= context_lines ->
   exists ps,
     SearchLog.output_parts search lines context_lines
     = map (SearchLog.render lines) ps /\
     SearchLog.ascending (SearchLog.entries ps) /\
     (forall i, i ∈ SearchLog.entries ps <->
        0 <= i < len /\
        exists k, k ∈ found /\ Z.abs (i - k) <= context_lines) /\
     (forall i, SearchLog.Entry true i ∈ ps <->
        i ∈ found /\
        forall k, k ∈ found -> k < i -> k + context_lines < i)).
Proof.
  intros found len.
  assert (Hfound : forall k, k ∈ found <->
            0 <= k < len /\ search (nth (Z.to_nat k) lines []) = true).
  { intros k. subst found. unfold SearchLog.match_indices.
    rewrite SearchLogFacts.match_indices_from_elem. split.
    - intros (j & -> & Hj & Hs).
      replace (Z.to_nat (0 + Z.of_nat j)) with j by lia.
      split; [subst len; lia | exact Hs].
    - intros [Hk Hs]. exists (Z.to_nat k).
      split; [lia|]. split; [subst len; lia | exact Hs]. }
  split; [exact Hfound|]. split.
  - intros Hctx. unfold SearchLog.output_parts.
    rewrite SearchLogFacts.nothing_displayed; [reflexivity | exact Hctx|].
    intros k Hk. apply Hfound in Hk. lia.
  - intros Hctx. unfold SearchLog.output_parts.
    destruct (SearchLogFacts.displayed_fold lines context_lines found []
                ([], []) Hctx) as (ps & Hout & Hshown & Hasc & Hwin & Hmark).
    + apply SearchLogFacts.match_indices_from_ascending.
    + intros k Hk. apply Hfound in Hk as [Hk _]. exact Hk.
    + exists []. simpl. repeat split; auto.
      * intros H. apply elem_of_nil in H. contradiction.
      * intros (k & Hk & _). apply elem_of_nil in Hk. contradiction.
      * apply elem_of_nil in H. contradiction.
      * apply elem_of_nil in H. contradiction.
      * intros [H _]. apply elem_of_nil in H. contradiction.
    + simpl app in *. exists ps. split; [exact Hout|].
      rewrite <- Hshown. split; [exact Hasc|]. split; [|exact Hmark].
      intros i. rewrite Hwin. unfold SearchLog.in_window. subst len.
      split.
      * intros (k & Hk & Hw). pose proof (proj1 (Hfound k) Hk) as [Hkr _].
        split; [lia|]. exists k. split; [exact Hk | lia].
      * intros (Hi & k & Hk & Hw). exists k. split; [exact Hk | lia].
Qed.

(** Two matches on neighbouring lines: the second one is displayed as
    context of the first and carries no marker. *)
Example search_log_display_neighbours :
  SearchLog.output_parts (fun line => Text.contains line (txt "r("))
    [txt "a"; txt "x r(1)"; txt "y r(2)"; txt "b"] 1
  = [txt "        1: a"; txt ">>>     2: x r(1)"; txt "        3: y r(2)";
     txt "        4: b"].
Proof. vm_compute. reflexivity. Qed.
